(** * Definitional simplifier: traversal engine and rule applicator

    A shallow embedding of [src/library/tactic/dsimplify_tactic.cpp]
    (classes [dsimplify_core_fn] and [dsimplify_fn]) and of the foreign
    binding [pexpr_subst] of [src/library/vm/vm_pexpr.cpp].

    The C++ code is stateful (cache, step counter, restart flag, type
    context) and throws; it is embedded in a state-and-exception monad.
    Loops that are not structurally bounded ([while (true)] in [visit],
    [operator()] and [dsimplify_fn::post], and the recursion of [visit]
    itself) carry an explicit fuel; running out of fuel is the distinct
    outcome [Timeout], never confused with a thrown exception. *)

From Stdlib Require Import String ZArith List Bool Lia.
Import ListNotations.
Open Scope Z_scope.

Set Implicit Arguments.

(** ** Expression kinds, as in [kernel/expr.h] *)

Inductive expr_kind : Type :=
| Var | Sort | Constant | Meta | Local | App | Lambda | Pi | Let | Macro.

Definition expr_kind_eqb (a b : expr_kind) : bool :=
  match a, b with
  | Var, Var | Sort, Sort | Constant, Constant | Meta, Meta
  | Local, Local | App, App | Lambda, Lambda | Pi, Pi | Let, Let
  | Macro, Macro => true
  | _, _ => false
  end.

(** ** Exceptions

    Modelled from the spec: the macros [lean_unreachable] and [lean_assert]
    and the function [check_system] are defined outside the two translated
    files.  Section 7 of the specification makes a raw bound variable "an
    unconditional fatal condition" and a cancellation an abort that is
    "propagated immediately"; each is an exception of its own here, apart
    from the [exception] that [inc_num_steps] throws. *)

(** What [check_system] may raise. *)
Inductive system_exn : Type :=
| interrupted
| stack_space_exception
| memory_exception.

Inductive exn : Type :=
| exception (msg : string)          (* [throw exception("...")] *)
| unreachable_reached               (* [lean_unreachable()] *)
| assertion_violation               (* a failed [lean_assert] *)
| system_exception (x : system_exn).  (* raised by [check_system] *)

Definition max_steps_msg : string :=
  "dsimplify failed, maximum number of steps exceeded".

(** ** The kernel interface used by the simplifier

    None of the functions below is defined in the two translated files:
    they belong to the kernel, the type context and the libraries the
    simplifier is linked with.  They are taken as an interface.  An
    [expr] is a handle on an immutable expression cell: Leibniz equality
    of handles is what [is_eqp] tests in the C++ code, while [expr_eq]
    is the structural [operator==].  Operations that receive the type
    context by reference return the updated context. *)

Class Kernel : Type := {
  expr : Type;
  name : Type;
  binder_info : Type;
  param_info : Type;
  type_context : Type;

  kind : expr -> expr_kind;
  is_eqp : expr -> expr -> bool;
  expr_eq : expr -> expr -> bool;

  macro_num_args : expr -> nat;
  macro_arg : expr -> nat -> expr;
  update_macro : expr -> list expr -> expr;

  binding_name : expr -> name;
  binding_domain : expr -> expr;
  binding_body : expr -> expr;
  binding_info : expr -> binder_info;

  let_name : expr -> name;
  let_type : expr -> expr;
  let_value : expr -> expr;
  let_body : expr -> expr;

  instantiate_rev : expr -> list expr -> expr;
  instantiate : expr -> expr -> expr;

  get_app_args : expr -> expr * list expr;
  mk_app : expr -> list expr -> expr;

  (* [type_context::tmp_locals] *)
  push_local : type_context -> name -> expr -> binder_info -> expr * type_context;
  push_let : type_context -> name -> expr -> expr -> expr * type_context;
  mk_pi : type_context -> list expr -> expr -> expr * type_context;
  mk_lambda : type_context -> list expr -> expr -> expr * type_context;
  pop_local : type_context -> type_context;

  get_fun_info : type_context -> expr -> nat -> list param_info * type_context;
  is_inst_implicit : param_info -> bool;
  (* [defeq_canonize(ctx, e, bool & updated)]: the flag is passed by
     reference, so the callee sees its current value and fixes the new one *)
  defeq_canonize : type_context -> expr -> bool -> expr * bool * type_context;

  (* [check_system]: [None] when the computation may go on *)
  check_system : type_context -> option system_exn
}.

Definition is_lambda `{Kernel} (e : expr) : bool := expr_kind_eqb (kind e) Lambda.
Definition is_let `{Kernel} (e : expr) : bool := expr_kind_eqb (kind e) Let.

(** The rewrite-rule library used by [dsimplify_fn]. *)
Class SimpLemmas `{Kernel} : Type := {
  simp_lemma : Type;
  simp_lemmas_for : Type;
  find : simp_lemmas_for -> expr -> option (list simp_lemma);
  is_refl : simp_lemma -> bool;
  refl_lemma_rewrite : type_context -> expr -> simp_lemma -> expr * type_context
}.

(** The virtual machine objects handled by the bindings of [vm_pexpr.cpp]. *)
Class VM `{Kernel} : Type := {
  vm_obj : Type;
  to_expr : vm_obj -> expr;
  to_obj : expr -> vm_obj
}.

(** ** Machine integers: [unsigned] is 32 bits wide and wraps *)

Definition UINT_MAX : Z := 4294967295.
Definition wrap (z : Z) : Z := z mod (UINT_MAX + 1).

(** ** The state of a [dsimplify_core_fn] object *)

Section State.
Context `{K : Kernel}.

(** [expr_struct_map<expr>]: an unordered map whose keys are compared
    with [operator==].  [insert] leaves an existing entry untouched. *)
Definition expr_struct_map : Type := list (expr * expr).

Fixpoint cache_find (c : expr_struct_map) (e : expr) : option expr :=
  match c with
  | [] => None
  | (k, v) :: c' => if expr_eq k e then Some v else cache_find c' e
  end.

Definition cache_insert (c : expr_struct_map) (e v : expr) : expr_struct_map :=
  match cache_find c e with
  | Some _ => c
  | None => (e, v) :: c
  end.

Record dsimplify_core_fn : Type := mk_core {
  m_ctx : type_context;
  m_cache : expr_struct_map;
  m_num_steps : Z;
  m_need_restart : bool;
  m_max_steps : Z;
  m_visit_instances : bool
}.

(** The constructor. *)
Definition new_dsimplify_core_fn (ctx : type_context) (max_steps : Z)
    (visit_instances : bool) : dsimplify_core_fn :=
  mk_core ctx [] 0 false max_steps visit_instances.

Definition set_ctx (c : type_context) (s : dsimplify_core_fn) :=
  mk_core c (m_cache s) (m_num_steps s) (m_need_restart s) (m_max_steps s)
          (m_visit_instances s).
Definition set_cache (c : expr_struct_map) (s : dsimplify_core_fn) :=
  mk_core (m_ctx s) c (m_num_steps s) (m_need_restart s) (m_max_steps s)
          (m_visit_instances s).
Definition set_num_steps (n : Z) (s : dsimplify_core_fn) :=
  mk_core (m_ctx s) (m_cache s) n (m_need_restart s) (m_max_steps s)
          (m_visit_instances s).
Definition set_need_restart (b : bool) (s : dsimplify_core_fn) :=
  mk_core (m_ctx s) (m_cache s) (m_num_steps s) b (m_max_steps s)
          (m_visit_instances s).

(** ** The monad: state, exceptions and fuel *)

Inductive result (A : Type) : Type :=
| Ret (a : A) (s : dsimplify_core_fn)
| Throw (x : exn)
| Timeout.
Arguments Throw {A} x.
Arguments Timeout {A}.

Definition M (A : Type) : Type := dsimplify_core_fn -> result A.

Definition ret {A} (a : A) : M A := fun s => Ret a s.
Definition bind {A B} (m : M A) (k : A -> M B) : M B :=
  fun s => match m s with
           | Ret a s' => k a s'
           | Throw x => Throw x
           | Timeout => Timeout
           end.
Definition throw {A} (x : exn) : M A := fun _ => Throw x.
Definition timeout {A} : M A := fun _ => Timeout.

(** An operation of the interface that takes the type context by reference. *)
Definition with_ctx {A} (f : type_context -> A * type_context) : M A :=
  fun s => let (a, c) := f (m_ctx s) in Ret a (set_ctx c s).

Definition check_system_m : M unit :=
  fun s => match check_system (m_ctx s) with
           | Some x => Throw (system_exception x)
           | None => Ret tt s
           end.

End State.

Arguments Ret {K A} a s.
Arguments Throw {K A} x.
Arguments Timeout {K A}.

Declare Scope monad_scope.
Delimit Scope monad_scope with monad.
Notation "x <- m ;; k" := (bind m (fun x => k))
  (at level 61, m at next level, right associativity) : monad_scope.
Notation "' p <- m ;; k" := (bind m (fun x => match x with p => k end))
  (at level 61, p pattern, m at next level, right associativity) : monad_scope.
Notation "m ;;; k" := (bind m (fun _ => k))
  (at level 61, right associativity) : monad_scope.
Open Scope monad_scope.

(** The two virtual methods of [dsimplify_core_fn]. *)
Record hooks `{K : Kernel} : Type := mk_hooks {
  pre : expr -> M (option (expr * bool));
  post : expr -> M (option (expr * bool))
}.

(** ** The traversal engine *)

Section Engine.
Context `{K : Kernel}.
Variable h : hooks.

(** [inc_num_steps] *)
Definition inc_num_steps : M unit :=
  fun s =>
    let n := wrap (m_num_steps s + 1) in
    if m_max_steps s <? n then Throw (exception max_steps_msg)
    else Ret tt (set_num_steps n s).

(** The destructor of [tmp_locals] pops every local it pushed. *)
Fixpoint pop_locals (n : nat) : M unit :=
  match n with
  | O => ret tt
  | S n' => with_ctx (fun c => (tt, pop_local c)) ;;; pop_locals n'
  end.

(** [defeq_canonize(m_ctx, a, m_need_restart)] *)
Definition defeq_canonize_m (a : expr) : M expr :=
  fun s =>
    let '(r, flag, c) := defeq_canonize (m_ctx s) a (m_need_restart s) in
    Ret r (set_need_restart flag (set_ctx c s)).

Section Visitors.
(** The recursive calls of [visit], and the fuel of the binder loops. *)
Variable visit : expr -> M expr.
Variable fuel : nat.

(** [visit_macro] *)
Fixpoint visit_macro_args (e : expr) (i n : nat) (new_args : list expr)
  : M (list expr) :=
  match n with
  | O => ret new_args
  | S n' =>
      a <- visit (macro_arg e i) ;;
      visit_macro_args e (S i) n' (new_args ++ [a])
  end.

Definition visit_macro (e : expr) : M expr :=
  new_args <- visit_macro_args e 0 (macro_num_args e) [] ;;
  ret (update_macro e new_args).

(** [visit_binding]: the [while (b.kind() == k)] loop returns the
    remaining body, the frame of locals and the [modified] flag. *)
Fixpoint visit_binding_loop (n : nat) (k : expr_kind) (b : expr)
    (locals : list expr) (modified : bool) : M (expr * list expr * bool) :=
  if expr_kind_eqb (kind b) k then
    match n with
    | O => timeout
    | S n' =>
        let d := instantiate_rev (binding_domain b) locals in
        new_d <- visit d ;;
        let modified := if negb (is_eqp d new_d) then true else modified in
        l <- with_ctx (fun c => push_local c (binding_name b) new_d (binding_info b)) ;;
        visit_binding_loop n' k (binding_body b) (locals ++ [l]) modified
    end
  else ret (b, locals, modified).

Definition visit_binding (e : expr) : M expr :=
  let k := kind e in
  '(b, locals, modified) <- visit_binding_loop fuel k e [] false ;;
  let b := instantiate_rev b locals in
  new_b <- visit b ;;
  let modified := if negb (is_eqp b new_b) then true else modified in
  r <- (if modified then
          if expr_kind_eqb k Pi
          then with_ctx (fun c => mk_pi c locals new_b)
          else with_ctx (fun c => mk_lambda c locals new_b)
        else ret e) ;;
  pop_locals (length locals) ;;;
  ret r.

(** [visit_let] *)
Fixpoint visit_let_loop (n : nat) (b : expr) (locals : list expr)
    (modified : bool) : M (expr * list expr * bool) :=
  if is_let b then
    match n with
    | O => timeout
    | S n' =>
        let t := instantiate_rev (let_type b) locals in
        let v := instantiate_rev (let_value b) locals in
        new_t <- visit t ;;
        new_v <- visit v ;;
        let modified :=
          if negb (is_eqp t new_t) || negb (is_eqp v new_v) then true
          else modified in
        l <- with_ctx (fun c => push_let c (let_name b) t v) ;;
        visit_let_loop n' (let_body b) (locals ++ [l]) modified
    end
  else ret (b, locals, modified).

Definition visit_let (e : expr) : M expr :=
  '(b, locals, modified) <- visit_let_loop fuel e [] false ;;
  let b := instantiate_rev b locals in
  new_b <- visit b ;;
  let modified := if negb (is_eqp b new_b) then true else modified in
  r <- (if modified then with_ctx (fun c => mk_lambda c locals new_b)
        else ret e) ;;
  pop_locals (length locals) ;;;
  ret r.

(** [args[i] = new_a] on a buffer. *)
Fixpoint set_nth (i : nat) (a : expr) (args : list expr) : list expr :=
  match args, i with
  | [], _ => []
  | _ :: r, O => a :: r
  | x :: r, S i' => x :: set_nth i' a r
  end.

(** [visit_app], first loop: one iteration per entry of
    [info.get_params_info()].  Returns [i], the buffer and [modified]. *)
Fixpoint visit_app_params (pinfos : list param_info) (i : nat)
    (args : list expr) (modified : bool) : M (nat * list expr * bool) :=
  match pinfos with
  | [] => ret (i, args, modified)
  | pinfo :: rest =>
      match nth_error args i with
      | None => throw assertion_violation       (* lean_assert(i < args.size()) *)
      | Some a =>
          new_a <- (if is_inst_implicit pinfo then defeq_canonize_m a
                    else visit a) ;;
          let modified := if negb (expr_eq new_a a) then true else modified in
          visit_app_params rest (S i) (set_nth i new_a args) modified
      end
  end.

(** [visit_app], second loop: [for (; i < args.size(); i++)], with [n]
    the number of iterations left. *)
Fixpoint visit_app_rest (n : nat) (i : nat) (args : list expr)
    (modified : bool) : M (list expr * bool) :=
  match n with
  | O => ret (args, modified)
  | S n' =>
      match nth_error args i with
      | None => ret (args, modified)
      | Some a =>
          new_a <- visit a ;;
          let modified := if negb (expr_eq new_a a) then true else modified in
          visit_app_rest n' (S i) (set_nth i new_a args) modified
      end
  end.

Definition visit_app (e : expr) : M expr :=
  let '(f, args) := get_app_args e in
  '(i, args, modified) <-
     (fun s =>
        if negb (m_visit_instances s) then
          (info <- with_ctx (fun c => get_fun_info c f (length args)) ;;
           visit_app_params info 0%nat args false) s
        else ret (0%nat, args, false) s) ;;
  '(args, modified) <- visit_app_rest (length args - i) i args modified ;;
  if modified then ret (mk_app f args) else ret e.

(** The [switch] of [visit]. *)
Definition visit_children (curr_e : expr) : M expr :=
  match kind curr_e with
  | Local | Meta | Sort | Constant => ret curr_e
  | Var => throw unreachable_reached
  | Macro => visit_macro curr_e
  | Lambda | Pi => visit_binding curr_e
  | App => visit_app curr_e
  | Let => visit_let curr_e
  end.

(** The [while (true)] loop of [visit]; returns the final [curr_e]. *)
Fixpoint visit_loop (n : nat) (curr_e : expr) : M expr :=
  match n with
  | O => timeout
  | S n' =>
      new_e <- visit_children curr_e ;;
      p2 <- post h new_e ;;
      match p2 with
      | Some (r, true) => visit_loop n' r
      | Some (r, false) => ret r
      | None => ret curr_e
      end
  end.

End Visitors.

Definition insert_cache (e v : expr) : M unit :=
  fun s => Ret tt (set_cache (cache_insert (m_cache s) e v) s).

(** [visit] *)
Fixpoint visit (fuel : nat) (e : expr) : M expr :=
  match fuel with
  | O => timeout
  | S fuel' =>
      check_system_m ;;;
      inc_num_steps ;;;
      fun s =>
        match cache_find (m_cache s) e with
        | Some r => Ret r s
        | None =>
            (p1 <- pre h e ;;
             match p1 with
             | Some (r, false) => insert_cache e r ;;; ret r
             | _ =>
                 curr_e <- visit_loop (visit fuel') fuel' fuel' e ;;
                 insert_cache e curr_e ;;;
                 ret curr_e
             end) s
        end
  end.

(** [operator()] *)
Fixpoint operator_call (fuel : nat) (e : expr) : M expr :=
  match fuel with
  | O => timeout
  | S fuel' =>
      fun s =>
        (e' <- visit fuel' e ;;
         fun s' =>
           if negb (m_need_restart s') then Ret e' s'
           else operator_call fuel' e' (set_cache [] s'))
          (set_need_restart false s)
  end.

End Engine.

(** The hooks of [dsimplify_core_fn] itself: both return nothing. *)
Definition core_hooks `{K : Kernel} : hooks :=
  mk_hooks (fun _ => ret None) (fun _ => ret None).

(** ** The fixed-point rule applicator, [dsimplify_fn] *)

Section RuleApplicator.
Context `{K : Kernel} {L : SimpLemmas}.
Variable m_simp_lemmas : simp_lemmas_for.

(** The [for] loop of [post]: the first lemma with [is_refl] is applied
    and the loop is left. *)
Fixpoint rewrite_first_refl (simp_lemmas : list simp_lemma) (new_e : expr)
  : M expr :=
  match simp_lemmas with
  | [] => ret new_e
  | sl :: rest =>
      if is_refl sl
      then with_ctx (fun c => refl_lemma_rewrite c new_e sl)
      else rewrite_first_refl rest new_e
  end.

(** The [while (true)] loop of [post]; returns the final [curr_e]. *)
Fixpoint post_loop (n : nat) (curr_e : expr) : M expr :=
  match n with
  | O => timeout
  | S n' =>
      check_system_m ;;;
      inc_num_steps ;;;
      match find m_simp_lemmas curr_e with
      | None => ret curr_e
      | Some simp_lemmas =>
          new_e <- rewrite_first_refl simp_lemmas curr_e ;;
          if expr_eq new_e curr_e then ret curr_e
          else post_loop n' new_e
      end
  end.

(** [dsimplify_fn::post] *)
Definition dsimplify_fn_post (fuel : nat) (e : expr)
  : M (option (expr * bool)) :=
  curr_e <- post_loop fuel e ;;
  if expr_eq curr_e e then ret None else ret (Some (curr_e, true)).

(** [dsimplify_fn] overrides [post] only. *)
Definition dsimplify_fn (fuel : nat) : hooks :=
  mk_hooks (pre core_hooks) (dsimplify_fn_post fuel).

End RuleApplicator.

(** ** [pexpr_subst], from [vm_pexpr.cpp] *)

Definition pexpr_subst `{K : Kernel} {V : VM} (_e1 _e2 : vm_obj) : vm_obj :=
  let e1 := to_expr _e1 in
  let e2 := to_expr _e2 in
  if is_lambda e1 then to_obj (instantiate (binding_body e1) e2)
  else to_obj e1.

(** ** The protocol as the specification words it

    Three definitions that follow the text of the specification where it
    departs from the code; they are compared with the translated code
    below and are used for nothing else. *)

Section SpecWording.
Context `{K : Kernel}.
Variable h : hooks.

(** Restart protocol: "discard the entire cache and re-run the visit on
    the original root from scratch (not the partially rewritten result)". *)
Fixpoint operator_call_spec (fuel : nat) (root : expr) : M expr :=
  match fuel with
  | O => timeout
  | S fuel' =>
      fun s =>
        (e' <- visit h fuel' root ;;
         fun s' =>
           if negb (m_need_restart s') then Ret e' s'
           else operator_call_spec fuel' root (set_cache [] s'))
          (set_need_restart false s)
  end.

(** Hook protocol, step 4: "if continue is true, loop again with the same
    post-hook call (not a full re-descent) on the new current value". *)
Fixpoint post_iter_spec (n : nat) (curr : expr) : M expr :=
  match n with
  | O => timeout
  | S n' =>
      p2 <- post h curr ;;
      match p2 with
      | Some (r, true) => post_iter_spec n' r
      | Some (r, false) => ret r
      | None => ret curr
      end
  end.

Definition visit_loop_spec (visit : expr -> M expr) (fuel n : nat)
    (curr_e : expr) : M expr :=
  new_e <- visit_children visit fuel curr_e ;;
  post_iter_spec n new_e.

(** Lambda/Pi: "push a fresh local standing for that binder (carrying the
    original un-simplified domain)". *)
Fixpoint visit_binding_loop_spec (visit : expr -> M expr) (n : nat)
    (k : expr_kind) (b : expr) (locals : list expr) (modified : bool)
  : M (expr * list expr * bool) :=
  if expr_kind_eqb (kind b) k then
    match n with
    | O => timeout
    | S n' =>
        let d := instantiate_rev (binding_domain b) locals in
        new_d <- visit d ;;
        let modified := if negb (is_eqp d new_d) then true else modified in
        l <- with_ctx (fun c => push_local c (binding_name b) d (binding_info b)) ;;
        visit_binding_loop_spec visit n' k (binding_body b) (locals ++ [l]) modified
    end
  else ret (b, locals, modified).

End SpecWording.

(** ** A reference kernel on first-order trees

    Modelled from the spec: the expression representation, the type
    context, the signature classifier, the canonicalizer and the rule
    database are external collaborators of the two translated files
    (specification, sections 3 and 6).  The module below implements the
    interface on plain trees in de Bruijn form, with the classifier and
    the canonicalizer left as stubs; it is the concrete kernel on which
    the engine is run in the examples.  Handles are the trees themselves
    (a hash-consed heap), so [is_eqp] and [operator==] coincide here. *)

Module Tree.

#[local] Set Warnings "-register-all".

Inductive tm : Type :=
| tVar (i : nat)
| tSort (u : nat)
| tConst (c : string)
| tMeta (m : string) (ty : tm)
| tLocal (id : nat) (x : string) (ty : tm)
| tApp (f a : tm)
| tLam (x : string) (d b : tm)
| tPi (x : string) (d b : tm)
| tLet (x : string) (t v b : tm)
| tMacro (m : string) (args : list tm).

Fixpoint tm_eqb (a b : tm) {struct a} : bool :=
  match a, b with
  | tVar i, tVar j => Nat.eqb i j
  | tSort u, tSort v => Nat.eqb u v
  | tConst c, tConst d => String.eqb c d
  | tMeta m t, tMeta n u => String.eqb m n && tm_eqb t u
  | tLocal i x t, tLocal j y u => Nat.eqb i j && String.eqb x y && tm_eqb t u
  | tApp f a, tApp g b => tm_eqb f g && tm_eqb a b
  | tLam x d b, tLam y d' b' => String.eqb x y && tm_eqb d d' && tm_eqb b b'
  | tPi x d b, tPi y d' b' => String.eqb x y && tm_eqb d d' && tm_eqb b b'
  | tLet x t v b, tLet y t' v' b' =>
      String.eqb x y && tm_eqb t t' && tm_eqb v v' && tm_eqb b b'
  | tMacro m l, tMacro n l' =>
      String.eqb m n &&
      (fix go (l l' : list tm) {struct l} : bool :=
         match l, l' with
         | [], [] => true
         | x :: r, y :: r' => tm_eqb x y && go r r'
         | _, _ => false
         end) l l'
  | _, _ => false
  end.

Definition tkind (e : tm) : expr_kind :=
  match e with
  | tVar _ => Var | tSort _ => Sort | tConst _ => Constant
  | tMeta _ _ => Meta | tLocal _ _ _ => Local | tApp _ _ => App
  | tLam _ _ _ => Lambda | tPi _ _ _ => Pi | tLet _ _ _ _ => Let
  | tMacro _ _ => Macro
  end.

Definition t_macro_num_args (e : tm) : nat :=
  match e with tMacro _ l => List.length l | _ => O end.
Definition t_macro_arg (e : tm) (i : nat) : tm :=
  match e with tMacro _ l => nth i l e | _ => e end.
Definition t_update_macro (e : tm) (new_args : list tm) : tm :=
  match e with tMacro m _ => tMacro m new_args | _ => e end.

Definition t_binding_name (e : tm) : string :=
  match e with tLam x _ _ | tPi x _ _ => x | _ => EmptyString end.
Definition t_binding_domain (e : tm) : tm :=
  match e with tLam _ d _ | tPi _ d _ => d | _ => e end.
Definition t_binding_body (e : tm) : tm :=
  match e with tLam _ _ b | tPi _ _ b => b | _ => e end.

Definition t_let_name (e : tm) : string :=
  match e with tLet x _ _ _ => x | _ => EmptyString end.
Definition t_let_type (e : tm) : tm :=
  match e with tLet _ t _ _ => t | _ => e end.
Definition t_let_value (e : tm) : tm :=
  match e with tLet _ _ v _ => v | _ => e end.
Definition t_let_body (e : tm) : tm :=
  match e with tLet _ _ _ b => b | _ => e end.

(** [lift_free_vars]: the variables from [c] on are shifted by [k]. *)
Fixpoint lift_at (c k : nat) (e : tm) : tm :=
  match e with
  | tVar i => if Nat.ltb i c then tVar i else tVar (i + k)
  | tSort _ | tConst _ => e
  | tMeta m t => tMeta m (lift_at c k t)
  | tLocal i x t => tLocal i x (lift_at c k t)
  | tApp f a => tApp (lift_at c k f) (lift_at c k a)
  | tLam x d b => tLam x (lift_at c k d) (lift_at (S c) k b)
  | tPi x d b => tPi x (lift_at c k d) (lift_at (S c) k b)
  | tLet x t v b => tLet x (lift_at c k t) (lift_at c k v) (lift_at (S c) k b)
  | tMacro m l => tMacro m (map (lift_at c k) l)
  end.

(** Instantiation of the loose variables [s .. s + length subst - 1]. *)
Fixpoint inst_at (s : nat) (subst : list tm) (e : tm) : tm :=
  match e with
  | tVar i =>
      if Nat.ltb i s then tVar i
      else match nth_error subst (i - s) with
           | Some a => lift_at 0 s a
           | None => tVar (i - List.length subst)
           end
  | tSort _ | tConst _ => e
  | tMeta m t => tMeta m (inst_at s subst t)
  | tLocal i x t => tLocal i x (inst_at s subst t)
  | tApp f a => tApp (inst_at s subst f) (inst_at s subst a)
  | tLam x d b => tLam x (inst_at s subst d) (inst_at (S s) subst b)
  | tPi x d b => tPi x (inst_at s subst d) (inst_at (S s) subst b)
  | tLet x t v b =>
      tLet x (inst_at s subst t) (inst_at s subst v) (inst_at (S s) subst b)
  | tMacro m l => tMacro m (map (inst_at s subst) l)
  end.

Definition t_instantiate (e a : tm) : tm := inst_at 0 [a] e.
Definition t_instantiate_rev (e : tm) (locals : list tm) : tm :=
  inst_at 0 (rev locals) e.

(** All loose variables of [e] are below [n]. *)
Fixpoint closed_at (n : nat) (e : tm) : bool :=
  match e with
  | tVar i => Nat.ltb i n
  | tSort _ | tConst _ => true
  | tMeta _ t => closed_at n t
  | tLocal _ _ t => closed_at n t
  | tApp f a => closed_at n f && closed_at n a
  | tLam _ d b | tPi _ d b => closed_at n d && closed_at (S n) b
  | tLet _ t v b => closed_at n t && closed_at n v && closed_at (S n) b
  | tMacro _ l => forallb (closed_at n) l
  end.

Fixpoint app_args_rev (e : tm) : tm * list tm :=
  match e with
  | tApp f a => let (hd, r) := app_args_rev f in (hd, a :: r)
  | _ => (e, [])
  end.
Definition t_get_app_args (e : tm) : tm * list tm :=
  let (hd, r) := app_args_rev e in (hd, rev r).
Definition t_mk_app (f : tm) (args : list tm) : tm := fold_left tApp args f.

(** The type context: a supply of fresh local identifiers, the locals
    in scope, the values of the let-bound ones, and the number of calls
    the canonicalizer has served. *)
Record tctx : Type := mk_tctx {
  next_id : nat;
  scope : list nat;
  values : list (nat * tm);
  canon_calls : nat
}.

Definition empty_tctx : tctx := mk_tctx 0 [] [] 0.

Definition t_push_local (c : tctx) (x : string) (ty : tm) (bi : unit)
  : tm * tctx :=
  (tLocal (next_id c) x ty,
   mk_tctx (S (next_id c)) (next_id c :: scope c) (values c) (canon_calls c)).

Definition t_push_let (c : tctx) (x : string) (t v : tm) : tm * tctx :=
  (tLocal (next_id c) x t,
   mk_tctx (S (next_id c)) (next_id c :: scope c)
           ((next_id c, v) :: values c) (canon_calls c)).

Definition t_pop_local (c : tctx) : tctx :=
  mk_tctx (next_id c) (tl (scope c)) (values c) (canon_calls c).

Fixpoint index_of (id : nat) (ids : list nat) : option nat :=
  match ids with
  | [] => None
  | j :: r => if Nat.eqb id j then Some O
              else option_map S (index_of id r)
  end.

(** [abstract_locals]: the local at position [j] of the frame [ids]
    becomes the variable [k + (length ids - 1 - j)]. *)
Fixpoint abs_at (k : nat) (ids : list nat) (e : tm) : tm :=
  match e with
  | tVar _ | tSort _ | tConst _ => e
  | tMeta m t => tMeta m (abs_at k ids t)
  | tLocal i x t =>
      match index_of i ids with
      | Some j => tVar (k + (List.length ids - 1 - j))
      | None => tLocal i x (abs_at k ids t)
      end
  | tApp f a => tApp (abs_at k ids f) (abs_at k ids a)
  | tLam x d b => tLam x (abs_at k ids d) (abs_at (S k) ids b)
  | tPi x d b => tPi x (abs_at k ids d) (abs_at (S k) ids b)
  | tLet x t v b => tLet x (abs_at k ids t) (abs_at k ids v) (abs_at (S k) ids b)
  | tMacro m l => tMacro m (map (abs_at k ids) l)
  end.

Fixpoint value_of (id : nat) (vals : list (nat * tm)) : option tm :=
  match vals with
  | [] => None
  | (j, v) :: r => if Nat.eqb id j then Some v else value_of id r
  end.

(** [mk_pi] and [mk_lambda] over a frame: [done] holds the identifiers of
    the locals already bound, outermost first. *)
Fixpoint mk_binding (is_pi : bool) (vals : list (nat * tm)) (done : list nat)
    (todo : list tm) (b : tm) : tm :=
  match todo with
  | [] => abs_at 0 done b
  | tLocal id x ty :: rest =>
      let ty' := abs_at 0 done ty in
      let body := mk_binding is_pi vals (done ++ [id]) rest b in
      match value_of id vals with
      | Some v => tLet x ty' (abs_at 0 done v) body
      | None => if is_pi then tPi x ty' body else tLam x ty' body
      end
  | _ :: rest => mk_binding is_pi vals done rest b
  end.

Definition t_mk_pi (c : tctx) (locals : list tm) (b : tm) : tm * tctx :=
  (mk_binding true (values c) [] locals b, c).
Definition t_mk_lambda (c : tctx) (locals : list tm) (b : tm) : tm * tctx :=
  (mk_binding false (values c) [] locals b, c).

(** The stubs: the classifier maps a head and an arity to the flags
    "instance-implicit" of the parameters; the canonicalizer receives the
    number of calls served so far and returns the representative and
    whether it updated its tables; the interruption check looks at the
    context. *)
Record stubs : Type := mk_stubs {
  fun_info_stub : tm -> nat -> list bool;
  canon_stub : nat -> tm -> tm * bool;
  check_stub : tctx -> option system_exn
}.

Definition t_get_fun_info (st : stubs) (c : tctx) (f : tm) (nargs : nat)
  : list bool * tctx := (fun_info_stub st f nargs, c).

Definition t_defeq_canonize (st : stubs) (c : tctx) (e : tm) (updated : bool)
  : tm * bool * tctx :=
  let (r, u) := canon_stub st (canon_calls c) e in
  (r, if u then true else updated,
   mk_tctx (next_id c) (scope c) (values c) (S (canon_calls c))).

Definition kernel (st : stubs) : Kernel := {|
  expr := tm;
  name := string;
  binder_info := unit;
  param_info := bool;
  type_context := tctx;
  kind := tkind;
  is_eqp := tm_eqb;
  expr_eq := tm_eqb;
  macro_num_args := t_macro_num_args;
  macro_arg := t_macro_arg;
  update_macro := t_update_macro;
  binding_name := t_binding_name;
  binding_domain := t_binding_domain;
  binding_body := t_binding_body;
  binding_info := fun _ => tt;
  let_name := t_let_name;
  let_type := t_let_type;
  let_value := t_let_value;
  let_body := t_let_body;
  instantiate_rev := t_instantiate_rev;
  instantiate := t_instantiate;
  get_app_args := t_get_app_args;
  mk_app := t_mk_app;
  push_local := t_push_local;
  push_let := t_push_let;
  mk_pi := t_mk_pi;
  mk_lambda := t_mk_lambda;
  pop_local := t_pop_local;
  get_fun_info := t_get_fun_info st;
  is_inst_implicit := fun b => b;
  defeq_canonize := t_defeq_canonize st;
  check_system := check_stub st
|}.

(** Stubs that do nothing: no parameter is instance-implicit, the
    canonicalizer is the identity and never updates, and nothing
    interrupts. *)
Definition quiet : stubs :=
  mk_stubs (fun _ _ => []) (fun _ e => (e, false)) (fun _ => None).

(** A rule database of closed rules [lhs -> rhs], each flagged with
    [is_refl]; a rule is a candidate for the nodes with the head of its
    left-hand side. *)
Definition rule : Type := (tm * tm * bool)%type.

Definition head_of (e : tm) : tm := fst (app_args_rev e).

Definition t_find (db : list rule) (e : tm) : option (list rule) :=
  match filter (fun r : rule => tm_eqb (head_of (fst (fst r))) (head_of e)) db with
  | [] => None
  | l => Some l
  end.

Definition t_refl_lemma_rewrite (c : tctx) (e : tm) (r : rule) : tm * tctx :=
  (if tm_eqb (fst (fst r)) e then snd (fst r) else e, c).

Definition simp_lemmas (st : stubs) : @SimpLemmas (kernel st) :=
  @Build_SimpLemmas (kernel st) rule (list rule) t_find
    (fun r : rule => snd r) t_refl_lemma_rewrite.

(** Virtual machine objects: an expression, or some other value. *)
Inductive obj : Type :=
| obj_expr (e : tm)
| obj_nat (n : nat).

Definition vm (st : stubs) : @VM (kernel st) :=
  @Build_VM (kernel st) obj
    (fun o => match o with obj_expr e => e | obj_nat _ => tSort 0 end)
    obj_expr.

End Tree.

(** ** Notions used in the statements *)

Unset Implicit Arguments.

Section Notions.
Context `{K : Kernel}.

(** [m2] agrees with [m1] wherever [m1] does not run out of fuel. *)
Definition refines {A} (m1 m2 : M A) : Prop :=
  forall s, m1 s <> Timeout -> m2 s = m1 s.

(** The value a computation returns, if it returns. *)
Definition returned {A} (r : result A) : option A :=
  match r with
  | Ret a _ => Some a
  | _ => None
  end.

End Notions.

(** The passes of [operator()], as the code runs them: a pass visits the
    current expression with the restart flag cleared; if the flag is set
    when the pass ends, the cache is emptied and the next pass visits the
    expression the pass returned. *)
Inductive passes `{K : Kernel} (h : hooks)
  : expr -> dsimplify_core_fn -> expr -> dsimplify_core_fn -> Prop :=
| passes_done : forall e s r s',
    (exists n, visit h n e (set_need_restart false s) = Ret r s') ->
    m_need_restart s' = false ->
    passes h e s r s'
| passes_restart : forall e s e' s1 r s',
    (exists n, visit h n e (set_need_restart false s) = Ret e' s1) ->
    m_need_restart s1 = true ->
    passes h e' (set_cache [] s1) r s' ->
    passes h e s r s'.

(** Application arguments, position by position, as the specification
    words it: "those arguments are not recursively visited - instead they
    are passed to the external canonicalizer [...] All other arguments are
    visited normally.  Rebuild only if any argument's identity changed." *)
Section Positional.
Context `{K : Kernel}.
Variable visit : expr -> M expr.

Fixpoint visit_args_positional (pinfos : list param_info) (args : list expr)
  : M (list expr * bool) :=
  match args with
  | [] => ret ([], false)
  | a :: rest =>
      new_a <- (match pinfos with
                | p :: _ => if is_inst_implicit p then defeq_canonize_m a
                            else visit a
                | [] => visit a
                end) ;;
      '(new_rest, changed) <- visit_args_positional (tl pinfos) rest ;;
      ret (new_a :: new_rest, negb (expr_eq new_a a) || changed)
  end.

(** The traversal of the claim on instance-implicit arguments, with the
    call of the external canonicalizer written out on the kernel
    interface: at a position reported instance-implicit the argument is
    handed to [defeq_canonize] together with the current restart flag, the
    flag and the type context become what the canonicalizer makes of them,
    and [visit] is not called; at every other position the argument is
    visited. *)
Fixpoint visit_args_in_position (pinfos : list param_info) (args : list expr)
  : M (list expr * bool) :=
  match args with
  | [] => ret ([], false)
  | a :: rest =>
      new_a <- (match pinfos with
                | p :: _ =>
                    if is_inst_implicit p then
                      fun s =>
                        let '(r, updated, c) :=
                          defeq_canonize (m_ctx s) a (m_need_restart s) in
                        Ret r (set_need_restart updated (set_ctx c s))
                    else visit a
                | [] => visit a
                end) ;;
      '(new_rest, changed) <- visit_args_in_position (tl pinfos) rest ;;
      ret (new_a :: new_rest, negb (expr_eq new_a a) || changed)
  end.

Definition visit_app_in_position (e : expr) : M expr :=
  let '(f, args) := get_app_args e in
  fun s =>
    let '(info, c) := get_fun_info (m_ctx s) f (length args) in
    ('(new_args, changed) <- visit_args_in_position info args ;;
     if changed then ret (mk_app f new_args) else ret e) (set_ctx c s).

End Positional.

(** The rule applicator, step by step. *)
Section Rewriting.
Context `{K : Kernel} {L : SimpLemmas}.
Variable lemmas : simp_lemmas_for.

(** The first lemma of a list with [is_refl], if any. *)
Fixpoint first_refl (ls : list simp_lemma) : option simp_lemma :=
  match ls with
  | [] => None
  | sl :: rest => if is_refl sl then Some sl else first_refl rest
  end.

(** A productive rewrite: the lookup succeeds, and the first lemma with
    [is_refl] among the candidates turns the node into another one. *)
Inductive rewrite_step
  : expr -> type_context -> expr -> type_context -> Prop :=
| rewrite_step_intro : forall curr c ls sl new_e c',
    find lemmas curr = Some ls ->
    first_refl ls = Some sl ->
    refl_lemma_rewrite c curr sl = (new_e, c') ->
    expr_eq new_e curr = false ->
    rewrite_step curr c new_e c'.

(** No productive rewrite: no candidate, no candidate with [is_refl], or
    the first such candidate leaves the node as it is. *)
Inductive rewrite_stuck : expr -> type_context -> type_context -> Prop :=
| stuck_no_candidate : forall curr c,
    find lemmas curr = None -> rewrite_stuck curr c c
| stuck_no_refl : forall curr c ls,
    find lemmas curr = Some ls -> first_refl ls = None ->
    rewrite_stuck curr c c
| stuck_unchanged : forall curr c ls sl new_e c',
    find lemmas curr = Some ls ->
    first_refl ls = Some sl ->
    refl_lemma_rewrite c curr sl = (new_e, c') ->
    expr_eq new_e curr = true ->
    rewrite_stuck curr c c'.

(** [k] productive rewrites in a row. *)
Inductive rewrite_chain
  : nat -> expr -> type_context -> expr -> type_context -> Prop :=
| chain_nil : forall e c, rewrite_chain O e c e c
| chain_cons : forall k e c e1 c1 e2 c2,
    rewrite_step e c e1 c1 ->
    rewrite_chain k e1 c1 e2 c2 ->
    rewrite_chain (S k) e c e2 c2.

End Rewriting.

(** The step counter. *)
Section Steps.
Context `{K : Kernel}.

(** The counter has not passed the ceiling, and the ceiling is not the
    largest [unsigned]. *)
Definition within_ceiling (s : dsimplify_core_fn) : Prop :=
  0 <= m_num_steps s <= m_max_steps s /\ m_max_steps s < UINT_MAX.

(** The number of steps left before the ceiling. *)
Definition room (s : dsimplify_core_fn) : nat :=
  Z.to_nat (m_max_steps s - m_num_steps s).

(** The ceiling is [N] and the counter lies between [c] and [N]. *)
Definition counted (N c : Z) (s : dsimplify_core_fn) : Prop :=
  m_max_steps s = N /\ 0 <= m_num_steps s /\ c <= m_num_steps s <= N.

(** From a state counted from [c], the computation throws or returns in
    a state counted from [c']; it does not run out of fuel. *)
Definition advances {A} (N c c' : Z) (m : M A) : Prop :=
  forall s, counted N c s ->
    match m s with
    | Ret _ s' => counted N c' s'
    | Throw _ => True
    | Timeout => False
    end.

(** [k] accounted steps in a row. *)
Fixpoint account (k : nat) : M unit :=
  match k with
  | O => ret tt
  | S k' => inc_num_steps ;;; account k'
  end.

End Steps.

(** Loose bound variables. *)
Section Closedness.
Context `{K : Kernel}.

(** [closed_upto n e]: the loose bound variables of [e] are below [n];
    the kernel keeps this as the free-variable range of an expression. *)
Variable closed_upto : nat -> expr -> Prop.

(** What the engine relies on when it instantiates binder bodies before
    it inspects them. *)
Record binder_discipline : Prop := {
  var_is_loose : forall e, kind e = Var -> ~ closed_upto 0 e;
  macro_arg_closed : forall e i,
    kind e = Macro -> closed_upto 0 e -> (i < macro_num_args e)%nat ->
    closed_upto 0 (macro_arg e i);
  app_args_closed : forall e,
    kind e = App -> closed_upto 0 e ->
    Forall (closed_upto 0) (snd (get_app_args e));
  binding_closed : forall n e,
    kind e = Lambda \/ kind e = Pi -> closed_upto n e ->
    closed_upto n (binding_domain e) /\ closed_upto (S n) (binding_body e);
  let_closed : forall n e,
    kind e = Let -> closed_upto n e ->
    closed_upto n (let_type e) /\ closed_upto n (let_value e) /\
    closed_upto (S n) (let_body e);
  instantiate_rev_closed : forall e locals,
    closed_upto (length locals) e -> Forall (closed_upto 0) locals ->
    closed_upto 0 (instantiate_rev e locals);
  push_local_closed : forall c x ty bi,
    closed_upto 0 ty -> closed_upto 0 (fst (push_local c x ty bi));
  push_let_closed : forall c x t v,
    closed_upto 0 t -> closed_upto 0 v ->
    closed_upto 0 (fst (push_let c x t v))
}.

(** Every cached result is closed. *)
Definition cache_closed (s : dsimplify_core_fn) : Prop :=
  forall k v, In (k, v) (m_cache s) -> closed_upto 0 v.

(** From a state with a closed cache, the computation does not reach
    [lean_unreachable()], and when it returns, the cache is closed again
    and the result satisfies [Q]. *)
Definition safe {A} (Q : A -> Prop) (m : M A) : Prop :=
  forall s, cache_closed s ->
    match m s with
    | Ret a s' => cache_closed s' /\ Q a
    | Throw x => x <> unreachable_reached
    | Timeout => True
    end.

(** A hook that answers closed replacements only. *)
Definition hook_closed (hk : expr -> M (option (expr * bool))) : Prop :=
  forall e, safe (fun p => forall r b, p = Some (r, b) -> closed_upto 0 r) (hk e).

(** The arguments of an application from position [i] on are closed. *)
Definition rest_closed (i : nat) (args : list expr) : Prop :=
  forall j a, (i <= j)%nat -> nth_error args j = Some a -> closed_upto 0 a.

End Closedness.

(** ** Concrete runs on the reference kernel *)

Module Examples.
Import Tree.
Open Scope string_scope.

Definition a : tm := tConst "a".
Definition b : tm := tConst "b".
Definition c : tm := tConst "c".
Definition d : tm := tConst "d".
Definition f : tm := tConst "f".

(** A hook given by a finite table; nodes outside the table are left alone. *)
Fixpoint table_hook (st : stubs) (t : list (tm * (tm * bool))) (e : tm)
  : @M (kernel st) (option (tm * bool)) :=
  match t with
  | [] => ret None
  | (k, r) :: t' => if tm_eqb k e then ret (Some r) else table_hook st t' e
  end.

Definition table_hooks (st : stubs) (tpre tpost : list (tm * (tm * bool)))
  : @hooks (kernel st) :=
  @mk_hooks (kernel st) (table_hook st tpre) (table_hook st tpost).

Definition fresh (st : stubs) (max_steps : Z) (visit_instances : bool)
  : @dsimplify_core_fn (kernel st) :=
  @new_dsimplify_core_fn (kernel st) empty_tctx max_steps visit_instances.

(** Restart: every parameter is instance-implicit, and the canonicalizer
    reports an update on its first call only.  The post-hook rewrites
    [f a] to [b] and [b] to [c]. *)
Definition st_restart : stubs :=
  mk_stubs (fun _ n => repeat true n) (fun k e => (e, Nat.eqb k 0))
           (fun _ => None).
Definition h_restart : @hooks (kernel st_restart) :=
  table_hooks st_restart [] [(tApp f a, (b, false)); (b, (c, false))].

(** Pre-hook that asks to continue with the replacement [m(b)] of [a]. *)
Definition h_pre : @hooks (kernel quiet) :=
  table_hooks quiet [(a, (tMacro "m" [b], true))] [].

(** Post-hook that rewrites [a] to [m(b)] and asks to continue. *)
Definition h_post : @hooks (kernel quiet) :=
  table_hooks quiet []
    [(a, (tMacro "m" [b], true)); (b, (c, false));
     (tMacro "m" [c], (d, false))].

(** Post-hook that simplifies the domain [a] of a binder to [b]. *)
Definition h_dom : @hooks (kernel quiet) :=
  table_hooks quiet [] [(a, (b, false))].
Definition pi_a : tm := tPi "x" a (tVar 0).

(** Second argument of three instance-implicit; the canonicalizer maps
    everything to [d]. *)
Definition st_inst : stubs :=
  mk_stubs (fun _ _ => [false; true; false]) (fun _ _ => (d, false))
           (fun _ => None).
Definition h_inst : @hooks (kernel st_inst) :=
  table_hooks st_inst [] [(b, (c, false))].
Definition app3 : tm := tApp (tApp (tApp f a) b) b.

(** Rules [f a -> g a], [g a -> h a]. *)
Definition rules : list rule :=
  [(tApp f a, tApp (tConst "g") a, true);
   (tApp (tConst "g") a, tApp (tConst "h") a, true)].

End Examples.

(** Closedness on the reference kernel. *)
Definition tree_closed_upto (n : nat) (e : Tree.tm) : Prop :=
  Tree.closed_at n e = true.

(** ** Notions used for the properties of the whole engine *)

Section Invariants.
Context `{K : Kernel}.

(** From a state in [P], when [m] returns [a] in [s'], [Q a s'] holds. *)
Definition hoare {A} (P : dsimplify_core_fn -> Prop) (m : M A)
    (Q : A -> dsimplify_core_fn -> Prop) : Prop :=
  forall s, P s ->
    match m s with
    | Ret a s' => Q a s'
    | _ => True
    end.

(** A family of state properties, indexed by the number of locals that
    the binder loops under way have pushed, that every state change the
    engine makes by itself respects: the step counter, an insertion in the
    cache, the operations on the type context, and the canonicalizer
    (unless the property excludes the mode in which it is called). *)
Record frame_invariant (J : nat -> dsimplify_core_fn -> Prop) : Prop := {
  inv_num_steps : forall k s n, J k s -> J k (set_num_steps n s);
  inv_insert : forall k s e v,
    J k s -> J k (set_cache (cache_insert (m_cache s) e v) s);
  inv_push_local : forall k s x ty bi,
    J k s -> J (S k) (set_ctx (snd (push_local (m_ctx s) x ty bi)) s);
  inv_push_let : forall k s x t v,
    J k s -> J (S k) (set_ctx (snd (push_let (m_ctx s) x t v)) s);
  inv_pop_local : forall k s,
    J (S k) s -> J k (set_ctx (pop_local (m_ctx s)) s);
  inv_mk_pi : forall k s locals b,
    J k s -> J k (set_ctx (snd (mk_pi (m_ctx s) locals b)) s);
  inv_mk_lambda : forall k s locals b,
    J k s -> J k (set_ctx (snd (mk_lambda (m_ctx s) locals b)) s);
  inv_get_fun_info : forall k s f n,
    J k s -> J k (set_ctx (snd (get_fun_info (m_ctx s) f n)) s);
  inv_canonize :
    (forall k s, J k s -> m_visit_instances s = true) \/
    (forall k s a, J k s ->
       J k (set_need_restart
              (snd (fst (defeq_canonize (m_ctx s) a (m_need_restart s))))
              (set_ctx (snd (defeq_canonize (m_ctx s) a (m_need_restart s)))
                 s)))
}.

(** A hook that respects the family. *)
Definition hook_keeps (J : nat -> dsimplify_core_fn -> Prop)
    (hk : expr -> M (option (expr * bool))) : Prop :=
  forall k e, hoare (J k) (hk e) (fun _ s' => J k s').

(** The hooks account their steps: below the ceiling the pre-hook throws
    or returns without moving the counter back, and so does the post-hook,
    which moreover has accounted a step of its own whenever it asks to
    continue. *)
Definition paced (N : Z) (h : hooks) (n : nat) : Prop :=
  forall c e, N - c < Z.of_nat n ->
    advances N c c (pre h e) /\
    forall s, counted N c s ->
      match post h e s with
      | Ret (Some (_, true)) s' => counted N (c + 1) s'
      | Ret _ s' => counted N c s'
      | Throw _ => True
      | Timeout => False
      end.

(** A visitor applied to the elements of a list, first to last. *)
Fixpoint visit_each (v : expr -> M expr) (l : list expr) : M (list expr) :=
  match l with
  | [] => ret []
  | a :: rest =>
      x <- v a ;;
      xs <- visit_each v rest ;;
      ret (x :: xs)
  end.

(** The lists have the same length and agree, position by position, up
    to [operator==]. *)
Fixpoint all_eq (l1 l2 : list expr) : bool :=
  match l1, l2 with
  | [], [] => true
  | x :: r1, y :: r2 => expr_eq x y && all_eq r1 r2
  | _, _ => false
  end.

(** Every entry of [c0] is still what the cache answers. *)
Definition cache_extends (c0 : expr_struct_map) (s : dsimplify_core_fn)
  : Prop :=
  forall key v, cache_find c0 key = Some v ->
                cache_find (m_cache s) key = Some v.

(** [depth] counts the locals in scope in a type context: [push_local]
    and [push_let] add one, [pop_local] removes one, and the other
    operations the engine calls leave the count alone. *)
Record scoped_context (depth : type_context -> nat) : Prop := {
  depth_push_local : forall c x ty bi,
    depth (snd (push_local c x ty bi)) = S (depth c);
  depth_push_let : forall c x t v,
    depth (snd (push_let c x t v)) = S (depth c);
  depth_pop_local : forall c, depth (pop_local c) = pred (depth c);
  depth_mk_pi : forall c locals b, depth (snd (mk_pi c locals b)) = depth c;
  depth_mk_lambda : forall c locals b,
    depth (snd (mk_lambda c locals b)) = depth c;
  depth_get_fun_info : forall c f n,
    depth (snd (get_fun_info c f n)) = depth c;
  depth_canonize : forall c a fl,
    depth (snd (defeq_canonize c a fl)) = depth c
}.

End Invariants.

(** The locals in scope of the reference kernel. *)
Definition tree_depth (c : Tree.tctx) : nat := length (Tree.scope c).

(** ** The run of the binder loops

    What the loops of [visit_binding] and [visit_let] do, round by
    round, read off the loop bodies. *)
Section ChainRuns.
Context `{K : Kernel}.
Variable v : expr -> M expr.

(** The node [j] bodies below [b]. *)
Fixpoint strip (body : expr -> expr) (j : nat) (b : expr) : expr :=
  match j with
  | O => b
  | S j' => strip body j' (body b)
  end.

(** One round of the loop of [visit_binding] at binder [b] in frame
    [locals] from state [s]: the instantiated domain is visited, the
    local [l] is pushed with the binder's name and info and the visited
    domain, [changed] tells whether the visit returned another object,
    and [s'] is the state the next round starts from. *)
Definition binding_round (b : expr) (locals : list expr)
    (s : dsimplify_core_fn) (l : expr) (changed : bool)
    (s' : dsimplify_core_fn) : Prop :=
  let d := instantiate_rev (binding_domain b) locals in
  exists new_d s1 c,
    v d s = Ret new_d s1 /\
    push_local (m_ctx s1) (binding_name b) new_d (binding_info b) = (l, c) /\
    changed = negb (is_eqp d new_d) /\
    s' = set_ctx c s1.

(** One round of the loop of [visit_let]: type and value are
    instantiated and visited, in this order, and the local is pushed with
    the instantiated type and value. *)
Definition let_round (b : expr) (locals : list expr)
    (s : dsimplify_core_fn) (l : expr) (changed : bool)
    (s' : dsimplify_core_fn) : Prop :=
  let t := instantiate_rev (let_type b) locals in
  let u := instantiate_rev (let_value b) locals in
  exists new_t s1 new_v s2 c,
    v t s = Ret new_t s1 /\
    v u s1 = Ret new_v s2 /\
    push_let (m_ctx s2) (let_name b) t u = (l, c) /\
    changed = negb (is_eqp t new_t) || negb (is_eqp u new_v) /\
    s' = set_ctx c s2.

(** A run of a binder loop from node [b], frame [locals], flag
    [modified] and state [s] to [b'], [locals'], [modified'] and [s']:
    [is_binder] tells the nodes the loop consumes, [body] is the body
    accessor and [round] the loop body.  The locals pushed are as many
    as the binders that lead the chain of [b]; the [j]-th of them is
    pushed by the round at the [j]-th binder, in the frame extended by
    the earlier ones and from the state the earlier rounds left; the
    node returned is the first one that is no such binder; and the flag
    is raised exactly when it was raised already or some round changed
    something. *)
Definition chain_run (is_binder : expr -> bool) (body : expr -> expr)
    (round : expr -> list expr -> dsimplify_core_fn -> expr -> bool ->
             dsimplify_core_fn -> Prop)
    (b : expr) (locals : list expr) (modified : bool) (s : dsimplify_core_fn)
    (b' : expr) (locals' : list expr) (modified' : bool)
    (s' : dsimplify_core_fn) : Prop :=
  exists (pushed : list expr) (sts : list dsimplify_core_fn),
    let round_at j l changed :=
      exists sj sj',
        nth_error (s :: sts) j = Some sj /\
        nth_error (s :: sts) (S j) = Some sj' /\
        round (strip body j b) (locals ++ firstn j pushed) sj l changed sj' in
    length sts = length pushed /\
    locals' = locals ++ pushed /\
    b' = strip body (length pushed) b /\
    nth_error (s :: sts) (length pushed) = Some s' /\
    is_binder b' = false /\
    (forall j, (j < length pushed)%nat -> is_binder (strip body j b) = true) /\
    (forall j l, nth_error pushed j = Some l ->
                 exists changed, round_at j l changed) /\
    (modified' = true <->
     modified = true \/
     exists j l, nth_error pushed j = Some l /\ round_at j l true).

End ChainRuns.

(** ** The account of steps, seen from the operation *)
Section StepAccount.
Context `{K : Kernel}.

(** The object [s] with the ceiling [N] in place of its own. *)
Definition with_ceiling (N : Z) (s : dsimplify_core_fn) : dsimplify_core_fn :=
  mk_core (m_ctx s) (m_cache s) (m_num_steps s) (m_need_restart s) N
          (m_visit_instances s).

(** Whenever [m] returns, the step counter it leaves is related by [R]
    to the step counter it started from. *)
Definition counter_moves {A} (R : Z -> Z -> Prop) (m : M A) : Prop :=
  forall s, match m s with
            | Ret _ s' => R (m_num_steps s) (m_num_steps s')
            | _ => True
            end.

(** What [visit] does once [check_system] has passed and [inc_num_steps]
    has accounted the step of the visit: the cache lookup, the pre-hook,
    the loop and the insertion in the cache.  [v] stands for the
    recursive calls of [visit] and [n] for the fuel of the loops. *)
Definition visit_after_step (h : hooks) (v : expr -> M expr) (n : nat)
    (e : expr) : M expr :=
  fun s =>
    match cache_find (m_cache s) e with
    | Some r => Ret r s
    | None =>
        (p1 <- pre h e ;;
         match p1 with
         | Some (r, false) => insert_cache e r ;;; ret r
         | _ =>
             curr_e <- visit_loop h v n n e ;;
             insert_cache e curr_e ;;;
             ret curr_e
         end) s
    end.

(** The run of [m] under the ceiling [N] is the run of [m] under a
    ceiling that is at least [N], cut at the first step beyond [N]: from
    an object whose counter is within its ceiling, [m] leaves the ceiling
    alone and does not move the counter back; and started within [N] it
    returns the same result in the same object, ceiling apart, if the
    counter it leaves is within [N], and throws the exception of
    [inc_num_steps] if not; if it ends otherwise, it ends in the same way
    under [N] unless the exception of [inc_num_steps] comes first. *)
Definition ceiling_exact {A} (N : Z) (m : M A) : Prop :=
  forall s, within_ceiling s -> N <= m_max_steps s ->
    match m s with
    | Ret a t =>
        m_max_steps t = m_max_steps s /\
        m_num_steps s <= m_num_steps t <= m_max_steps s /\
        (m_num_steps s <= N ->
         m (with_ceiling N s) =
         if m_num_steps t <=? N then Ret a (with_ceiling N t)
         else Throw (exception max_steps_msg))
    | Throw x =>
        m_num_steps s <= N ->
        m (with_ceiling N s) = Throw x \/
        m (with_ceiling N s) = Throw (exception max_steps_msg)
    | Timeout =>
        m_num_steps s <= N ->
        m (with_ceiling N s) = Timeout \/
        m (with_ceiling N s) = Throw (exception max_steps_msg)
    end.

(** A property of computations that holds of everything the engine is
    built from apart from [check_system] and [inc_num_steps]: returning,
    sequencing, the two ways to stop, the operations on the type context,
    the canonicalizer, the insertion in the cache, and the two places
    where the engine reads its own fields. *)
Record engine_closed (P : forall A : Type, M A -> Prop) : Prop := {
  closed_ret : forall A (a : A), P A (ret a);
  closed_bind : forall A B (m : M A) (k : A -> M B),
    P A m -> (forall a, P B (k a)) -> P B (bind m k);
  closed_throw : forall A x, P A (throw x);
  closed_timeout : forall A, P A timeout;
  closed_with_ctx : forall A (f : type_context -> A * type_context),
    P A (with_ctx f);
  closed_canonize : forall a, P expr (defeq_canonize_m a);
  closed_insert_cache : forall e v, P unit (insert_cache e v);
  closed_visit_instances : forall A (m1 m2 : M A),
    P A m1 -> P A m2 ->
    P A (fun s => if negb (m_visit_instances s) then m1 s else m2 s);
  closed_cache : forall A e (hit : expr -> M A) (miss : M A),
    (forall r, P A (hit r)) -> P A miss ->
    P A (fun s => match cache_find (m_cache s) e with
                  | Some r => hit r s
                  | None => miss s
                  end)
}.

End StepAccount.

Section RoundAccount.
Context `{K : Kernel} {L : SimpLemmas}.
Variable m_simp_lemmas : simp_lemmas_for.

(** What a round of the loop of [post] does once [check_system] has
    passed and [inc_num_steps] has accounted the step of the round: the
    lookup and the first definitional rule.  [k] stands for the rounds
    that follow. *)
Definition round_after_step (k : expr -> M expr) (curr_e : expr) : M expr :=
  match find m_simp_lemmas curr_e with
  | None => ret curr_e
  | Some simp_lemmas =>
      new_e <- rewrite_first_refl simp_lemmas curr_e ;;
      if expr_eq new_e curr_e then ret curr_e else k new_e
  end.

End RoundAccount.

(** * Properties *)

(** ** Fuel: more fuel never changes an outcome *)

Section Fuel.
Context `{K : Kernel}.

Lemma refines_refl {A} (m : M A) : refines m m.
Proof. intros s _; reflexivity. Qed.

Lemma refines_bind {A B} (m1 m2 : M A) (k1 k2 : A -> M B) :
  refines m1 m2 -> (forall a, refines (k1 a) (k2 a)) ->
  refines (bind m1 k1) (bind m2 k2).
Proof.
  intros Hm Hk s; unfold bind; intros H.
  destruct (m1 s) as [a s1| x |] eqn:E.
  - rewrite (Hm s) by (rewrite E; discriminate). rewrite E.
    now apply Hk.
  - rewrite (Hm s) by (rewrite E; discriminate). now rewrite E.
  - now elim H.
Qed.

Lemma refines_bind_l {A B} (m : M A) (k1 k2 : A -> M B) :
  (forall a, refines (k1 a) (k2 a)) -> refines (bind m k1) (bind m k2).
Proof. intros; apply refines_bind; auto using refines_refl. Qed.

Lemma refines_state {A} (f g : M A) :
  (forall s, refines (fun _ => f s) (fun _ => g s)) -> refines f g.
Proof. intros Hfg s; exact (Hfg s s). Qed.

Section Visitors.
Variable h : hooks.
Variables v1 v2 : expr -> M expr.
Hypothesis Hv : forall e, refines (v1 e) (v2 e).

Lemma visit_macro_args_refines e n : forall i acc,
  refines (visit_macro_args v1 e i n acc) (visit_macro_args v2 e i n acc).
Proof.
  induction n as [|n IH]; intros i acc; simpl.
  - apply refines_refl.
  - apply refines_bind; auto.
Qed.

Lemma visit_macro_refines e : refines (visit_macro v1 e) (visit_macro v2 e).
Proof.
  unfold visit_macro. apply refines_bind.
  - apply visit_macro_args_refines.
  - intros; apply refines_refl.
Qed.

Lemma visit_binding_loop_refines k : forall n m, (n <= m)%nat ->
  forall b locals modified,
  refines (visit_binding_loop v1 n k b locals modified)
          (visit_binding_loop v2 m k b locals modified).
Proof.
  induction n as [|n IH]; intros m Hle b locals modified.
  - destruct m; simpl; destruct (expr_kind_eqb (kind b) k);
      try apply refines_refl; intros s H; now elim H.
  - destruct m as [|m]; [lia|]. simpl.
    destruct (expr_kind_eqb (kind b) k); [|apply refines_refl].
    apply refines_bind; auto. intros new_d.
    apply refines_bind_l. intros l. apply IH. lia.
Qed.

Lemma visit_binding_refines n m e : (n <= m)%nat ->
  refines (visit_binding v1 n e) (visit_binding v2 m e).
Proof.
  intros Hle. unfold visit_binding.
  apply refines_bind.
  - now apply visit_binding_loop_refines.
  - intros [[b locals] modified]. apply refines_bind; auto.
    intros; apply refines_refl.
Qed.

Lemma visit_let_loop_refines : forall n m, (n <= m)%nat ->
  forall b locals modified,
  refines (visit_let_loop v1 n b locals modified)
          (visit_let_loop v2 m b locals modified).
Proof.
  induction n as [|n IH]; intros m Hle b locals modified.
  - destruct m; simpl; destruct (is_let b);
      try apply refines_refl; intros s H; now elim H.
  - destruct m as [|m]; [lia|]. simpl.
    destruct (is_let b); [|apply refines_refl].
    apply refines_bind; auto. intros new_t.
    apply refines_bind; auto. intros new_v.
    apply refines_bind_l. intros l. apply IH. lia.
Qed.

Lemma visit_let_refines n m e : (n <= m)%nat ->
  refines (visit_let v1 n e) (visit_let v2 m e).
Proof.
  intros Hle. unfold visit_let.
  apply refines_bind.
  - now apply visit_let_loop_refines.
  - intros [[b locals] modified]. apply refines_bind; auto.
    intros; apply refines_refl.
Qed.

Lemma visit_app_params_refines pinfos : forall i args modified,
  refines (visit_app_params v1 pinfos i args modified)
          (visit_app_params v2 pinfos i args modified).
Proof.
  induction pinfos as [|p rest IH]; intros i args modified; simpl.
  - apply refines_refl.
  - destruct (nth_error args i); [|apply refines_refl].
    apply refines_bind; auto.
    destruct (is_inst_implicit p); auto using refines_refl.
Qed.

Lemma visit_app_rest_refines n : forall i args modified,
  refines (visit_app_rest v1 n i args modified)
          (visit_app_rest v2 n i args modified).
Proof.
  induction n as [|n IH]; intros i args modified; simpl.
  - apply refines_refl.
  - destruct (nth_error args i); [|apply refines_refl].
    apply refines_bind; auto.
Qed.

Lemma visit_app_refines e : refines (visit_app v1 e) (visit_app v2 e).
Proof.
  unfold visit_app. destruct (get_app_args e) as [f args].
  apply refines_bind.
  - apply refines_state. intros s.
    destruct (negb (m_visit_instances s)); [|apply refines_refl].
    intros s' H. revert H.
    change ((info <- with_ctx (fun c => get_fun_info c f (length args));;
             visit_app_params v1 info 0 args false) s <> Timeout ->
            (info <- with_ctx (fun c => get_fun_info c f (length args));;
             visit_app_params v2 info 0 args false) s =
            (info <- with_ctx (fun c => get_fun_info c f (length args));;
             visit_app_params v1 info 0 args false) s).
    apply refines_bind_l. intros; apply visit_app_params_refines.
  - intros [[i args'] modified]. apply refines_bind.
    + apply visit_app_rest_refines.
    + intros [a m]. apply refines_refl.
Qed.

Lemma visit_children_refines n m e : (n <= m)%nat ->
  refines (visit_children v1 n e) (visit_children v2 m e).
Proof.
  intros Hle. unfold visit_children.
  destruct (kind e); auto using refines_refl, visit_macro_refines,
    visit_binding_refines, visit_let_refines, visit_app_refines.
Qed.

Lemma visit_loop_refines f f' : (f <= f')%nat -> forall n m, (n <= m)%nat ->
  forall curr_e,
  refines (visit_loop h v1 f n curr_e) (visit_loop h v2 f' m curr_e).
Proof.
  intros Hf. induction n as [|n IH]; intros m Hle curr_e.
  - intros s H; now elim H.
  - destruct m as [|m]; [lia|]. simpl.
    apply refines_bind; [now apply visit_children_refines|].
    intros new_e. apply refines_bind_l. intros [[r [|]]|];
      try apply refines_refl. apply IH. lia.
Qed.

End Visitors.

Variable h : hooks.

Lemma visit_mono : forall n m, (n <= m)%nat ->
  forall e, refines (visit h n e) (visit h m e).
Proof.
  induction n as [|n IH]; intros m Hle e.
  - intros s H; now elim H.
  - destruct m as [|m]; [lia|]. simpl.
    apply refines_bind_l; intros _. apply refines_bind_l; intros _.
    apply refines_state; intros s.
    destruct (cache_find (m_cache s) e); [apply refines_refl|].
    intros s' H. revert H. apply refines_bind_l.
    intros [[r [|]]|]; try apply refines_refl.
    + apply refines_bind; [|intros; apply refines_refl].
      apply visit_loop_refines; try lia. intros; apply IH; lia.
    + apply refines_bind; [|intros; apply refines_refl].
      apply visit_loop_refines; try lia. intros; apply IH; lia.
Qed.

Lemma operator_call_mono : forall n m, (n <= m)%nat ->
  forall e, refines (operator_call h n e) (operator_call h m e).
Proof.
  induction n as [|n IH]; intros m Hle e.
  - intros s H; now elim H.
  - destruct m as [|m]; [lia|]. simpl.
    intros s. generalize (set_need_restart false s). clear s.
    apply refines_bind.
    + apply visit_mono; lia.
    + intros e'. apply refines_state. intros s.
      destruct (negb (m_need_restart s)); [apply refines_refl|].
      intros _. apply IH. lia.
Qed.

End Fuel.

(** ** The foreign binding [pexpr_subst] *)

(** C10: [pexpr_subst e1 e2] is the body of [e1] instantiated with [e2]
    when [e1] is a lambda; for every other [e1], a Pi included, it is
    [e1] itself, whatever the second argument is. *)
Theorem pexpr_subst_cases `{K : Kernel} {V : VM} (_e1 _e2 : vm_obj) :
  (kind (to_expr _e1) = Lambda /\
   pexpr_subst _e1 _e2 =
     to_obj (instantiate (binding_body (to_expr _e1)) (to_expr _e2)))
  \/
  (kind (to_expr _e1) <> Lambda /\
   forall o : vm_obj, pexpr_subst _e1 o = to_obj (to_expr _e1)).
Proof.
  unfold pexpr_subst, is_lambda.
  destruct (kind (to_expr _e1)) eqn:E; simpl;
    solve [ left; split; reflexivity
          | right; split; [discriminate | reflexivity] ].
Qed.

Example pexpr_subst_lambda :
  @pexpr_subst (Tree.kernel Tree.quiet) (Tree.vm Tree.quiet)
    (Tree.obj_expr (Tree.tLam "x" Examples.a
                      (Tree.tApp Examples.f (Tree.tVar 0))))
    (Tree.obj_expr Examples.b)
  = Tree.obj_expr (Tree.tApp Examples.f Examples.b).
Proof. reflexivity. Qed.

Example pexpr_subst_pi :
  @pexpr_subst (Tree.kernel Tree.quiet) (Tree.vm Tree.quiet)
    (Tree.obj_expr Examples.pi_a) (Tree.obj_expr Examples.b)
  = Tree.obj_expr Examples.pi_a.
Proof. reflexivity. Qed.

(** ** The restart protocol of [operator()] *)

Section Restart.
Context `{K : Kernel}.
Variable h : hooks.

Lemma operator_call_sound : forall fuel e s r s',
  operator_call h fuel e s = Ret r s' -> passes h e s r s'.
Proof.
  induction fuel as [|fuel IH]; intros e s r s' H; [discriminate|].
  simpl in H. unfold bind in H.
  destruct (visit h fuel e (set_need_restart false s)) as [e' s1| |] eqn:E;
    try discriminate.
  destruct (m_need_restart s1) eqn:F; simpl in H.
  - eapply passes_restart; eauto.
  - inversion H; subst. apply passes_done; eauto.
Qed.

Lemma operator_call_complete : forall e s r s',
  passes h e s r s' ->
  exists fuel, forall fuel', (fuel <= fuel')%nat ->
    operator_call h fuel' e s = Ret r s'.
Proof.
  induction 1 as [e s r s' [n Hn] F | e s e' s1 r s' [n Hn] F _ [m IH]].
  - exists (S n). intros [|fuel'] Hle; [lia|]. simpl. unfold bind.
    assert (Hle' : (n <= fuel')%nat) by lia.
    rewrite (visit_mono h n fuel' Hle' e (set_need_restart false s))
      by (rewrite Hn; discriminate).
    rewrite Hn, F. reflexivity.
  - exists (S (max n m)). intros [|fuel'] Hle; [lia|]. simpl. unfold bind.
    assert (Hle' : (n <= fuel')%nat) by lia.
    rewrite (visit_mono h n fuel' Hle' e (set_need_restart false s))
      by (rewrite Hn; discriminate).
    rewrite Hn, F. simpl. apply IH. lia.
Qed.

(** C1, as the code has it: [operator()] returns [r] exactly when a
    sequence of passes leads to [r], where a pass whose restart flag is set
    is followed by a pass, on an emptied cache, over the expression that
    pass returned; the pass that ends with the flag unset gives the result. *)
Theorem operator_call_restart_protocol (e r : expr) (s s' : dsimplify_core_fn) :
  (exists fuel, operator_call h fuel e s = Ret r s') <-> passes h e s r s'.
Proof.
  split.
  - intros [fuel H]. eapply operator_call_sound; eauto.
  - intros H. destruct (operator_call_complete _ _ _ _ H) as [fuel Hf].
    exists fuel. apply Hf. lia.
Qed.

End Restart.

(** C1, as stated, fails: with a canonicalizer that reports an update
    once and a post-hook rewriting [f a] to [b] and [b] to [c], the code
    answers [c] (second pass over [b]), where a second pass over the
    original root [f a] answers [b]. *)
Lemma operator_call_reruns_on_result :
  returned (@operator_call (Tree.kernel Examples.st_restart) Examples.h_restart
              5 (Tree.tApp Examples.f Examples.a)
              (Examples.fresh Examples.st_restart 100 false))
    = Some Examples.c /\
  returned (@operator_call_spec (Tree.kernel Examples.st_restart)
              Examples.h_restart
              5 (Tree.tApp Examples.f Examples.a)
              (Examples.fresh Examples.st_restart 100 false))
    = Some Examples.b.
Proof. split; reflexivity. Qed.

Lemma operator_call_restart_protocol_witness :
  exists s',
    passes Examples.h_restart (Tree.tApp Examples.f Examples.a)
      (Examples.fresh Examples.st_restart 100 false) Examples.c s'.
Proof.
  eexists.
  apply (proj1 (@operator_call_restart_protocol
                  (Tree.kernel Examples.st_restart) Examples.h_restart
                  (Tree.tApp Examples.f Examples.a) Examples.c
                  (Examples.fresh Examples.st_restart 100 false) _)).
  exists 5%nat. vm_compute. reflexivity.
Defined.

(** ** The hook protocol of [visit] *)

(** C2: the code at the failing input.  The pre-hook answers
    [(m(b), true)] on [a]; the visit goes on with [a] itself: [b] is never
    visited (one step is accounted, the cache holds [a] only) and the
    result is [a]. *)
Theorem visit_pre_continue_drops_replacement :
  @visit (Tree.kernel Tree.quiet) Examples.h_pre 3 Examples.a
         (Examples.fresh Tree.quiet 100 false)
  = Ret Examples.a
      (@mk_core (Tree.kernel Tree.quiet) Tree.empty_tctx
         [(Examples.a, Examples.a)] 1 false 100 false).
Proof. reflexivity. Qed.

Section HookProtocol.
Context `{K : Kernel}.
Variable h : hooks.

(** Whatever the hooks are, a pre-hook answer with continue = true is
    treated as no answer at all. *)
Lemma visit_pre_continue_ignored n e s s1 s2 r :
  check_system_m s = Ret tt s ->
  inc_num_steps s = Ret tt s1 ->
  cache_find (m_cache s1) e = None ->
  pre h e s1 = Ret (Some (r, true)) s2 ->
  visit h (S n) e s =
    (curr_e <- visit_loop h (visit h n) n n e ;;
     insert_cache e curr_e ;;; ret curr_e) s2.
Proof.
  intros H1 H2 H3 H4. simpl. unfold bind at 1. rewrite H1.
  unfold bind at 1. rewrite H2, H3. unfold bind at 1. rewrite H4.
  reflexivity.
Qed.

(** The other half of C2 holds: continue = false caches the replacement
    for [e] and returns it, and nothing is visited. *)
Lemma visit_pre_stop n e s s1 s2 r :
  check_system_m s = Ret tt s ->
  inc_num_steps s = Ret tt s1 ->
  cache_find (m_cache s1) e = None ->
  pre h e s1 = Ret (Some (r, false)) s2 ->
  visit h (S n) e s = Ret r (set_cache (cache_insert (m_cache s2) e r) s2).
Proof.
  intros H1 H2 H3 H4. simpl. unfold bind at 1. rewrite H1.
  unfold bind at 1. rewrite H2, H3. unfold bind at 1. rewrite H4.
  reflexivity.
Qed.

(** C3, as the code has it: when the post-hook answers
    [(r, true)], the loop of [visit] goes round again from the dispatch on
    [r], so the children of [r] are visited and the post-hook is next
    called on the node rebuilt from [r]; the loop is left when the
    post-hook answers nothing or answers continue = false. *)
Theorem visit_loop_post_protocol (v : expr -> M expr) (fuel n : nat)
    (curr_e new_e : expr) (s s1 s2 : dsimplify_core_fn)
    (p2 : option (expr * bool)) :
  visit_children v fuel curr_e s = Ret new_e s1 ->
  post h new_e s1 = Ret p2 s2 ->
  match p2 with
  | Some (r, true) =>
      visit_loop h v fuel (S n) curr_e s = visit_loop h v fuel n r s2 /\
      forall new_r s3 r' s4,
        visit_children v fuel r s2 = Ret new_r s3 ->
        post h new_r s3 = Ret (Some (r', false)) s4 ->
        visit_loop h v fuel (S (S n)) curr_e s = Ret r' s4
  | Some (r, false) => visit_loop h v fuel (S n) curr_e s = Ret r s2
  | None => exists r, visit_loop h v fuel (S n) curr_e s = Ret r s2
  end.
Proof.
  intros H1 H2.
  assert (E : forall k, visit_loop h v fuel (S k) curr_e s =
            match p2 with
            | Some (r, true) => visit_loop h v fuel k r s2
            | Some (r, false) => Ret r s2
            | None => Ret curr_e s2
            end).
  { intros k. simpl. unfold bind. rewrite H1, H2.
    destruct p2 as [[r [|]]|]; reflexivity. }
  destruct p2 as [[r [|]]|].
  - split; [apply E|]. intros new_r s3 r' s4 H3 H4.
    rewrite E. simpl. unfold bind. rewrite H3, H4. reflexivity.
  - apply E.
  - eexists. apply E.
Qed.

End HookProtocol.

(** C3, as stated, fails: after the post-hook rewrote [a] to [m(b)] with
    continue = true, the code visits [b] (rewritten to [c]) and calls the
    post-hook on the rebuilt [m(c)], which answers [d]; calling the
    post-hook on [m(b)] directly answers nothing and [m(b)] stays. *)
Lemma post_continue_redescends :
  returned (@visit_loop (Tree.kernel Tree.quiet) Examples.h_post
              (@visit (Tree.kernel Tree.quiet) Examples.h_post 3) 3 3
              Examples.a (Examples.fresh Tree.quiet 100 false))
    = Some Examples.d /\
  returned (@visit_loop_spec (Tree.kernel Tree.quiet) Examples.h_post
              (@visit (Tree.kernel Tree.quiet) Examples.h_post 3) 3 3
              Examples.a (Examples.fresh Tree.quiet 100 false))
    = Some (Tree.tMacro "m" [Examples.b]).
Proof. split; reflexivity. Qed.

Lemma visit_loop_post_protocol_witness :
  @visit_loop (Tree.kernel Tree.quiet) Examples.h_post
     (@visit (Tree.kernel Tree.quiet) Examples.h_post 3) 3 3
     Examples.a (Examples.fresh Tree.quiet 100 false)
  = @visit_loop (Tree.kernel Tree.quiet) Examples.h_post
     (@visit (Tree.kernel Tree.quiet) Examples.h_post 3) 3 2
     (Tree.tMacro "m" [Examples.b]) (Examples.fresh Tree.quiet 100 false).
Proof.
  exact (proj1 (@visit_loop_post_protocol (Tree.kernel Tree.quiet)
                  Examples.h_post
                  (@visit (Tree.kernel Tree.quiet) Examples.h_post 3) 3 2
                  Examples.a Examples.a
                  (Examples.fresh Tree.quiet 100 false)
                  (Examples.fresh Tree.quiet 100 false)
                  (Examples.fresh Tree.quiet 100 false)
                  (Some (Tree.tMacro "m" [Examples.b], true))
                  eq_refl eq_refl)).
Defined.

(** ** Binders *)

Section Binders.
Context `{K : Kernel}.

Lemma pop_locals_returns n : forall s, exists s', pop_locals n s = Ret tt s'.
Proof.
  induction n as [|n IH]; intros s; simpl.
  - eexists; reflexivity.
  - unfold bind, with_ctx. apply IH.
Qed.

(** C4, as the code has it: at each step of a Lambda or Pi chain the
    local pushed on the frame carries the visited domain [new_d], and the
    flag records whether [new_d] is another node than the instantiated
    domain; when the chain is over, the binder is rebuilt from the frame
    if the flag is set or the visited body is another node than the
    instantiated body, and the original node is returned otherwise. *)
Theorem visit_binding_frame_and_rebuild (v : expr -> M expr) (fuel : nat) :
  (forall n k b locals modified s new_d s1 l c,
     expr_kind_eqb (kind b) k = true ->
     v (instantiate_rev (binding_domain b) locals) s = Ret new_d s1 ->
     push_local (m_ctx s1) (binding_name b) new_d (binding_info b) = (l, c) ->
     visit_binding_loop v (S n) k b locals modified s =
     visit_binding_loop v n k (binding_body b) (locals ++ [l])
       (if negb (is_eqp (instantiate_rev (binding_domain b) locals) new_d)
        then true else modified)
       (set_ctx c s1))
  /\
  (forall e s b locals modified s1 new_b s2,
     visit_binding_loop v fuel (kind e) e [] false s
       = Ret (b, locals, modified) s1 ->
     v (instantiate_rev b locals) s1 = Ret new_b s2 ->
     exists s3,
       visit_binding v fuel e s =
       Ret (if modified || negb (is_eqp (instantiate_rev b locals) new_b)
            then if expr_kind_eqb (kind e) Pi
                 then fst (mk_pi (m_ctx s2) locals new_b)
                 else fst (mk_lambda (m_ctx s2) locals new_b)
            else e) s3).
Proof.
  split.
  - intros n k b locals modified s new_d s1 l c Hk Hv Hp.
    simpl. rewrite Hk. unfold bind at 1. rewrite Hv.
    unfold bind at 1, with_ctx at 1. rewrite Hp. reflexivity.
  - intros e s b locals modified s1 new_b s2 Hl Hv.
    unfold visit_binding. unfold bind at 1. rewrite Hl.
    unfold bind at 1. rewrite Hv.
    assert (Hm : (if negb (is_eqp (instantiate_rev b locals) new_b)
                  then true else modified)
                 = modified || negb (is_eqp (instantiate_rev b locals) new_b)).
    { destruct modified, (is_eqp (instantiate_rev b locals) new_b); reflexivity. }
    rewrite Hm.
    destruct (modified || negb (is_eqp (instantiate_rev b locals) new_b)).
    + destruct (expr_kind_eqb (kind e) Pi).
      * unfold bind at 1, with_ctx.
        destruct (mk_pi (m_ctx s2) locals new_b) as [r c]. simpl.
        unfold bind.
        destruct (pop_locals_returns (length locals) (set_ctx c s2)) as [s3 E].
        rewrite E. eexists; reflexivity.
      * unfold bind at 1, with_ctx.
        destruct (mk_lambda (m_ctx s2) locals new_b) as [r c]. simpl.
        unfold bind.
        destruct (pop_locals_returns (length locals) (set_ctx c s2)) as [s3 E].
        rewrite E. eexists; reflexivity.
    + unfold bind, ret.
      destruct (pop_locals_returns (length locals) s2) as [s3 E].
      rewrite E. eexists; reflexivity.
Qed.

End Binders.

(** C4, as stated, fails: on [Pi x : a, #0] with a post-hook that
    simplifies [a] to [b], the local the code pushes has type [b]; the
    local the claim describes has type [a]. *)
Lemma binding_local_carries_visited_domain :
  returned (@visit_binding_loop (Tree.kernel Tree.quiet)
              (@visit (Tree.kernel Tree.quiet) Examples.h_dom 3) 3 Pi
              Examples.pi_a [] false (Examples.fresh Tree.quiet 100 false))
    = Some (Tree.tVar 0, [Tree.tLocal 0 "x" Examples.b], true) /\
  returned (@visit_binding_loop_spec (Tree.kernel Tree.quiet)
              (@visit (Tree.kernel Tree.quiet) Examples.h_dom 3) 3 Pi
              Examples.pi_a [] false (Examples.fresh Tree.quiet 100 false))
    = Some (Tree.tVar 0, [Tree.tLocal 0 "x" Examples.a], true).
Proof. split; reflexivity. Qed.

Lemma visit_binding_frame_and_rebuild_witness :
  returned (@visit_binding_loop (Tree.kernel Tree.quiet)
              (@visit (Tree.kernel Tree.quiet) Examples.h_dom 3) 1 Pi
              Examples.pi_a [] false (Examples.fresh Tree.quiet 100 false))
    = Some (Tree.tVar 0, [Tree.tLocal 0 "x" Examples.b], true) /\
  exists s3,
    @visit_binding (Tree.kernel Tree.quiet)
      (@visit (Tree.kernel Tree.quiet) Examples.h_dom 3) 3 Examples.pi_a
      (Examples.fresh Tree.quiet 100 false)
    = Ret (Tree.tPi "x" Examples.b (Tree.tVar 0)) s3.
Proof.
  split.
  - rewrite (proj1 (@visit_binding_frame_and_rebuild (Tree.kernel Tree.quiet)
                      (@visit (Tree.kernel Tree.quiet) Examples.h_dom 3) 3)
               0%nat Pi Examples.pi_a [] false
               (Examples.fresh Tree.quiet 100 false) Examples.b _ _ _
               eq_refl eq_refl eq_refl).
    reflexivity.
  - exact (proj2 (@visit_binding_frame_and_rebuild (Tree.kernel Tree.quiet)
                    (@visit (Tree.kernel Tree.quiet) Examples.h_dom 3) 3)
             Examples.pi_a (Examples.fresh Tree.quiet 100 false)
             _ _ _ _ _ _ eq_refl eq_refl).
Defined.

(** ** Applications *)

Section Applications.
Context `{K : Kernel}.
Variable v : expr -> M expr.

Lemma nth_error_middle (done todo : list expr) (a : expr) :
  nth_error (done ++ a :: todo) (length done) = Some a.
Proof. induction done; simpl; auto. Qed.

Lemma set_nth_middle (done todo : list expr) (a x : expr) :
  set_nth (length done) x (done ++ a :: todo) = (done ++ [x]) ++ todo.
Proof. induction done as [|y done IH]; simpl; [reflexivity|]. now rewrite IH. Qed.

Lemma flag_or (m c : bool) : (if c then true else m) = m || c.
Proof. destruct m, c; reflexivity. Qed.

Lemma bind_assoc_at {A B C} (m : M A) (f : A -> M B) (g : B -> M C) s :
  bind (bind m f) g s = bind m (fun a => bind (f a) g) s.
Proof. unfold bind. destruct (m s); reflexivity. Qed.

Lemma bind_cong_at {A B} (m : M A) (k1 k2 : A -> M B) s :
  (forall a s', k1 a s' = k2 a s') -> bind m k1 s = bind m k2 s.
Proof. intros E. unfold bind. destruct (m s); auto. Qed.

(** The second loop of [visit_app] visits the remaining arguments one by one. *)
Lemma visit_app_rest_positional : forall todo done m s,
  visit_app_rest v (length todo) (length done) (done ++ todo) m s =
  ('(new_todo, changed) <- visit_args_positional v [] todo ;;
   ret (done ++ new_todo, m || changed)) s.
Proof.
  induction todo as [|a todo IH]; intros done m s.
  - simpl. unfold bind, ret. now rewrite orb_false_r.
  - simpl. rewrite nth_error_middle. rewrite bind_assoc_at.
    apply bind_cong_at. intros new_a s1.
    rewrite set_nth_middle.
    replace (S (length done)) with (length (done ++ [new_a]))
      by (rewrite length_app; simpl; lia).
    rewrite IH, bind_assoc_at. apply bind_cong_at. intros [new_todo ch] s2.
    unfold bind, ret. rewrite <- app_assoc. simpl.
    rewrite flag_or, orb_assoc. reflexivity.
Qed.

(** Both loops together. *)
Lemma visit_app_loops_positional : forall pinfos todo done m s,
  (length pinfos <= length todo)%nat ->
  ('(i, args, m') <- visit_app_params v pinfos (length done) (done ++ todo) m ;;
   visit_app_rest v (length args - i) i args m') s =
  ('(new_todo, changed) <- visit_args_positional v pinfos todo ;;
   ret (done ++ new_todo, m || changed)) s.
Proof.
  induction pinfos as [|p pinfos IH]; intros todo done m s Hlen.
  - simpl visit_app_params. unfold bind at 1, ret at 1.
    replace (length (done ++ todo) - length done)%nat with (length todo)
      by (rewrite length_app; lia).
    rewrite visit_app_rest_positional.
    destruct todo; reflexivity.
  - destruct todo as [|a todo]; [simpl in Hlen; lia|].
    simpl visit_app_params. rewrite nth_error_middle.
    simpl visit_args_positional.
    rewrite !bind_assoc_at. apply bind_cong_at. intros new_a s1.
    rewrite set_nth_middle.
    replace (S (length done)) with (length (done ++ [new_a]))
      by (rewrite length_app; simpl; lia).
    rewrite IH by (simpl in Hlen; lia).
    rewrite bind_assoc_at. apply bind_cong_at. intros [new_todo ch] s2.
    unfold bind, ret. rewrite <- app_assoc. simpl.
    rewrite flag_or, orb_assoc. reflexivity.
Qed.

Lemma visit_args_in_position_positional : forall args pinfos s,
  visit_args_in_position v pinfos args s = visit_args_positional v pinfos args s.
Proof.
  induction args as [|a args IH]; intros pinfos s; simpl; [reflexivity|].
  apply bind_cong_at. intros new_a s1. unfold bind. rewrite IH. reflexivity.
Qed.

(** C7: with visit-instances disabled and a classifier that reports no
    more parameters than there are arguments (the [lean_assert] of the
    code), [visit_app] asks the classifier for the head and the number of
    arguments and then treats the arguments position by position, first to
    last: an argument reported instance-implicit is passed to the external
    canonicalizer [defeq_canonize] with the restart flag by reference, so
    the flag of the object becomes what the canonicalizer reports, and is
    not visited; every other argument is visited; the node is rebuilt by
    [mk_app] if some new argument differs from the one it replaces and the
    original node is returned otherwise. *)
Theorem visit_app_by_position (e : expr) (s : dsimplify_core_fn) :
  m_visit_instances s = false ->
  (length (fst (get_fun_info (m_ctx s) (fst (get_app_args e))
                  (length (snd (get_app_args e)))))
   <= length (snd (get_app_args e)))%nat ->
  visit_app v e s = visit_app_in_position v e s.
Proof.
  intros Hvi Hlen. unfold visit_app, visit_app_in_position.
  destruct (get_app_args e) as [f args]. simpl in Hlen.
  unfold bind at 1. rewrite Hvi. simpl negb. cbv iota.
  unfold bind at 1, with_ctx.
  destruct (get_fun_info (m_ctx s) f (length args)) as [info c]. simpl in Hlen.
  pose proof (visit_app_loops_positional info args [] false (set_ctx c s) Hlen)
    as E.
  simpl in E. unfold bind in E |- *.
  rewrite visit_args_in_position_positional.
  destruct (visit_app_params v info 0 args false (set_ctx c s))
    as [[[i args1] m1] s1| |].
  - rewrite E.
    destruct (visit_args_positional v info args (set_ctx c s))
      as [[new_todo ch] s2| |]; reflexivity.
  - destruct (visit_args_positional v info args (set_ctx c s))
      as [[new_todo ch] s2| |]; try discriminate; now inversion E.
  - destruct (visit_args_positional v info args (set_ctx c s))
      as [[new_todo ch] s2| |]; try discriminate; reflexivity.
Qed.

End Applications.

Lemma visit_app_by_position_witness :
  @visit_app (Tree.kernel Examples.st_inst)
     (@visit (Tree.kernel Examples.st_inst) Examples.h_inst 4) Examples.app3
     (Examples.fresh Examples.st_inst 100 false)
  = @visit_app_in_position (Tree.kernel Examples.st_inst)
     (@visit (Tree.kernel Examples.st_inst) Examples.h_inst 4) Examples.app3
     (Examples.fresh Examples.st_inst 100 false).
Proof.
  apply (@visit_app_by_position (Tree.kernel Examples.st_inst)).
  - reflexivity.
  - vm_compute. lia.
Defined.

(** In the run above the second argument is replaced by the canonical
    [d] and is not visited, while the third, the same [b], is visited and
    rewritten to [c] by the post-hook. *)
Example visit_app_instance_bypass :
  returned (@visit_app (Tree.kernel Examples.st_inst)
              (@visit (Tree.kernel Examples.st_inst) Examples.h_inst 4)
              Examples.app3 (Examples.fresh Examples.st_inst 100 false))
  = Some (Tree.tApp (Tree.tApp (Tree.tApp Examples.f Examples.a) Examples.d)
            Examples.c).
Proof. reflexivity. Qed.

(** ** The step counter *)

Section Counter.
Context `{K : Kernel}.

Lemma wrap_small z : 0 <= z <= UINT_MAX -> wrap z = z.
Proof. intros H. unfold wrap. apply Z.mod_small. unfold UINT_MAX in *. lia. Qed.

Lemma wrap_plus a b : wrap (wrap a + b) = wrap (a + b).
Proof. unfold wrap. apply Zplus_mod_idemp_l. Qed.

Lemma inc_num_steps_ok s :
  0 <= m_num_steps s < m_max_steps s -> m_max_steps s <= UINT_MAX ->
  inc_num_steps s = Ret tt (set_num_steps (m_num_steps s + 1) s).
Proof.
  intros H1 H2. unfold inc_num_steps.
  rewrite wrap_small by lia.
  destruct (Z.ltb_spec (m_max_steps s) (m_num_steps s + 1)); [lia|reflexivity].
Qed.

Lemma inc_num_steps_ceiling s :
  0 <= m_num_steps s -> m_num_steps s = m_max_steps s ->
  m_max_steps s < UINT_MAX ->
  inc_num_steps s = Throw (exception max_steps_msg).
Proof.
  intros H1 H2 H3. unfold inc_num_steps.
  rewrite wrap_small by lia.
  destruct (Z.ltb_spec (m_max_steps s) (m_num_steps s + 1)); [reflexivity|lia].
Qed.

(** What [inc_num_steps] leaves behind when it returns. *)
Lemma inc_num_steps_inv s s1 :
  inc_num_steps s = Ret tt s1 ->
  s1 = set_num_steps (wrap (m_num_steps s + 1)) s /\
  wrap (m_num_steps s + 1) <= m_max_steps s.
Proof.
  unfold inc_num_steps.
  destruct (Z.ltb_spec (m_max_steps s) (wrap (m_num_steps s + 1)));
    [discriminate|]. intros E; inversion E; split; [reflexivity|lia].
Qed.

Lemma account_below : forall k s,
  0 <= m_num_steps s -> m_num_steps s + Z.of_nat k <= m_max_steps s ->
  m_max_steps s <= UINT_MAX ->
  account k s = Ret tt (set_num_steps (m_num_steps s + Z.of_nat k) s).
Proof.
  induction k as [|k IH]; intros s H0 H1 H2.
  - simpl. unfold ret. f_equal. destruct s; unfold set_num_steps; simpl.
    f_equal. lia.
  - simpl account. unfold bind. rewrite inc_num_steps_ok by lia.
    rewrite IH by (simpl; lia). f_equal.
    unfold set_num_steps; simpl. f_equal. lia.
Qed.

Lemma account_above : forall k s,
  0 <= m_num_steps s <= m_max_steps s -> m_max_steps s < UINT_MAX ->
  m_max_steps s < m_num_steps s + Z.of_nat k ->
  account k s = Throw (exception max_steps_msg).
Proof.
  induction k as [|k IH]; intros s H0 H1 H2.
  - simpl in H2. lia.
  - simpl account. unfold bind.
    destruct (Z.eq_dec (m_num_steps s) (m_max_steps s)) as [E|E].
    + rewrite inc_num_steps_ceiling by lia. reflexivity.
    + rewrite inc_num_steps_ok by lia. apply IH; simpl; lia.
Qed.

(** With the largest [unsigned] as ceiling the counter wraps and no step
    is ever refused. *)
Lemma account_uint_max : forall k s,
  m_max_steps s = UINT_MAX ->
  exists s', account k s = Ret tt s' /\ m_max_steps s' = UINT_MAX.
Proof.
  induction k as [|k IH]; intros s Hmax.
  - simpl. eexists; split; [reflexivity|assumption].
  - simpl account. unfold bind, inc_num_steps.
    assert (Hw : 0 <= wrap (m_num_steps s + 1) < UINT_MAX + 1)
      by (unfold wrap; apply Z.mod_pos_bound; unfold UINT_MAX; lia).
    rewrite Hmax.
    destruct (Z.ltb_spec UINT_MAX (wrap (m_num_steps s + 1))); [lia|].
    apply IH. assumption.
Qed.

End Counter.

(** ** The fixed-point rule applicator *)

Section Applicator.
Context `{K : Kernel} {L : SimpLemmas}.
Variable lemmas : simp_lemmas_for.
Hypothesis expr_eq_refl : forall e : expr, expr_eq e e = true.

Lemma rewrite_first_refl_first ls e s :
  rewrite_first_refl ls e s =
  match first_refl ls with
  | Some sl => with_ctx (fun c => refl_lemma_rewrite c e sl) s
  | None => Ret e s
  end.
Proof.
  induction ls as [|sl ls IH]; simpl; [reflexivity|].
  destruct (is_refl sl); [reflexivity|exact IH].
Qed.

Lemma post_loop_sound : forall fuel curr s r s',
  post_loop lemmas fuel curr s = Ret r s' ->
  exists k c,
    rewrite_chain lemmas k curr (m_ctx s) r c /\
    rewrite_stuck lemmas r c (m_ctx s') /\
    (k < fuel)%nat /\
    m_num_steps s' = wrap (m_num_steps s + Z.of_nat (S k)) /\
    m_cache s' = m_cache s /\
    m_need_restart s' = m_need_restart s /\
    m_max_steps s' = m_max_steps s.
Proof.
  induction fuel as [|fuel IH]; intros curr s r s' H; [discriminate|].
  simpl in H. unfold bind at 1, check_system_m in H.
  destruct (check_system (m_ctx s)); [discriminate|].
  unfold bind at 1 in H.
  destruct (inc_num_steps s) as [[] s1| |] eqn:E1; try discriminate.
  apply inc_num_steps_inv in E1. destruct E1 as [E1 _]. subst s1.
  destruct (find lemmas curr) as [ls|] eqn:Ef.
  - unfold bind in H. rewrite rewrite_first_refl_first in H.
    destruct (first_refl ls) as [sl|] eqn:Er.
    + unfold with_ctx in H. simpl m_ctx in H.
      destruct (refl_lemma_rewrite (m_ctx s) curr sl) as [new_e c'] eqn:Ew.
      destruct (expr_eq new_e curr) eqn:Eq.
      * inversion H; subst. exists O, (m_ctx s). simpl.
        repeat split; try lia.
        -- constructor.
        -- eapply stuck_unchanged; eauto.
      * apply IH in H.
        destruct H as (k & c & Hc & Hs & Hk & Hn & Hca & Hr & Hm).
        exists (S k), c. simpl in *. repeat split; auto; try lia.
        -- eapply chain_cons; [|exact Hc]. econstructor; eauto.
        -- rewrite Hn, wrap_plus. f_equal. lia.
    + rewrite expr_eq_refl in H. inversion H; subst.
      exists O, (m_ctx s). simpl. repeat split; try lia.
      * constructor.
      * eapply stuck_no_refl; eauto.
  - inversion H; subst. exists O, (m_ctx s). simpl.
    repeat split; try lia.
    + constructor.
    + now apply stuck_no_candidate.
Qed.

Lemma post_loop_terminates : forall fuel curr s,
  within_ceiling s -> (room s < fuel)%nat ->
  post_loop lemmas fuel curr s <> Timeout.
Proof.
  induction fuel as [|fuel IH]; intros curr s Hw Hr; [lia|].
  simpl. unfold bind at 1, check_system_m.
  destruct (check_system (m_ctx s)); [discriminate|].
  unfold bind at 1.
  destruct (inc_num_steps s) as [[] s1| |] eqn:E1; try discriminate.
  - apply inc_num_steps_inv in E1. destruct E1 as [E1 Hle].
    destruct Hw as [Hn Hm]. unfold room in Hr.
    rewrite wrap_small in E1, Hle by lia.
    assert (Hw1 : within_ceiling s1)
      by (subst s1; unfold within_ceiling; simpl; lia).
    assert (Hr1 : (room s1 < fuel)%nat)
      by (subst s1; unfold room; simpl; lia).
    destruct (find lemmas curr) as [ls|]; [|discriminate].
    unfold bind. rewrite rewrite_first_refl_first.
    destruct (first_refl ls) as [sl|].
    + unfold with_ctx.
      destruct (refl_lemma_rewrite (m_ctx s1) curr sl) as [new_e c'].
      destruct (expr_eq new_e curr); [discriminate|].
      apply IH; assumption.
    + rewrite expr_eq_refl. discriminate.
  - unfold inc_num_steps in E1.
    destruct (m_max_steps s <? wrap (m_num_steps s + 1)); discriminate.
Qed.

(** C8: when [dsimplify_fn::post] returns on [e], it has followed a chain
    of [k] productive rewrites from [e] to a node [curr], each by the first
    [is_refl] lemma among the candidates looked up for the node at hand,
    up to a node where no such rewrite is productive; one step was
    accounted per lookup; the answer is nothing exactly when [curr == e],
    and [(curr, true)] otherwise.  Below the ceiling, with fuel beyond the
    steps left, it does return or throw. *)
Theorem dsimplify_fn_post_fixed_point (e : expr) (s : dsimplify_core_fn) :
  (forall fuel res s',
     dsimplify_fn_post lemmas fuel e s = Ret res s' ->
     exists k curr c,
       rewrite_chain lemmas k e (m_ctx s) curr c /\
       rewrite_stuck lemmas curr c (m_ctx s') /\
       m_num_steps s' = wrap (m_num_steps s + Z.of_nat (S k)) /\
       res = if expr_eq curr e then None else Some (curr, true)) /\
  (within_ceiling s ->
   forall fuel, (room s < fuel)%nat ->
     dsimplify_fn_post lemmas fuel e s <> Timeout).
Proof.
  split.
  - intros fuel res s' H. unfold dsimplify_fn_post, bind in H.
    destruct (post_loop lemmas fuel e s) as [curr s1| |] eqn:E;
      try discriminate.
    apply post_loop_sound in E.
    destruct E as (k & c & Hc & Hs & _ & Hn & _).
    exists k, curr, c.
    destruct (expr_eq curr e); inversion H; subst; auto.
  - intros Hw fuel Hr. unfold dsimplify_fn_post, bind.
    pose proof (post_loop_terminates fuel e s Hw Hr) as Ht.
    destruct (post_loop lemmas fuel e s) as [curr s1| |];
      [destruct (expr_eq curr e)| |]; try discriminate. contradiction.
Qed.

End Applicator.

(** Structural equality on the reference kernel is reflexive. *)
Lemma tm_eqb_refl : forall e : Tree.tm, Tree.tm_eqb e e = true.
Proof.
  fix IH 1. intros [i|u|c|m t|i x t|f a|x d b|x d b|x t v b|m l]; simpl;
    rewrite ?Nat.eqb_refl, ?String.eqb_refl, ?IH; try reflexivity.
  induction l as [|y l IHl]; simpl; [reflexivity|].
  rewrite IH. exact IHl.
Qed.

Lemma dsimplify_fn_post_fixed_point_witness :
  exists k curr c,
    @rewrite_chain (Tree.kernel Tree.quiet) (Tree.simp_lemmas Tree.quiet)
      Examples.rules k (Tree.tApp Examples.f Examples.a)
      Tree.empty_tctx curr c /\
    curr = Tree.tApp (Tree.tConst "h") Examples.a.
Proof.
  destruct (proj1 (@dsimplify_fn_post_fixed_point (Tree.kernel Tree.quiet)
                     (Tree.simp_lemmas Tree.quiet) Examples.rules tm_eqb_refl
                     (Tree.tApp Examples.f Examples.a)
                     (Examples.fresh Tree.quiet 100 false))
             10%nat
             (Some (Tree.tApp (Tree.tConst "h") Examples.a, true))
             _ eq_refl)
    as (k & curr & c & Hc & _ & _ & Hres).
  exists k, curr, c. split; [exact Hc|].
  destruct (@expr_eq (Tree.kernel Tree.quiet) curr
              (Tree.tApp Examples.f Examples.a)).
  - discriminate Hres.
  - inversion Hres. reflexivity.
Defined.

(** The chain [f a -> g a -> h a] of the specification: two rewrites, and
    a third lookup that finds no rule for [h]. *)
Example dsimplify_fn_post_chain :
  @dsimplify_fn_post (Tree.kernel Tree.quiet) (Tree.simp_lemmas Tree.quiet)
     Examples.rules 10 (Tree.tApp Examples.f Examples.a)
     (Examples.fresh Tree.quiet 100 false)
  = Ret (Some (Tree.tApp (Tree.tConst "h") Examples.a, true))
        (@mk_core (Tree.kernel Tree.quiet) Tree.empty_tctx [] 3 false 100 false).
Proof. reflexivity. Qed.

(** ** Termination below the ceiling

    Every call of [visit] accounts a step before anything else, so below
    the ceiling the depth of the recursion and the length of the binder
    loops are bounded by the steps left. *)

Section Advances.
Context `{K : Kernel}.
Variable N : Z.
Hypothesis N_small : N < UINT_MAX.

Lemma advances_ret {A} c (a : A) : advances N c c (ret a).
Proof. intros s H; exact H. Qed.

Lemma advances_bind {A B} c c1 c2 (m : M A) (k : A -> M B) :
  advances N c c1 m -> (forall a, advances N c1 c2 (k a)) ->
  advances N c c2 (bind m k).
Proof.
  intros Hm Hk s H. unfold bind. specialize (Hm s H).
  destruct (m s) as [a s1| |]; auto. now apply Hk.
Qed.

Lemma advances_weaken {A} c c1 c' (m : M A) :
  c' <= c1 -> advances N c c1 m -> advances N c c' m.
Proof.
  intros Hle Hm s H. specialize (Hm s H).
  destruct (m s); auto. unfold counted in *. lia.
Qed.

Lemma advances_with_ctx {A} c (f : type_context -> A * type_context) :
  advances N c c (with_ctx f).
Proof.
  intros s H. unfold with_ctx. destruct (f (m_ctx s)). exact H.
Qed.

Lemma advances_pop_locals c n : advances N c c (pop_locals n).
Proof.
  induction n; simpl; [apply advances_ret|].
  eapply advances_bind; [apply advances_with_ctx|auto].
Qed.

Lemma advances_canonize c a : advances N c c (defeq_canonize_m a).
Proof.
  intros s H. unfold defeq_canonize_m.
  destruct (defeq_canonize (m_ctx s) a (m_need_restart s)) as [[r fl] c0].
  exact H.
Qed.

Lemma advances_check_system c : advances N c c check_system_m.
Proof.
  intros s H. unfold check_system_m. destruct (check_system (m_ctx s)); auto.
Qed.

Lemma advances_inc c : advances N c (c + 1) inc_num_steps.
Proof.
  intros s (Hm & H0 & Hc). unfold inc_num_steps.
  rewrite wrap_small by lia.
  destruct (Z.ltb_spec (m_max_steps s) (m_num_steps s + 1)); auto.
  unfold counted; simpl. lia.
Qed.

Lemma advances_insert_cache c e v : advances N c c (insert_cache e v).
Proof. intros s H. exact H. Qed.

(** A computation that starts above the ceiling has nothing to prove. *)
Lemma advances_vacuous {A} c c' (m : M A) : N < c -> advances N c c' m.
Proof. intros Hlt s (_ & _ & Hc). lia. Qed.

Section Visitors.
Variable v : expr -> M expr.
Variable n : nat.
Hypothesis Hv : forall c e, N - c < Z.of_nat n -> advances N c (c + 1) (v e).

Lemma v_keeps c e : N - c < Z.of_nat n -> advances N c c (v e).
Proof. intros H. eapply advances_weaken; [|apply Hv; exact H]. lia. Qed.

Lemma advances_visit_macro_args e k : forall i acc c,
  N - c < Z.of_nat n -> advances N c c (visit_macro_args v e i k acc).
Proof.
  induction k as [|k IH]; intros i acc c Hc; simpl.
  - apply advances_ret.
  - eapply advances_bind; [apply v_keeps; exact Hc|]. intros a. now apply IH.
Qed.

Lemma advances_visit_binding_loop k : forall f b locals modified c,
  N - c < Z.of_nat n -> N - c < Z.of_nat f ->
  advances N c c (visit_binding_loop v f k b locals modified).
Proof.
  induction f as [|f IH]; intros b locals modified c Hn Hf.
  - apply advances_vacuous. lia.
  - simpl. destruct (expr_kind_eqb (kind b) k); [|apply advances_ret].
    apply advances_weaken with (c1 := c + 1); [lia|].
    eapply advances_bind; [apply Hv; exact Hn|]. intros new_d.
    eapply advances_bind; [apply advances_with_ctx|]. intros l.
    apply IH; lia.
Qed.

Lemma advances_visit_let_loop : forall f b locals modified c,
  N - c < Z.of_nat n -> N - c < Z.of_nat f ->
  advances N c c (visit_let_loop v f b locals modified).
Proof.
  induction f as [|f IH]; intros b locals modified c Hn Hf.
  - apply advances_vacuous. lia.
  - simpl. destruct (is_let b); [|apply advances_ret].
    apply advances_weaken with (c1 := c + 1); [lia|].
    eapply advances_bind; [apply Hv; exact Hn|]. intros new_t.
    eapply advances_bind; [apply v_keeps; lia|]. intros new_v.
    eapply advances_bind; [apply advances_with_ctx|]. intros l.
    apply IH; lia.
Qed.

Lemma advances_visit_binding e c :
  N - c < Z.of_nat n -> advances N c c (visit_binding v n e).
Proof.
  intros Hc. unfold visit_binding.
  eapply advances_bind; [apply advances_visit_binding_loop; exact Hc|].
  intros [[b locals] modified].
  eapply advances_bind; [apply v_keeps; exact Hc|]. intros new_b.
  eapply advances_bind.
  - destruct (if negb (is_eqp (instantiate_rev b locals) new_b)
              then true else modified);
      [destruct (expr_kind_eqb (kind e) Pi)|];
      auto using advances_with_ctx, advances_ret.
  - intros r. eapply advances_bind; [apply advances_pop_locals|].
    intros _. apply advances_ret.
Qed.

Lemma advances_visit_let e c :
  N - c < Z.of_nat n -> advances N c c (visit_let v n e).
Proof.
  intros Hc. unfold visit_let.
  eapply advances_bind; [apply advances_visit_let_loop; exact Hc|].
  intros [[b locals] modified].
  eapply advances_bind; [apply v_keeps; exact Hc|]. intros new_b.
  eapply advances_bind.
  - destruct (if negb (is_eqp (instantiate_rev b locals) new_b)
              then true else modified);
      auto using advances_with_ctx, advances_ret.
  - intros r. eapply advances_bind; [apply advances_pop_locals|].
    intros _. apply advances_ret.
Qed.

Lemma advances_visit_app_params pinfos : forall i args modified c,
  N - c < Z.of_nat n ->
  advances N c c (visit_app_params v pinfos i args modified).
Proof.
  induction pinfos as [|p pinfos IH]; intros i args modified c Hc; simpl.
  - apply advances_ret.
  - destruct (nth_error args i) as [a|]; [|intros s _; exact I].
    eapply advances_bind.
    + destruct (is_inst_implicit p);
        [apply advances_canonize|apply v_keeps; exact Hc].
    + intros new_a. now apply IH.
Qed.

Lemma advances_visit_app_rest k : forall i args modified c,
  N - c < Z.of_nat n ->
  advances N c c (visit_app_rest v k i args modified).
Proof.
  induction k as [|k IH]; intros i args modified c Hc; simpl.
  - apply advances_ret.
  - destruct (nth_error args i) as [a|]; [|apply advances_ret].
    eapply advances_bind; [apply v_keeps; exact Hc|].
    intros new_a. now apply IH.
Qed.

Lemma advances_visit_app e c :
  N - c < Z.of_nat n -> advances N c c (visit_app v e).
Proof.
  intros Hc. unfold visit_app. destruct (get_app_args e) as [f args].
  eapply advances_bind.
  - intros s Hs.
    destruct (negb (m_visit_instances s)); [|exact Hs].
    apply (advances_bind c c c
             (with_ctx (fun c0 => get_fun_info c0 f (length args)))
             (fun info => visit_app_params v info 0 args false));
      auto using advances_with_ctx, advances_visit_app_params.
  - intros [[i args'] modified].
    eapply advances_bind; [apply advances_visit_app_rest; exact Hc|].
    intros [args'' m]. destruct m; apply advances_ret.
Qed.

Lemma advances_visit_children e c :
  N - c < Z.of_nat n -> advances N c c (visit_children v n e).
Proof.
  intros Hc. unfold visit_children.
  destruct (kind e);
    auto using advances_ret, advances_visit_macro_args, advances_visit_binding,
      advances_visit_let, advances_visit_app.
  - intros s _. exact I.
  - unfold visit_macro. eapply advances_bind;
      [apply advances_visit_macro_args; exact Hc|].
    intros; apply advances_ret.
Qed.

(** With the hooks of the core the loop of [visit] goes round once. *)
Lemma visit_loop_core_once m e s :
  visit_loop core_hooks v n (S m) e s =
  bind (visit_children v n e) (fun _ => ret e) s.
Proof. reflexivity. Qed.

(** With the hooks of the core the loop of [visit] goes round once. *)
Lemma advances_visit_loop_core m e c :
  N - c < Z.of_nat n -> N - c < Z.of_nat m ->
  advances N c c (visit_loop core_hooks v n m e).
Proof.
  intros Hc Hm. destruct m as [|m].
  - apply advances_vacuous. simpl in Hm. lia.
  - intros s Hs. rewrite visit_loop_core_once.
    revert s Hs. fold (advances N c c (bind (visit_children v n e) (fun _ => ret e))).
    eapply advances_bind; [now apply advances_visit_children|].
    intros; apply advances_ret.
Qed.

End Visitors.
End Advances.

Section CoreIdentity.
Context `{K : Kernel}.

Lemma advances_visit_core N : N < UINT_MAX -> forall n c e,
  N - c < Z.of_nat n -> advances N c (c + 1) (visit core_hooks n e).
Proof.
  intros HN. induction n as [|n IH]; intros c e Hc.
  - apply advances_vacuous. simpl in Hc. lia.
  - simpl.
    eapply advances_bind; [apply advances_check_system|]. intros _.
    eapply advances_bind; [now apply advances_inc|]. intros _.
    intros s Hs. destruct (cache_find (m_cache s) e); [exact Hs|].
    revert s Hs.
    fold (advances N (c + 1) (c + 1)
            (p1 <- pre core_hooks e ;;
             match p1 with
             | Some (r, false) => insert_cache e r ;;; ret r
             | _ => curr_e <- visit_loop core_hooks (visit core_hooks n) n n e ;;
                    insert_cache e curr_e ;;; ret curr_e
             end)).
    apply advances_bind with (c1 := c + 1); [apply advances_ret|].
    assert (Hloop : advances N (c + 1) (c + 1)
              (curr_e <- visit_loop core_hooks (visit core_hooks n) n n e ;;
               insert_cache e curr_e ;;; ret curr_e)).
    { eapply advances_bind.
      - apply advances_visit_loop_core; auto; lia.
      - intros curr_e. eapply advances_bind; [apply advances_insert_cache|].
        intros; apply advances_ret. }
    intros [[r [|]]|]; auto.
    eapply advances_bind; [apply advances_insert_cache|].
    intros; apply advances_ret.
Qed.

Lemma operator_call_core_terminates N : N < UINT_MAX -> forall n c e s,
  N - c + 1 < Z.of_nat n -> counted N c s ->
  operator_call core_hooks n e s <> Timeout.
Proof.
  intros HN. induction n as [|n IH]; intros c e s Hc Hs.
  - destruct Hs as (_ & _ & Hs). simpl in Hc. lia.
  - simpl. unfold bind.
    assert (Hs0 : counted N c (set_need_restart false s)) by exact Hs.
    pose proof (advances_visit_core N HN n c e ltac:(lia) _ Hs0) as Hv.
    destruct (visit core_hooks n e (set_need_restart false s))
      as [e' s1| |]; try discriminate; [|contradiction].
    destruct (negb (m_need_restart s1)); [discriminate|].
    apply IH with (c := c + 1); [lia|exact Hv].
Qed.

(** On an empty cache a visit with the hooks of the core returns the very
    node it was given. *)
Lemma visit_core_empty_cache n e s r s' :
  m_cache s = [] -> visit core_hooks n e s = Ret r s' -> r = e.
Proof.
  destruct n as [|n]; [discriminate|]. intros Hc. simpl.
  unfold bind at 1, check_system_m.
  destruct (check_system (m_ctx s)); [discriminate|].
  unfold bind at 1.
  destruct (inc_num_steps s) as [[] s1| |] eqn:E; try discriminate.
  apply inc_num_steps_inv in E. destruct E as [E _]. subst s1.
  simpl m_cache. rewrite Hc. simpl cache_find.
  unfold bind at 1. simpl pre. unfold ret at 1.
  destruct n as [|m]; [discriminate|].
  unfold bind at 1. rewrite visit_loop_core_once. unfold bind at 1.
  destruct (visit_children (visit core_hooks (S m)) (S m) e
              (set_num_steps (wrap (m_num_steps s + 1)) s)); try discriminate.
  unfold ret, bind, insert_cache. intros H; now inversion H.
Qed.

Lemma operator_call_core_identity : forall n e s r s',
  m_cache s = [] -> operator_call core_hooks n e s = Ret r s' -> r = e.
Proof.
  induction n as [|n IH]; intros e s r s' Hc H; [discriminate|].
  simpl in H. unfold bind in H.
  destruct (visit core_hooks n e (set_need_restart false s))
    as [e' s1| |] eqn:E; try discriminate.
  apply visit_core_empty_cache in E; [|exact Hc]. subst e'.
  destruct (negb (m_need_restart s1)).
  - now inversion H.
  - eapply IH; [|exact H]. reflexivity.
Qed.

(** C5: on a freshly constructed [dsimplify_core_fn], whose hooks are
    the empty ones, [operator()] can only return the very node it was
    given; and, the ceiling being below the largest [unsigned], it does
    return it or throw once the fuel exceeds the ceiling by two. *)
Theorem core_simplify_identity (ctx : type_context) (N : Z)
    (visit_instances : bool) (e : expr) :
  (forall fuel r s',
     operator_call core_hooks fuel e
       (new_dsimplify_core_fn ctx N visit_instances) = Ret r s' ->
     r = e) /\
  (0 <= N < UINT_MAX ->
   forall fuel, (Z.to_nat N + 2 <= fuel)%nat ->
     operator_call core_hooks fuel e
       (new_dsimplify_core_fn ctx N visit_instances) <> Timeout).
Proof.
  split.
  - intros fuel r s' H. eapply operator_call_core_identity; [|exact H].
    reflexivity.
  - intros HN fuel Hf.
    apply operator_call_core_terminates with (N := N) (c := 0); try lia.
    unfold counted, new_dsimplify_core_fn; simpl. lia.
Qed.

End CoreIdentity.

Lemma core_simplify_identity_witness :
  @operator_call (Tree.kernel Tree.quiet) core_hooks 102 Examples.pi_a
     (Examples.fresh Tree.quiet 100 false) <> Timeout.
Proof.
  apply (proj2 (@core_simplify_identity (Tree.kernel Tree.quiet)
                  Tree.empty_tctx 100 false Examples.pi_a)).
  - unfold UINT_MAX. lia.
  - simpl. lia.
Defined.

Example core_simplify_pi :
  returned (@operator_call (Tree.kernel Tree.quiet) core_hooks 5 Examples.pi_a
              (Examples.fresh Tree.quiet 100 false))
  = Some Examples.pi_a.
Proof. reflexivity. Qed.

(** ** The step ceiling *)

(** *** What the engine is built from *)
Section Skeleton.
Context `{K : Kernel}.
Variable P : forall A : Type, M A -> Prop.
Hypothesis HP : engine_closed P.

Lemma closed_pop_locals n : P _ (pop_locals n).
Proof.
  induction n; simpl; [apply (closed_ret P HP)|].
  apply (closed_bind P HP); [apply (closed_with_ctx P HP)|auto].
Qed.

Section Visitor.
Variable h : hooks.
Variable v : expr -> M expr.
Hypothesis Hv : forall e, P _ (v e).
Hypothesis Hpre : forall e, P _ (pre h e).
Hypothesis Hpost : forall e, P _ (post h e).

Lemma closed_visit_macro_args e k : forall i acc,
  P _ (visit_macro_args v e i k acc).
Proof.
  induction k as [|k IH]; intros i acc; simpl.
  - apply (closed_ret P HP).
  - apply (closed_bind P HP); [apply Hv|]. intros a. apply IH.
Qed.

Lemma closed_visit_binding_loop k : forall f b locals modified,
  P _ (visit_binding_loop v f k b locals modified).
Proof.
  induction f as [|f IH]; intros b locals modified; simpl;
    (destruct (expr_kind_eqb (kind b) k); [|apply (closed_ret P HP)]).
  - apply (closed_timeout P HP).
  - apply (closed_bind P HP); [apply Hv|]. intros new_d.
    apply (closed_bind P HP); [apply (closed_with_ctx P HP)|]. intros l.
    apply IH.
Qed.

Lemma closed_visit_let_loop : forall f b locals modified,
  P _ (visit_let_loop v f b locals modified).
Proof.
  induction f as [|f IH]; intros b locals modified; simpl;
    (destruct (is_let b); [|apply (closed_ret P HP)]).
  - apply (closed_timeout P HP).
  - apply (closed_bind P HP); [apply Hv|]. intros new_t.
    apply (closed_bind P HP); [apply Hv|]. intros new_v.
    apply (closed_bind P HP); [apply (closed_with_ctx P HP)|]. intros l.
    apply IH.
Qed.

Lemma closed_visit_binding n e : P _ (visit_binding v n e).
Proof.
  unfold visit_binding.
  apply (closed_bind P HP); [apply closed_visit_binding_loop|].
  intros [[b locals] modified].
  apply (closed_bind P HP); [apply Hv|]. intros new_b.
  apply (closed_bind P HP).
  - destruct (if negb (is_eqp (instantiate_rev b locals) new_b)
              then true else modified);
      [destruct (expr_kind_eqb (kind e) Pi)|];
      first [apply (closed_with_ctx P HP)|apply (closed_ret P HP)].
  - intros r. apply (closed_bind P HP); [apply closed_pop_locals|].
    intros _. apply (closed_ret P HP).
Qed.

Lemma closed_visit_let n e : P _ (visit_let v n e).
Proof.
  unfold visit_let.
  apply (closed_bind P HP); [apply closed_visit_let_loop|].
  intros [[b locals] modified].
  apply (closed_bind P HP); [apply Hv|]. intros new_b.
  apply (closed_bind P HP).
  - destruct (if negb (is_eqp (instantiate_rev b locals) new_b)
              then true else modified);
      first [apply (closed_with_ctx P HP)|apply (closed_ret P HP)].
  - intros r. apply (closed_bind P HP); [apply closed_pop_locals|].
    intros _. apply (closed_ret P HP).
Qed.

Lemma closed_visit_app_params pinfos : forall i args modified,
  P _ (visit_app_params v pinfos i args modified).
Proof.
  induction pinfos as [|p pinfos IH]; intros i args modified; simpl.
  - apply (closed_ret P HP).
  - destruct (nth_error args i) as [a|]; [|apply (closed_throw P HP)].
    apply (closed_bind P HP).
    + destruct (is_inst_implicit p); [apply (closed_canonize P HP)|apply Hv].
    + intros new_a. apply IH.
Qed.

Lemma closed_visit_app_rest k : forall i args modified,
  P _ (visit_app_rest v k i args modified).
Proof.
  induction k as [|k IH]; intros i args modified; simpl.
  - apply (closed_ret P HP).
  - destruct (nth_error args i) as [a|]; [|apply (closed_ret P HP)].
    apply (closed_bind P HP); [apply Hv|]. intros new_a. apply IH.
Qed.

Lemma closed_visit_app e : P _ (visit_app v e).
Proof.
  unfold visit_app. destruct (get_app_args e) as [f args].
  apply (closed_bind P HP).
  - apply (closed_visit_instances P HP _
             (bind (with_ctx (fun c => get_fun_info c f (length args)))
                   (fun info => visit_app_params v info 0 args false))
             (ret (0%nat, args, false))).
    + apply (closed_bind P HP); [apply (closed_with_ctx P HP)|].
      intros info. apply closed_visit_app_params.
    + apply (closed_ret P HP).
  - intros [[i args'] modified].
    apply (closed_bind P HP); [apply closed_visit_app_rest|].
    intros [args'' m]. destruct m; apply (closed_ret P HP).
Qed.

Lemma closed_visit_children n e : P _ (visit_children v n e).
Proof.
  unfold visit_children.
  destruct (kind e);
    first [apply (closed_ret P HP) | apply (closed_throw P HP)
          | apply closed_visit_binding | apply closed_visit_let
          | apply closed_visit_app | idtac].
  unfold visit_macro.
  apply (closed_bind P HP); [apply closed_visit_macro_args|].
  intros; apply (closed_ret P HP).
Qed.

Lemma closed_visit_loop n : forall m e, P _ (visit_loop h v n m e).
Proof.
  induction m as [|m IH]; intros e; simpl.
  - apply (closed_timeout P HP).
  - apply (closed_bind P HP); [apply closed_visit_children|]. intros new_e.
    apply (closed_bind P HP); [apply Hpost|].
    intros [[r [|]]|]; first [apply IH|apply (closed_ret P HP)].
Qed.

Lemma closed_visit_after_step n e : P _ (visit_after_step h v n e).
Proof.
  unfold visit_after_step.
  apply (closed_cache P HP _ e (fun r => ret r)
           (bind (pre h e)
              (fun p1 =>
                 match p1 with
                 | Some (r, false) => insert_cache e r ;;; ret r
                 | _ =>
                     curr_e <- visit_loop h v n n e ;;
                     insert_cache e curr_e ;;;
                     ret curr_e
                 end))).
  - intros r. apply (closed_ret P HP).
  - apply (closed_bind P HP); [apply Hpre|].
    assert (Hloop : P _ (curr_e <- visit_loop h v n n e ;;
                         insert_cache e curr_e ;;; ret curr_e)).
    { apply (closed_bind P HP); [apply closed_visit_loop|]. intros curr_e.
      apply (closed_bind P HP); [apply (closed_insert_cache P HP)|].
      intros _. apply (closed_ret P HP). }
    intros [[r [|]]|]; try exact Hloop.
    apply (closed_bind P HP); [apply (closed_insert_cache P HP)|].
    intros _. apply (closed_ret P HP).
Qed.

End Visitor.

Section Rounds.
Context {L : SimpLemmas}.
Variable lemmas : simp_lemmas_for.

Lemma closed_rewrite_first_refl sls e : P _ (rewrite_first_refl sls e).
Proof.
  induction sls as [|sl sls IH]; simpl; [apply (closed_ret P HP)|].
  destruct (is_refl sl); [apply (closed_with_ctx P HP)|exact IH].
Qed.

Lemma closed_round_after_step (k : expr -> M expr) e :
  (forall e', P _ (k e')) -> P _ (round_after_step lemmas k e).
Proof.
  intros Hk. unfold round_after_step.
  destruct (find lemmas e) as [sls|]; [|apply (closed_ret P HP)].
  apply (closed_bind P HP); [apply closed_rewrite_first_refl|]. intros new_e.
  destruct (expr_eq new_e e); [apply (closed_ret P HP)|apply Hk].
Qed.

End Rounds.
End Skeleton.

(** *** The step counter moves through the account only *)
Section CounterMoves.
Context `{K : Kernel}.
Variable R : Z -> Z -> Prop.
Hypothesis R_refl : forall c, R c c.
Hypothesis R_trans : forall a b c, R a b -> R b c -> R a c.

Lemma counter_moves_closed : engine_closed (fun A => @counter_moves K A R).
Proof.
  constructor.
  - intros A a s. apply R_refl.
  - intros A B m k Hm Hk s. unfold bind. specialize (Hm s).
    destruct (m s) as [a t| |]; auto.
    specialize (Hk a t). destruct (k a t); auto. eauto.
  - intros A x s. exact I.
  - intros A s. exact I.
  - intros A f s. unfold with_ctx. destruct (f (m_ctx s)). apply R_refl.
  - intros a s. unfold defeq_canonize_m.
    destruct (defeq_canonize (m_ctx s) a (m_need_restart s)) as [[r fl] c].
    apply R_refl.
  - intros e v s. apply R_refl.
  - intros A m1 m2 H1 H2 s.
    destruct (negb (m_visit_instances s)); [apply H1|apply H2].
  - intros A e hit miss Hh Hm s.
    destruct (cache_find (m_cache s) e); [apply Hh|apply Hm].
Qed.

End CounterMoves.

(** *** Runs under two ceilings *)
Section CeilingExact.
Context `{K : Kernel}.
Variable N : Z.

Lemma ceiling_exact_bind {A B} (m : M A) (k : A -> M B) :
  ceiling_exact N m -> (forall a, ceiling_exact N (k a)) ->
  ceiling_exact N (bind m k).
Proof.
  intros Hm Hk s Hs HN. specialize (Hm s Hs HN). unfold bind.
  destruct (m s) as [a t|x|] eqn:Em.
  - destruct Hm as (Hmax & Hcnt & Hrun).
    assert (Ht : within_ceiling t) by (unfold within_ceiling in *; lia).
    assert (HNt : N <= m_max_steps t) by lia.
    specialize (Hk a t Ht HNt).
    destruct (k a t) as [b u|y|] eqn:Ek.
    + destruct Hk as (Hmax' & Hcnt' & Hrun').
      split; [lia|]. split; [lia|]. intros Hle. rewrite (Hrun Hle).
      destruct (Z.leb_spec (m_num_steps t) N) as [Hin|Hout].
      * exact (Hrun' Hin).
      * destruct (Z.leb_spec (m_num_steps u) N); [lia|reflexivity].
    + intros Hle. rewrite (Hrun Hle).
      destruct (Z.leb_spec (m_num_steps t) N) as [Hin|Hout];
        [exact (Hk Hin)|now right].
    + intros Hle. rewrite (Hrun Hle).
      destruct (Z.leb_spec (m_num_steps t) N) as [Hin|Hout];
        [exact (Hk Hin)|now right].
  - intros Hle. destruct (Hm Hle) as [E|E]; rewrite E; auto.
  - intros Hle. destruct (Hm Hle) as [E|E]; rewrite E; auto.
Qed.

(** A computation that leaves the counter and the ceiling alone and does
    not read the ceiling. *)
Lemma ceiling_exact_blind {A} (m : M A) :
  (forall s, match m s with
             | Ret a t => m_max_steps t = m_max_steps s /\
                          m_num_steps t = m_num_steps s /\
                          m (with_ceiling N s) = Ret a (with_ceiling N t)
             | Throw x => m (with_ceiling N s) = Throw x
             | Timeout => m (with_ceiling N s) = Timeout
             end) ->
  ceiling_exact N m.
Proof.
  intros H s Hs HN. specialize (H s). destruct (m s) as [a t|x|].
  - destruct H as (Hmax & Hcnt & Hrun). unfold within_ceiling in Hs.
    split; [exact Hmax|]. split; [lia|]. intros Hle. rewrite Hrun.
    destruct (Z.leb_spec (m_num_steps t) N); [reflexivity|lia].
  - intros _. now left.
  - intros _. now left.
Qed.

Lemma ceiling_exact_check_system : ceiling_exact N check_system_m.
Proof.
  apply ceiling_exact_blind. intros s. unfold check_system_m. simpl.
  destruct (check_system (m_ctx s)); auto.
Qed.

Lemma ceiling_exact_inc : ceiling_exact N inc_num_steps.
Proof.
  intros s ((H0 & Hc) & Hm) HN. unfold inc_num_steps. cbv beta zeta.
  change (m_num_steps (with_ceiling N s)) with (m_num_steps s).
  change (m_max_steps (with_ceiling N s)) with N.
  rewrite wrap_small by lia.
  destruct (Z.ltb_spec (m_max_steps s) (m_num_steps s + 1)).
  - intros Hle. left.
    destruct (Z.ltb_spec N (m_num_steps s + 1)); [reflexivity|lia].
  - cbn [m_max_steps m_num_steps set_num_steps].
    split; [reflexivity|]. split; [lia|]. intros Hle.
    destruct (Z.ltb_spec N (m_num_steps s + 1));
      destruct (Z.leb_spec (m_num_steps s + 1) N); try lia; reflexivity.
Qed.

Lemma ceiling_exact_closed : engine_closed (fun A => @ceiling_exact K A N).
Proof.
  constructor.
  - intros A a. apply ceiling_exact_blind. intros s. simpl. auto.
  - intros A B m k. apply ceiling_exact_bind.
  - intros A x. apply ceiling_exact_blind. intros s. reflexivity.
  - intros A. apply ceiling_exact_blind. intros s. reflexivity.
  - intros A f. apply ceiling_exact_blind. intros s. unfold with_ctx. simpl.
    destruct (f (m_ctx s)). simpl. auto.
  - intros a. apply ceiling_exact_blind. intros s. unfold defeq_canonize_m.
    simpl.
    destruct (defeq_canonize (m_ctx s) a (m_need_restart s)) as [[r fl] c].
    simpl. auto.
  - intros e v. apply ceiling_exact_blind. intros s. simpl. auto.
  - intros A m1 m2 H1 H2 s Hs HN. cbv beta.
    change (m_visit_instances (with_ceiling N s)) with (m_visit_instances s).
    destruct (negb (m_visit_instances s)); [apply H1|apply H2]; assumption.
  - intros A e hit miss Hh Hm s Hs HN. cbv beta.
    change (m_cache (with_ceiling N s)) with (m_cache s).
    destruct (cache_find (m_cache s) e); [apply Hh|apply Hm]; assumption.
Qed.

Section Hooks.
Variable h : hooks.
Hypothesis Hpre : forall e, ceiling_exact N (pre h e).
Hypothesis Hpost : forall e, ceiling_exact N (post h e).

Lemma visit_accounts_then_continues n e :
  visit h (S n) e =
  (check_system_m ;;; inc_num_steps ;;; visit_after_step h (visit h n) n e).
Proof. reflexivity. Qed.

Lemma ceiling_exact_visit : forall n e, ceiling_exact N (visit h n e).
Proof.
  induction n as [|n IH]; intros e.
  - apply ceiling_exact_blind. intros s. reflexivity.
  - rewrite visit_accounts_then_continues.
    apply ceiling_exact_bind; [apply ceiling_exact_check_system|]. intros _.
    apply ceiling_exact_bind; [apply ceiling_exact_inc|]. intros _.
    apply (closed_visit_after_step _ ceiling_exact_closed); assumption.
Qed.

Lemma ceiling_exact_operator_call : forall n e,
  ceiling_exact N (operator_call h n e).
Proof.
  induction n as [|n IH]; intros e.
  - apply ceiling_exact_blind. intros s. reflexivity.
  - assert (Hb : ceiling_exact N
             (e' <- visit h n e ;;
              fun s' => if negb (m_need_restart s') then Ret e' s'
                        else operator_call h n e' (set_cache [] s'))).
    { apply ceiling_exact_bind; [apply ceiling_exact_visit|]. intros e'.
      intros s Hs HN. cbv beta.
      change (m_need_restart (with_ceiling N s)) with (m_need_restart s).
      destruct (negb (m_need_restart s)).
      - unfold within_ceiling in Hs. split; [reflexivity|]. split; [lia|].
        intros Hle. destruct (Z.leb_spec (m_num_steps s) N); [reflexivity|lia].
      - exact (IH e' (set_cache [] s) Hs HN). }
    intros s Hs HN. exact (Hb (set_need_restart false s) Hs HN).
Qed.

End Hooks.

Section Rounds.
Context {L : SimpLemmas}.
Variable lemmas : simp_lemmas_for.

Lemma post_loop_accounts_then_continues n e :
  post_loop lemmas (S n) e =
  (check_system_m ;;; inc_num_steps ;;;
   round_after_step lemmas (post_loop lemmas n) e).
Proof. reflexivity. Qed.

Lemma ceiling_exact_post_loop : forall n e,
  ceiling_exact N (post_loop lemmas n e).
Proof.
  induction n as [|n IH]; intros e.
  - apply ceiling_exact_blind. intros s. reflexivity.
  - rewrite post_loop_accounts_then_continues.
    apply ceiling_exact_bind; [apply ceiling_exact_check_system|]. intros _.
    apply ceiling_exact_bind; [apply ceiling_exact_inc|]. intros _.
    apply (closed_round_after_step _ ceiling_exact_closed). exact IH.
Qed.

Lemma ceiling_exact_dsimplify_fn pf n e :
  ceiling_exact N (operator_call (dsimplify_fn lemmas pf) n e).
Proof.
  apply ceiling_exact_operator_call.
  - intros e'. apply (closed_ret _ ceiling_exact_closed).
  - intros e'. unfold dsimplify_fn, dsimplify_fn_post. simpl.
    apply ceiling_exact_bind; [apply ceiling_exact_post_loop|]. intros curr_e.
    destruct (expr_eq curr_e e'); apply (closed_ret _ ceiling_exact_closed).
Qed.

End Rounds.
End CeilingExact.

(** *** The account at the ceiling *)
Section Ceiling.
Context `{K : Kernel} {L : SimpLemmas}.
Variable h : hooks.
Variable lemmas : simp_lemmas_for.

Lemma visit_at_ceiling n e s :
  check_system (m_ctx s) = None ->
  0 <= m_num_steps s -> m_num_steps s = m_max_steps s ->
  m_max_steps s < UINT_MAX ->
  visit h (S n) e s = Throw (exception max_steps_msg).
Proof.
  intros Hc H0 H1 H2. simpl. unfold bind at 1, check_system_m. rewrite Hc.
  unfold bind at 1. now rewrite inc_num_steps_ceiling.
Qed.

Lemma post_loop_at_ceiling n e s :
  check_system (m_ctx s) = None ->
  0 <= m_num_steps s -> m_num_steps s = m_max_steps s ->
  m_max_steps s < UINT_MAX ->
  post_loop lemmas (S n) e s = Throw (exception max_steps_msg).
Proof.
  intros Hc H0 H1 H2. simpl. unfold bind at 1, check_system_m. rewrite Hc.
  unfold bind at 1. now rewrite inc_num_steps_ceiling.
Qed.

Lemma visit_cache_hit n e s r :
  check_system (m_ctx s) = None ->
  0 <= m_num_steps s < m_max_steps s -> m_max_steps s <= UINT_MAX ->
  cache_find (m_cache s) e = Some r ->
  visit h (S n) e s = Ret r (set_num_steps (m_num_steps s + 1) s).
Proof.
  intros Hc H0 H1 Hf. simpl. unfold bind at 1, check_system_m. rewrite Hc.
  unfold bind at 1. rewrite inc_num_steps_ok by assumption.
  simpl m_cache. now rewrite Hf.
Qed.

Lemma post_loop_no_candidate n e s :
  check_system (m_ctx s) = None ->
  0 <= m_num_steps s < m_max_steps s -> m_max_steps s <= UINT_MAX ->
  find lemmas e = None ->
  post_loop lemmas (S n) e s = Ret e (set_num_steps (m_num_steps s + 1) s).
Proof.
  intros Hc H0 H1 Hf. simpl. unfold bind at 1, check_system_m. rewrite Hc.
  unfold bind at 1. rewrite inc_num_steps_ok by assumption.
  now rewrite Hf.
Qed.

Lemma operator_call_throws n e s x :
  visit h n e (set_need_restart false s) = Throw x ->
  operator_call h (S n) e s = Throw x.
Proof. intros H. simpl. unfold bind. now rewrite H. Qed.


End Ceiling.



(** The non-terminating rule [f a -> f b -> f a] of the specification,
    with ceiling 7: the run is refused at the eighth accounted step. *)
Example looping_rules_hit_the_ceiling :
  @operator_call (Tree.kernel Tree.quiet)
     (@dsimplify_fn (Tree.kernel Tree.quiet) (Tree.simp_lemmas Tree.quiet)
        [(Tree.tApp Examples.f Examples.a, Tree.tApp Examples.f Examples.b, true);
         (Tree.tApp Examples.f Examples.b, Tree.tApp Examples.f Examples.a, true)]
        20)
     20 (Tree.tApp Examples.f Examples.a) (Examples.fresh Tree.quiet 7 false)
  = Throw (exception max_steps_msg).
Proof. reflexivity. Qed.

(** ** Bound variables *)

Section BoundVariables.
Context `{K : Kernel}.
Variable h : hooks.

Lemma visit_children_var (v : expr -> M expr) fuel e s :
  kind e = Var -> visit_children v fuel e s = Throw unreachable_reached.
Proof. intros E. unfold visit_children. rewrite E. reflexivity. Qed.

Lemma visit_var_never_returns n e s :
  kind e = Var ->
  cache_find (m_cache s) e = None ->
  (forall s1 r s2, pre h e s1 <> Ret (Some (r, false)) s2) ->
  forall r s', visit h n e s <> Ret r s'.
Proof.
  intros Ek Hc Hpre r s'. destruct n as [|n]; [discriminate|].
  simpl. unfold bind at 1, check_system_m.
  destruct (check_system (m_ctx s)); [discriminate|].
  unfold bind at 1.
  destruct (inc_num_steps s) as [[] s1| |] eqn:E; try discriminate.
  apply inc_num_steps_inv in E. destruct E as [E _]. subst s1.
  simpl m_cache. rewrite Hc. unfold bind at 1.
  destruct (pre h e (set_num_steps (wrap (m_num_steps s + 1)) s))
    as [p s2| |] eqn:Ep; try discriminate.
  assert (Hloop : forall s0,
            (curr_e <- visit_loop h (visit h n) n n e ;;
             insert_cache e curr_e ;;; ret curr_e) s0 <> Ret r s').
  { intros s0. unfold bind at 1. destruct n as [|m]; [discriminate|].
    simpl visit_loop. unfold bind at 1.
    rewrite visit_children_var by assumption. discriminate. }
  destruct p as [[r0 [|]]|]; auto.
  exfalso. eapply Hpre. exact Ep.
Qed.

Variable closed_upto : nat -> expr -> Prop.
Hypothesis discipline : binder_discipline closed_upto.
Hypothesis pre_closed : hook_closed closed_upto (pre h).
Hypothesis post_closed : hook_closed closed_upto (post h).

Local Abbreviation closed := (closed_upto 0).
Local Abbreviation rest_closed := (rest_closed closed_upto).
Local Abbreviation safe := (safe closed_upto).

Lemma safe_ret {A} (Q : A -> Prop) a : Q a -> safe Q (ret a).
Proof. intros Ha s Hs. split; assumption. Qed.

Lemma safe_bind {A B} (Q : A -> Prop) (R : B -> Prop) (m : M A) (k : A -> M B) :
  safe Q m -> (forall a, Q a -> safe R (k a)) -> safe R (bind m k).
Proof.
  intros Hm Hk s Hs. unfold bind. specialize (Hm s Hs).
  destruct (m s) as [a s1| |]; auto. destruct Hm as [Hs1 Ha].
  now apply Hk.
Qed.

Lemma safe_weaken {A} (Q R : A -> Prop) (m : M A) :
  (forall a, Q a -> R a) -> safe Q m -> safe R m.
Proof.
  intros HQR Hm s Hs. specialize (Hm s Hs).
  destruct (m s); auto. destruct Hm; auto.
Qed.

Lemma safe_with_ctx {A} (Q : A -> Prop) (f : type_context -> A * type_context) :
  (forall c, Q (fst (f c))) -> safe Q (with_ctx f).
Proof.
  intros Hf s Hs. unfold with_ctx. specialize (Hf (m_ctx s)).
  destruct (f (m_ctx s)). split; [exact Hs|exact Hf].
Qed.

Lemma safe_pop_locals n : safe (fun _ => True) (pop_locals n).
Proof.
  induction n; simpl; [now apply safe_ret|].
  eapply safe_bind; [apply safe_with_ctx with (Q := fun _ => True); auto|].
  auto.
Qed.

Lemma safe_canonize a : safe (fun _ => True) (defeq_canonize_m a).
Proof.
  intros s Hs. unfold defeq_canonize_m.
  destruct (defeq_canonize (m_ctx s) a (m_need_restart s)) as [[r fl] c].
  split; [exact Hs|exact I].
Qed.

Lemma cache_find_in c e r :
  cache_find c e = Some r -> exists k, In (k, r) c.
Proof.
  induction c as [|[k v] c IH]; simpl; [discriminate|].
  destruct (expr_eq k e).
  - intros E; inversion E; subst. exists k. now left.
  - intros E. destruct (IH E) as [k' Hk']. exists k'. now right.
Qed.

Lemma safe_insert_cache e v : closed v -> safe (fun _ => True) (insert_cache e v).
Proof.
  intros Hv s Hs. unfold insert_cache. split; [|exact I].
  unfold cache_closed, cache_insert. simpl.
  destruct (cache_find (m_cache s) e); [exact Hs|].
  intros k v' [E|Hin]; [inversion E; subst; exact Hv|eauto].
Qed.

Section Visitors.
Variable v : expr -> M expr.
Hypothesis Hv : forall e, closed e -> safe closed (v e).

Lemma safe_visit_macro_args e : kind e = Macro -> closed e ->
  forall k i acc, (i + k = macro_num_args e)%nat ->
  safe (fun _ => True) (visit_macro_args v e i k acc).
Proof.
  intros Ek Hc. induction k as [|k IH]; intros i acc Hik; simpl.
  - now apply safe_ret.
  - eapply safe_bind.
    + apply Hv. apply (macro_arg_closed _ discipline); auto. lia.
    + intros a _. apply IH. lia.
Qed.

Lemma safe_visit_binding_loop k : k = Lambda \/ k = Pi ->
  forall f b locals modified,
  closed_upto (length locals) b -> Forall closed locals ->
  safe (fun x => closed_upto (length (snd (fst x))) (fst (fst x)) /\
                 Forall closed (snd (fst x)))
       (visit_binding_loop v f k b locals modified).
Proof.
  intros Hk. induction f as [|f IH]; intros b locals modified Hb Hl.
  - simpl. destruct (expr_kind_eqb (kind b) k); [intros s _; exact I|].
    apply safe_ret. simpl. auto.
  - simpl. destruct (expr_kind_eqb (kind b) k) eqn:E;
      [|apply safe_ret; simpl; auto].
    assert (Ek : kind b = Lambda \/ kind b = Pi).
    { destruct Hk; subst k; destruct (kind b); try discriminate; auto. }
    destruct (binding_closed _ discipline _ _ Ek Hb) as [Hd Hbody].
    eapply safe_bind.
    + apply Hv. apply (instantiate_rev_closed _ discipline); assumption.
    + intros new_d Hnd. eapply safe_bind.
      * apply safe_with_ctx with (Q := closed). intros c.
        apply (push_local_closed _ discipline). exact Hnd.
      * intros l Hl'. apply IH.
        -- rewrite length_app. simpl.
           replace (length locals + 1)%nat with (S (length locals)) by lia.
           exact Hbody.
        -- apply Forall_app. split; auto.
Qed.

Lemma safe_visit_binding f e : kind e = Lambda \/ kind e = Pi -> closed e ->
  safe (fun _ => True) (visit_binding v f e).
Proof.
  intros Ek Hc. unfold visit_binding.
  eapply safe_bind.
  - apply safe_visit_binding_loop; simpl; auto.
  - intros [[b locals] modified] [Hb Hl]. simpl in Hb, Hl.
    eapply safe_bind.
    + apply Hv. apply (instantiate_rev_closed _ discipline); assumption.
    + intros new_b _. eapply safe_bind with (Q := fun _ => True).
      * destruct (if negb (is_eqp (instantiate_rev b locals) new_b)
                  then true else modified);
          [destruct (expr_kind_eqb (kind e) Pi)|];
          try (apply safe_with_ctx with (Q := fun _ => True); auto).
        now apply safe_ret.
      * intros r _. eapply safe_bind; [apply safe_pop_locals|].
        intros; now apply safe_ret.
Qed.

Lemma safe_visit_let_loop : forall f b locals modified,
  closed_upto (length locals) b -> Forall closed locals ->
  safe (fun x => closed_upto (length (snd (fst x))) (fst (fst x)) /\
                 Forall closed (snd (fst x)))
       (visit_let_loop v f b locals modified).
Proof.
  induction f as [|f IH]; intros b locals modified Hb Hl.
  - simpl. destruct (is_let b); [intros s _; exact I|].
    apply safe_ret. simpl. auto.
  - simpl. destruct (is_let b) eqn:E; [|apply safe_ret; simpl; auto].
    assert (Ek : kind b = Let).
    { unfold is_let in E. destruct (kind b); try discriminate; auto. }
    destruct (let_closed _ discipline _ _ Ek Hb) as (Ht & Hval & Hbody).
    assert (Ht' : closed (instantiate_rev (let_type b) locals))
      by (apply (instantiate_rev_closed _ discipline); assumption).
    assert (Hv' : closed (instantiate_rev (let_value b) locals))
      by (apply (instantiate_rev_closed _ discipline); assumption).
    eapply safe_bind; [apply Hv; exact Ht'|]. intros new_t _.
    eapply safe_bind; [apply Hv; exact Hv'|]. intros new_v _.
    eapply safe_bind.
    + apply safe_with_ctx with (Q := closed). intros c.
      apply (push_let_closed _ discipline); assumption.
    + intros l Hl'. apply IH.
      * rewrite length_app. simpl.
        replace (length locals + 1)%nat with (S (length locals)) by lia.
        exact Hbody.
      * apply Forall_app. split; auto.
Qed.

Lemma safe_visit_let f e : kind e = Let -> closed e ->
  safe (fun _ => True) (visit_let v f e).
Proof.
  intros Ek Hc. unfold visit_let.
  eapply safe_bind.
  - apply safe_visit_let_loop; simpl; auto.
  - intros [[b locals] modified] [Hb Hl]. simpl in Hb, Hl.
    eapply safe_bind.
    + apply Hv. apply (instantiate_rev_closed _ discipline); assumption.
    + intros new_b _. eapply safe_bind with (Q := fun _ => True).
      * destruct (if negb (is_eqp (instantiate_rev b locals) new_b)
                  then true else modified);
          try (apply safe_with_ctx with (Q := fun _ => True); auto).
        now apply safe_ret.
      * intros r _. eapply safe_bind; [apply safe_pop_locals|].
        intros; now apply safe_ret.
Qed.

Lemma nth_error_set_nth_other (x : expr) : forall args i j,
  i <> j -> nth_error (set_nth i x args) j = nth_error args j.
Proof.
  induction args as [|y args IH]; intros i j Hij.
  - destruct i; reflexivity.
  - destruct i, j; simpl; try reflexivity; try lia.
    apply IH. lia.
Qed.

Lemma rest_closed_step i x args :
  rest_closed i args -> rest_closed (S i) (set_nth i x args).
Proof.
  intros H j a Hj E. rewrite nth_error_set_nth_other in E by lia.
  apply (H j); auto. lia.
Qed.

Lemma safe_visit_app_params pinfos : forall i args modified,
  rest_closed i args ->
  safe (fun x => rest_closed (fst (fst x)) (snd (fst x)))
       (visit_app_params v pinfos i args modified).
Proof.
  induction pinfos as [|p pinfos IH]; intros i args modified Hr; simpl.
  - now apply safe_ret.
  - destruct (nth_error args i) as [a|] eqn:E; [|intros s _; discriminate].
    eapply safe_bind with (Q := fun _ => True).
    + destruct (is_inst_implicit p); [apply safe_canonize|].
      eapply safe_weaken; [|apply Hv; apply (Hr i); auto]. auto.
    + intros new_a _. apply IH. now apply rest_closed_step.
Qed.

Lemma safe_visit_app_rest k : forall i args modified,
  rest_closed i args ->
  safe (fun _ => True) (visit_app_rest v k i args modified).
Proof.
  induction k as [|k IH]; intros i args modified Hr; simpl.
  - now apply safe_ret.
  - destruct (nth_error args i) as [a|] eqn:E; [|now apply safe_ret].
    eapply safe_bind; [apply Hv; apply (Hr i); auto|].
    intros new_a _. apply IH. now apply rest_closed_step.
Qed.

Lemma safe_visit_app e : kind e = App -> closed e ->
  safe (fun _ => True) (visit_app v e).
Proof.
  intros Ek Hc. unfold visit_app.
  pose proof (app_args_closed _ discipline e Ek Hc) as Ha.
  destruct (get_app_args e) as [f args]. simpl in Ha.
  assert (Hr : rest_closed 0 args).
  { intros j a _ E. rewrite Forall_forall in Ha. apply Ha.
    eapply nth_error_In; eauto. }
  eapply safe_bind with (Q := fun x => rest_closed (fst (fst x)) (snd (fst x))).
  - intros s Hs. destruct (negb (m_visit_instances s)).
    + apply (safe_bind (fun _ => True)
               (fun x => rest_closed (fst (fst x)) (snd (fst x)))
               (with_ctx (fun c => get_fun_info c f (length args)))
               (fun info => visit_app_params v info 0 args false)); auto.
      * apply safe_with_ctx with (Q := fun _ => True); auto.
      * intros info _. now apply safe_visit_app_params.
    + split; [exact Hs|exact Hr].
  - intros [[i args'] modified] Hr'. simpl in Hr'.
    eapply safe_bind; [apply safe_visit_app_rest; exact Hr'|].
    intros [args'' m] _. destruct m; now apply safe_ret.
Qed.

Lemma safe_visit_children f e : closed e ->
  safe (fun _ => True) (visit_children v f e).
Proof.
  intros Hc. unfold visit_children.
  destruct (kind e) eqn:Ek; try (now apply safe_ret).
  - exfalso. exact (var_is_loose _ discipline e Ek Hc).
  - now apply safe_visit_app.
  - apply safe_visit_binding; auto.
  - apply safe_visit_binding; auto.
  - now apply safe_visit_let.
  - unfold visit_macro. eapply safe_bind.
    + apply safe_visit_macro_args; auto.
    + intros; now apply safe_ret.
Qed.

Lemma safe_visit_loop f : forall n curr_e, closed curr_e ->
  safe closed (visit_loop h v f n curr_e).
Proof.
  induction n as [|n IH]; intros curr_e Hc; simpl.
  - intros s _; exact I.
  - eapply safe_bind; [now apply safe_visit_children|]. intros new_e _.
    eapply safe_bind; [apply post_closed|]. intros p Hp.
    destruct p as [[r [|]]|].
    + apply IH. eapply Hp; reflexivity.
    + apply safe_ret. eapply Hp; reflexivity.
    + now apply safe_ret.
Qed.

End Visitors.

Lemma safe_visit : forall n e, closed e -> safe closed (visit h n e).
Proof.
  induction n as [|n IH]; intros e Hc.
  - intros s _; exact I.
  - simpl. intros s Hs. unfold bind at 1, check_system_m.
    destruct (check_system (m_ctx s)); [discriminate|].
    unfold bind at 1.
    destruct (inc_num_steps s) as [[] s1| |] eqn:E.
    + apply inc_num_steps_inv in E. destruct E as [E _].
      assert (Hs1 : cache_closed closed_upto s1) by (subst s1; exact Hs).
      clear E Hs.
      destruct (cache_find (m_cache s1) e) as [r|] eqn:Ef.
      * split; [exact Hs1|].
        destruct (cache_find_in _ _ _ Ef) as [k Hk]. eapply Hs1; eauto.
      * revert s1 Hs1 Ef. intros s1 Hs1 _. revert s1 Hs1.
        change (safe closed
                  (p1 <- pre h e ;;
                   match p1 with
                   | Some (r, false) => insert_cache e r ;;; ret r
                   | _ => curr_e <- visit_loop h (visit h n) n n e ;;
                          insert_cache e curr_e ;;; ret curr_e
                   end)).
        eapply safe_bind; [apply pre_closed|]. intros p Hp.
        assert (Hloop : safe closed
                  (curr_e <- visit_loop h (visit h n) n n e ;;
                   insert_cache e curr_e ;;; ret curr_e)).
        { eapply safe_bind; [apply safe_visit_loop; auto|].
          intros curr_e Hcurr.
          eapply safe_bind; [now apply safe_insert_cache|].
          intros; now apply safe_ret. }
        destruct p as [[r [|]]|]; auto.
        eapply safe_bind; [apply safe_insert_cache; eapply Hp; reflexivity|].
        intros _ _. apply safe_ret. eapply Hp; reflexivity.
    + unfold inc_num_steps in E.
      destruct (m_max_steps s <? wrap (m_num_steps s + 1)); inversion E.
      discriminate.
    + exact I.
Qed.

Lemma safe_operator_call : forall n e, closed e -> safe closed (operator_call h n e).
Proof.
  induction n as [|n IH]; intros e Hc s Hs; simpl; [exact I|].
  unfold bind.
  assert (Hs0 : cache_closed closed_upto (set_need_restart false s)) by exact Hs.
  pose proof (safe_visit n e Hc _ Hs0) as Hvis.
  destruct (visit h n e (set_need_restart false s)) as [e' s1| |]; auto.
  destruct Hvis as [Hs1 He'].
  destruct (negb (m_need_restart s1)); [split; assumption|].
  apply IH; [exact He'|]. intros k v [].
Qed.

End BoundVariables.

(** C9: the dispatch of [visit] on a bound-variable node is the fatal
    [lean_unreachable()], whatever the state and the hooks; a visit of
    such a node that is not answered by the cache or cut short by the
    pre-hook never returns a result; and when the kernel keeps its
    binder discipline (instantiation against a frame of closed locals
    closes what it instantiates) and the hooks answer closed
    replacements, [operator()] on a closed root never reaches that
    branch. *)
Theorem raw_bound_variable_is_fatal `{K : Kernel} (h : hooks)
    (closed_upto : nat -> expr -> Prop) :
  (forall (v : expr -> M expr) fuel e s,
     kind e = Var -> visit_children v fuel e s = Throw unreachable_reached) /\
  (forall n e s,
     kind e = Var ->
     cache_find (m_cache s) e = None ->
     (forall s1 r s2, pre h e s1 <> Ret (Some (r, false)) s2) ->
     forall r s', visit h n e s <> Ret r s') /\
  (binder_discipline closed_upto ->
   hook_closed closed_upto (pre h) ->
   hook_closed closed_upto (post h) ->
   forall fuel root s,
     closed_upto 0%nat root -> cache_closed closed_upto s ->
     operator_call h fuel root s <> Throw unreachable_reached).
Proof.
  split; [|split].
  - intros v fuel e s. apply visit_children_var.
  - intros n e s. apply visit_var_never_returns.
  - intros Hd Hpre Hpost fuel root s Hc Hs E.
    pose proof (safe_operator_call h closed_upto Hd Hpre Hpost fuel root Hc s Hs)
      as H.
    rewrite E in H. now apply H.
Qed.

(** *** The reference kernel keeps the binder discipline *)

Module TreeFacts.
Import Tree.

(** Induction on trees, with the arguments of a macro covered. *)
Lemma tm_induction (P : tm -> Prop) :
  (forall i, P (tVar i)) ->
  (forall u, P (tSort u)) ->
  (forall c, P (tConst c)) ->
  (forall m t, P t -> P (tMeta m t)) ->
  (forall i x t, P t -> P (tLocal i x t)) ->
  (forall f a, P f -> P a -> P (tApp f a)) ->
  (forall x d b, P d -> P b -> P (tLam x d b)) ->
  (forall x d b, P d -> P b -> P (tPi x d b)) ->
  (forall x t v b, P t -> P v -> P b -> P (tLet x t v b)) ->
  (forall m l, Forall P l -> P (tMacro m l)) ->
  forall e, P e.
Proof.
  intros HVar HSort HConst HMeta HLocal HApp HLam HPi HLet HMacro.
  fix IH 1. intros [i|u|c|m t|i x t|f a|x d b|x d b|x t v b|m l].
  - apply HVar.
  - apply HSort.
  - apply HConst.
  - apply HMeta, IH.
  - apply HLocal, IH.
  - apply HApp; apply IH.
  - apply HLam; apply IH.
  - apply HPi; apply IH.
  - apply HLet; apply IH.
  - apply HMacro. induction l as [|y l IHl]; constructor.
    + apply IH.
    + exact IHl.
Qed.

Lemma lift_closed : forall e n c k,
  closed_at n e = true -> closed_at (n + k) (lift_at c k e) = true.
Proof.
  induction e as [i|u|c0|m t IHt|i x t IHt|f a IHf IHa|x d b IHd IHb
                 |x d b IHd IHb|x t v b IHt IHv IHb|m l IHl]
    using tm_induction; intros n c k H; simpl in *; auto.
  - destruct (Nat.ltb i c); simpl; apply Nat.ltb_lt in H; apply Nat.ltb_lt; lia.
  - apply andb_true_iff in H. destruct H.
    rewrite IHf, IHa; auto.
  - apply andb_true_iff in H. destruct H as [H1 H2].
    rewrite IHd by auto. simpl. apply (IHb (S n)); auto.
  - apply andb_true_iff in H. destruct H as [H1 H2].
    rewrite IHd by auto. simpl. apply (IHb (S n)); auto.
  - apply andb_true_iff in H. destruct H as [H12 H3].
    apply andb_true_iff in H12. destruct H12 as [H1 H2].
    rewrite IHt, IHv by auto. simpl. apply (IHb (S n)); auto.
  - rewrite forallb_forall in *. intros y Hy.
    apply in_map_iff in Hy. destruct Hy as [z [Ez Hz]]. subst y.
    rewrite Forall_forall in IHl. apply IHl; auto.
Qed.

Lemma inst_closed : forall e s subst,
  closed_at (s + length subst) e = true ->
  Forall (fun a => closed_at 0 a = true) subst ->
  closed_at s (inst_at s subst e) = true.
Proof.
  induction e as [i|u|c0|m t IHt|i x t IHt|f a IHf IHa|x d b IHd IHb
                 |x d b IHd IHb|x t v b IHt IHv IHb|m l IHl]
    using tm_induction; intros s subst H Hs; simpl in *; auto.
  - destruct (Nat.ltb i s) eqn:E; simpl; [exact E|].
    apply Nat.ltb_lt in H. apply Nat.ltb_ge in E.
    destruct (nth_error subst (i - s)) as [a|] eqn:En.
    + apply (lift_closed a 0 0 s). rewrite Forall_forall in Hs.
      apply Hs. eapply nth_error_In; eauto.
    + apply nth_error_None in En. lia.
  - apply andb_true_iff in H. destruct H.
    rewrite IHf, IHa; auto.
  - apply andb_true_iff in H. destruct H as [H1 H2].
    rewrite IHd by auto. simpl. apply (IHb (S s)); auto.
  - apply andb_true_iff in H. destruct H as [H1 H2].
    rewrite IHd by auto. simpl. apply (IHb (S s)); auto.
  - apply andb_true_iff in H. destruct H as [H12 H3].
    apply andb_true_iff in H12. destruct H12 as [H1 H2].
    rewrite IHt, IHv by auto. simpl. apply (IHb (S s)); auto.
  - rewrite forallb_forall in *. intros y Hy.
    apply in_map_iff in Hy. destruct Hy as [z [Ez Hz]]. subst y.
    rewrite Forall_forall in IHl. apply IHl; auto.
Qed.

Lemma app_args_rev_closed : forall e n,
  closed_at n e = true ->
  Forall (fun a => closed_at n a = true) (snd (app_args_rev e)).
Proof.
  induction e as [i|u|c0|m t IHt|i x t IHt|f a IHf IHa|x d b IHd IHb
                 |x d b IHd IHb|x t v b IHt IHv IHb|m l IHl]
    using tm_induction; intros n H; simpl; try constructor.
  simpl in H. apply andb_true_iff in H. destruct H as [H1 H2].
  specialize (IHf n H1). destruct (app_args_rev f) as [hd r]. simpl in *.
  constructor; assumption.
Qed.

Lemma tree_discipline (st : stubs) :
  @binder_discipline (kernel st) tree_closed_upto.
Proof.
  constructor; unfold tree_closed_upto; simpl.
  - intros [] E; discriminate.
  - intros e j E H Hj. destruct e; try discriminate. simpl in *.
    rewrite forallb_forall in H. apply H. now apply nth_In.
  - intros e _ H. unfold t_get_app_args.
    pose proof (app_args_rev_closed e 0 H) as Hr.
    destruct (app_args_rev e) as [hd r]. simpl in *.
    now apply Forall_rev.
  - intros n e [E|E] H; destruct e; try discriminate; simpl in *;
      apply andb_true_iff in H; exact H.
  - intros n e E H; destruct e; try discriminate. simpl in *.
    apply andb_true_iff in H. destruct H as [H12 H3].
    apply andb_true_iff in H12. destruct H12. auto.
  - intros e locals H Hl. unfold t_instantiate_rev.
    apply inst_closed.
    + now rewrite length_rev.
    + now apply Forall_rev.
  - intros c x ty bi H. exact H.
  - intros c x t v H _. exact H.
Qed.

(** A hook given by a table of closed replacements answers closed
    replacements. *)
Lemma table_hook_closed (st : stubs) (t : list (tm * (tm * bool))) :
  Forall (fun kr => closed_at 0 (fst (snd kr)) = true) t ->
  @hook_closed (kernel st) tree_closed_upto (Examples.table_hook st t).
Proof.
  intros Ht e. induction t as [|[k [r b]] t IH]; simpl.
  - intros s Hs. split; [exact Hs|]. discriminate.
  - inversion Ht; subst. destruct (tm_eqb k e); [|now apply IH].
    intros s Hs. split; [exact Hs|].
    intros r0 b0 E. inversion E; subst. assumption.
Qed.

End TreeFacts.

Lemma raw_bound_variable_is_fatal_witness :
  @operator_call (Tree.kernel Tree.quiet) Examples.h_post 6 Examples.a
     (Examples.fresh Tree.quiet 100 false)
  <> Throw unreachable_reached.
Proof.
  apply (proj2 (proj2 (@raw_bound_variable_is_fatal (Tree.kernel Tree.quiet)
                         Examples.h_post tree_closed_upto))).
  - apply TreeFacts.tree_discipline.
  - apply TreeFacts.table_hook_closed. constructor.
  - apply TreeFacts.table_hook_closed.
    repeat (constructor; [reflexivity|]). constructor.
  - reflexivity.
  - intros k v [].
Defined.

(** A raw bound variable at the root, and one left loose under a binder
    by a root that is not closed. *)
Example visit_raw_variable :
  @operator_call (Tree.kernel Tree.quiet) core_hooks 5 (Tree.tVar 0)
     (Examples.fresh Tree.quiet 100 false)
  = Throw unreachable_reached.
Proof. reflexivity. Qed.

Example visit_loose_variable :
  @operator_call (Tree.kernel Tree.quiet) core_hooks 5
     (Tree.tLam "x" Examples.a (Tree.tVar 1))
     (Examples.fresh Tree.quiet 100 false)
  = Throw unreachable_reached.
Proof. reflexivity. Qed.

(** * The rest of the engine *)

(** ** What a visit leaves untouched

    One induction over [visit] serves every property of the state that
    the engine's own state changes respect. *)

Section Keeps.
Context `{K : Kernel}.
Variable h : hooks.
Variable J : nat -> dsimplify_core_fn -> Prop.
Hypothesis J_frame : frame_invariant J.
Hypothesis pre_keeps : hook_keeps J (pre h).
Hypothesis post_keeps : hook_keeps J (post h).

Lemma hoare_ret {A} (P : dsimplify_core_fn -> Prop) (Q : A -> dsimplify_core_fn -> Prop) a :
  (forall s, P s -> Q a s) -> hoare P (ret a) Q.
Proof. intros H s Hs. now apply H. Qed.

Lemma hoare_bind {A B} (P : dsimplify_core_fn -> Prop)
    (Q : A -> dsimplify_core_fn -> Prop) (R : B -> dsimplify_core_fn -> Prop)
    (m : M A) (k : A -> M B) :
  hoare P m Q -> (forall a, hoare (Q a) (k a) R) -> hoare P (bind m k) R.
Proof.
  intros Hm Hk s Hs. unfold bind. specialize (Hm s Hs).
  destruct (m s) as [a s1| |]; auto. now apply Hk.
Qed.

Lemma hoare_with_ctx {A} (P Q : dsimplify_core_fn -> Prop)
    (f : type_context -> A * type_context) :
  (forall s, P s -> Q (set_ctx (snd (f (m_ctx s))) s)) ->
  hoare P (with_ctx f) (fun _ s' => Q s').
Proof.
  intros H s Hs. unfold with_ctx. specialize (H s Hs).
  destruct (f (m_ctx s)). exact H.
Qed.

Lemma keeps_pop_locals n : forall k,
  hoare (J (k + n)) (pop_locals n) (fun _ s' => J k s').
Proof.
  induction n as [|n IH]; intros k; simpl.
  - apply hoare_ret. intros s. now rewrite Nat.add_0_r.
  - eapply hoare_bind.
    + apply hoare_with_ctx with (Q := J (k + n)). intros s Hs.
      apply (inv_pop_local J J_frame).
      now replace (S (k + n)) with (k + S n)%nat by lia.
    + intros ?. apply IH.
Qed.

Lemma keeps_inc k : hoare (J k) inc_num_steps (fun _ s' => J k s').
Proof.
  intros s Hs. unfold inc_num_steps.
  destruct (m_max_steps s <? wrap (m_num_steps s + 1)); [exact I|].
  now apply (inv_num_steps J J_frame).
Qed.

Lemma keeps_check_system k : hoare (J k) check_system_m (fun _ s' => J k s').
Proof.
  intros s Hs. unfold check_system_m. destruct (check_system (m_ctx s)); auto.
Qed.

Lemma keeps_insert_cache k e v :
  hoare (J k) (insert_cache e v) (fun _ s' => J k s').
Proof. intros s Hs. now apply (inv_insert J J_frame). Qed.

Section Visitors.
Variable v : expr -> M expr.
Hypothesis Hv : forall k e, hoare (J k) (v e) (fun _ s' => J k s').

Lemma keeps_visit_macro_args e n : forall i acc k,
  hoare (J k) (visit_macro_args v e i n acc) (fun _ s' => J k s').
Proof.
  induction n as [|n IH]; intros i acc k; simpl.
  - now apply hoare_ret.
  - eapply hoare_bind; [apply Hv|]. intros a. apply IH.
Qed.

Lemma keeps_visit_binding_loop kk k : forall f b locals modified,
  hoare (J (k + length locals))
        (visit_binding_loop v f kk b locals modified)
        (fun x s' => J (k + length (snd (fst x))) s').
Proof.
  induction f as [|f IH]; intros b locals modified; simpl.
  - destruct (expr_kind_eqb (kind b) kk); [intros s _; exact I|].
    now apply hoare_ret.
  - destruct (expr_kind_eqb (kind b) kk); [|now apply hoare_ret].
    eapply hoare_bind; [apply Hv|]. intros new_d.
    eapply hoare_bind.
    + apply hoare_with_ctx with (Q := J (S (k + length locals))).
      intros s Hs. now apply (inv_push_local J J_frame).
    + intros l. specialize (IH (binding_body b) (locals ++ [l])
                              (if negb (is_eqp (instantiate_rev (binding_domain b) locals) new_d)
                               then true else modified)).
      rewrite length_app in IH. simpl in IH.
      now replace (k + (length locals + 1))%nat
        with (S (k + length locals)) in IH by lia.
Qed.

Lemma keeps_visit_let_loop k : forall f b locals modified,
  hoare (J (k + length locals))
        (visit_let_loop v f b locals modified)
        (fun x s' => J (k + length (snd (fst x))) s').
Proof.
  induction f as [|f IH]; intros b locals modified; simpl.
  - destruct (is_let b); [intros s _; exact I|]. now apply hoare_ret.
  - destruct (is_let b); [|now apply hoare_ret].
    eapply hoare_bind; [apply Hv|]. intros new_t.
    eapply hoare_bind; [apply Hv|]. intros new_v.
    eapply hoare_bind.
    + apply hoare_with_ctx with (Q := J (S (k + length locals))).
      intros s Hs. now apply (inv_push_let J J_frame).
    + intros l.
      specialize (IH (let_body b) (locals ++ [l])
                    (if negb (is_eqp (instantiate_rev (let_type b) locals) new_t)
                        || negb (is_eqp (instantiate_rev (let_value b) locals) new_v)
                     then true else modified)).
      rewrite length_app in IH. simpl in IH.
      now replace (k + (length locals + 1))%nat
        with (S (k + length locals)) in IH by lia.
Qed.

Lemma keeps_visit_binding f e k :
  hoare (J k) (visit_binding v f e) (fun _ s' => J k s').
Proof.
  unfold visit_binding. eapply hoare_bind.
  - pose proof (keeps_visit_binding_loop (kind e) k f e [] false) as H.
    simpl in H. rewrite Nat.add_0_r in H. exact H.
  - intros [[b locals] modified]. simpl.
    eapply hoare_bind; [apply Hv|]. intros new_b.
    eapply hoare_bind with (Q := fun _ s' => J (k + length locals) s').
    + destruct (if negb (is_eqp (instantiate_rev b locals) new_b)
                then true else modified);
        [destruct (expr_kind_eqb (kind e) Pi)|].
      * apply hoare_with_ctx with (Q := J (k + length locals)).
        intros s Hs. now apply (inv_mk_pi J J_frame).
      * apply hoare_with_ctx with (Q := J (k + length locals)).
        intros s Hs. now apply (inv_mk_lambda J J_frame).
      * now apply hoare_ret.
    + intros r. eapply hoare_bind; [apply keeps_pop_locals|].
      intros ?. now apply hoare_ret.
Qed.

Lemma keeps_visit_let f e k :
  hoare (J k) (visit_let v f e) (fun _ s' => J k s').
Proof.
  unfold visit_let. eapply hoare_bind.
  - pose proof (keeps_visit_let_loop k f e [] false) as H.
    simpl in H. rewrite Nat.add_0_r in H. exact H.
  - intros [[b locals] modified]. simpl.
    eapply hoare_bind; [apply Hv|]. intros new_b.
    eapply hoare_bind with (Q := fun _ s' => J (k + length locals) s').
    + destruct (if negb (is_eqp (instantiate_rev b locals) new_b)
                then true else modified).
      * apply hoare_with_ctx with (Q := J (k + length locals)).
        intros s Hs. now apply (inv_mk_lambda J J_frame).
      * now apply hoare_ret.
    + intros r. eapply hoare_bind; [apply keeps_pop_locals|].
      intros ?. now apply hoare_ret.
Qed.

Lemma keeps_canonize k a :
  (forall k s a, J k s ->
     J k (set_need_restart
            (snd (fst (defeq_canonize (m_ctx s) a (m_need_restart s))))
            (set_ctx (snd (defeq_canonize (m_ctx s) a (m_need_restart s))) s))) ->
  hoare (J k) (defeq_canonize_m a) (fun _ s' => J k s').
Proof.
  intros Hc s Hs. unfold defeq_canonize_m. specialize (Hc k s a Hs).
  destruct (defeq_canonize (m_ctx s) a (m_need_restart s)) as [[r fl] c].
  exact Hc.
Qed.

Lemma keeps_visit_app_params k pinfos :
  (forall k s a, J k s ->
     J k (set_need_restart
            (snd (fst (defeq_canonize (m_ctx s) a (m_need_restart s))))
            (set_ctx (snd (defeq_canonize (m_ctx s) a (m_need_restart s))) s))) ->
  forall i args modified,
  hoare (J k) (visit_app_params v pinfos i args modified) (fun _ s' => J k s').
Proof.
  intros Hc. induction pinfos as [|p pinfos IH]; intros i args modified; simpl.
  - now apply hoare_ret.
  - destruct (nth_error args i) as [a|]; [|intros s _; exact I].
    eapply hoare_bind with (Q := fun _ s' => J k s').
    + destruct (is_inst_implicit p); [now apply keeps_canonize|apply Hv].
    + intros new_a. apply IH.
Qed.

Lemma keeps_visit_app_rest k n : forall i args modified,
  hoare (J k) (visit_app_rest v n i args modified) (fun _ s' => J k s').
Proof.
  induction n as [|n IH]; intros i args modified; simpl.
  - now apply hoare_ret.
  - destruct (nth_error args i) as [a|]; [|now apply hoare_ret].
    eapply hoare_bind; [apply Hv|]. intros new_a. apply IH.
Qed.

Lemma keeps_visit_app e k :
  hoare (J k) (visit_app v e) (fun _ s' => J k s').
Proof.
  unfold visit_app. destruct (get_app_args e) as [f args].
  eapply hoare_bind with (Q := fun _ s' => J k s').
  - intros s Hs. destruct (m_visit_instances s) eqn:Evi; simpl; [exact Hs|].
    destruct (inv_canonize J J_frame) as [Hmode|Hc].
    + rewrite (Hmode k s Hs) in Evi. discriminate.
    + apply (hoare_bind (J k) (fun _ s' => J k s') (fun _ s' => J k s')
               (with_ctx (fun c => get_fun_info c f (length args)))
               (fun info => visit_app_params v info 0 args false)); auto.
      * apply hoare_with_ctx with (Q := J k). intros s0 Hs0.
        now apply (inv_get_fun_info J J_frame).
      * intros info. now apply keeps_visit_app_params.
  - intros [[i args'] modified].
    eapply hoare_bind; [apply keeps_visit_app_rest|].
    intros [args'' m]. destruct m; now apply hoare_ret.
Qed.

Lemma keeps_visit_children f e k :
  hoare (J k) (visit_children v f e) (fun _ s' => J k s').
Proof.
  unfold visit_children.
  destruct (kind e); try (now apply hoare_ret);
    auto using keeps_visit_binding, keeps_visit_let, keeps_visit_app.
  - intros s _. exact I.
  - unfold visit_macro. eapply hoare_bind; [apply keeps_visit_macro_args|].
    intros; now apply hoare_ret.
Qed.

Lemma keeps_visit_loop f k : forall n curr_e,
  hoare (J k) (visit_loop h v f n curr_e) (fun _ s' => J k s').
Proof.
  induction n as [|n IH]; intros curr_e; simpl.
  - intros s _; exact I.
  - eapply hoare_bind; [apply keeps_visit_children|]. intros new_e.
    eapply hoare_bind; [apply post_keeps|].
    intros [[r [|]]|]; [apply IH| |]; now apply hoare_ret.
Qed.

End Visitors.

Lemma keeps_visit : forall n k e,
  hoare (J k) (visit h n e) (fun _ s' => J k s').
Proof.
  induction n as [|n IH]; intros k e.
  - intros s _; exact I.
  - simpl.
    eapply hoare_bind; [apply keeps_check_system|]. intros ?.
    eapply hoare_bind; [apply keeps_inc|]. intros ?.
    intros s Hs. destruct (cache_find (m_cache s) e); [exact Hs|].
    revert s Hs.
    change (hoare (J k)
              (p1 <- pre h e ;;
               match p1 with
               | Some (r, false) => insert_cache e r ;;; ret r
               | _ => curr_e <- visit_loop h (visit h n) n n e ;;
                      insert_cache e curr_e ;;; ret curr_e
               end) (fun _ s' => J k s')).
    eapply hoare_bind; [apply pre_keeps|]. intros p.
    assert (Hloop : hoare (J k)
              (curr_e <- visit_loop h (visit h n) n n e ;;
               insert_cache e curr_e ;;; ret curr_e) (fun _ s' => J k s')).
    { eapply hoare_bind; [apply keeps_visit_loop; exact IH|].
      intros curr_e. eapply hoare_bind; [apply keeps_insert_cache|].
      intros; now apply hoare_ret. }
    destruct p as [[r [|]]|]; auto.
    eapply hoare_bind; [apply keeps_insert_cache|].
    intros; now apply hoare_ret.
Qed.

End Keeps.

(** The rule applicator's post-hook changes the type context and the step
    counter, and nothing else. *)
Lemma post_loop_frame `{K : Kernel} {L : SimpLemmas}
    (lemmas : simp_lemmas_for) : forall fuel curr s r s',
  post_loop lemmas fuel curr s = Ret r s' ->
  s' = set_ctx (m_ctx s') (set_num_steps (m_num_steps s') s).
Proof.
  induction fuel as [|fuel IH]; intros curr s r s' H; [discriminate|].
  simpl in H. unfold bind at 1, check_system_m in H.
  destruct (check_system (m_ctx s)); [discriminate|].
  unfold bind at 1 in H.
  destruct (inc_num_steps s) as [[] s1| |] eqn:E1; try discriminate.
  apply inc_num_steps_inv in E1. destruct E1 as [E1 _]. subst s1.
  assert (Hret : forall x s0,
            Ret x (set_ctx (m_ctx s0)
                     (set_num_steps (wrap (m_num_steps s + 1)) s)) = Ret r s' ->
            s' = set_ctx (m_ctx s') (set_num_steps (m_num_steps s') s)).
  { intros x s0 E. inversion E; subst. destruct s; reflexivity. }
  destruct (find lemmas curr) as [ls|].
  - unfold bind in H. rewrite rewrite_first_refl_first in H.
    destruct (first_refl ls) as [sl|].
    + unfold with_ctx in H. simpl m_ctx in H.
      destruct (refl_lemma_rewrite (m_ctx s) curr sl) as [new_e c'].
      destruct (expr_eq new_e curr).
      * inversion H; subst. destruct s; reflexivity.
      * apply IH in H. rewrite H. destruct s; reflexivity.
    + destruct (expr_eq curr curr).
      * inversion H; subst. destruct s; reflexivity.
      * apply IH in H. rewrite H. destruct s; reflexivity.
  - inversion H; subst. destruct s; reflexivity.
Qed.

Section AboutConfigurations.
Context `{K : Kernel} {L : SimpLemmas}.
Variable lemmas : simp_lemmas_for.

(** A state property that does not look at the type context nor at the
    step counter is respected by the hooks of both configurations. *)
Lemma core_hooks_keep (J : nat -> dsimplify_core_fn -> Prop) :
  hook_keeps J (pre core_hooks) /\ hook_keeps J (post core_hooks).
Proof. split; intros k e s Hs; exact Hs. Qed.

Lemma dsimplify_fn_keeps (J : nat -> dsimplify_core_fn -> Prop) pf :
  (forall k s c n, J k s -> J k (set_ctx c (set_num_steps n s))) ->
  hook_keeps J (pre (dsimplify_fn lemmas pf)) /\
  hook_keeps J (post (dsimplify_fn lemmas pf)).
Proof.
  intros HJ. split; intros k e s Hs; [exact Hs|].
  simpl. unfold dsimplify_fn_post, bind.
  destruct (post_loop lemmas pf e s) as [curr s1| |] eqn:E; auto.
  apply post_loop_frame in E.
  assert (J k s1) by (rewrite E; now apply HJ).
  destruct (expr_eq curr e); assumption.
Qed.

(** The configuration is a frame invariant. *)
Lemma configuration_frame N b :
  frame_invariant (fun _ s => m_max_steps s = N /\ m_visit_instances s = b).
Proof.
  constructor; intros; try assumption.
  right. intros k s a Hs.
  destruct (defeq_canonize (m_ctx s) a (m_need_restart s)) as [[r fl] c].
  exact Hs.
Qed.

(** So is "visit-instances mode, restart flag unset": the canonicalizer
    is not called in that mode. *)
Lemma no_restart_frame :
  frame_invariant
    (fun _ s => m_visit_instances s = true /\ m_need_restart s = false).
Proof.
  constructor; intros; try assumption.
  left. intros k s [H _]. exact H.
Qed.

(** X1: [operator()] of the rule applicator never changes the ceiling nor
    the visit-instances mode of the object. *)
Theorem dsimplify_fn_keeps_configuration pf : forall n e s r s',
  operator_call (dsimplify_fn lemmas pf) n e s = Ret r s' ->
  m_max_steps s' = m_max_steps s /\
  m_visit_instances s' = m_visit_instances s.
Proof.
  induction n as [|n IH]; intros e s r s' H; [discriminate|].
  simpl in H. unfold bind in H.
  set (J := fun (_ : nat) s0 =>
              m_max_steps s0 = m_max_steps s /\
              m_visit_instances s0 = m_visit_instances s).
  assert (HJ : forall k s0 c m, J k s0 -> J k (set_ctx c (set_num_steps m s0)))
    by (intros k s0 c m H0; exact H0).
  pose proof (keeps_visit (dsimplify_fn lemmas pf) J
                (configuration_frame (m_max_steps s) (m_visit_instances s))
                (proj1 (dsimplify_fn_keeps J pf HJ))
                (proj2 (dsimplify_fn_keeps J pf HJ))
                n 0%nat e (set_need_restart false s) (conj eq_refl eq_refl))
    as Hv.
  unfold J in Hv. clear HJ J.
  destruct (visit (dsimplify_fn lemmas pf) n e (set_need_restart false s))
    as [e' s1| |]; try discriminate.
  destruct (negb (m_need_restart s1)).
  - inversion H; subst. exact Hv.
  - apply IH in H. simpl in H. destruct H, Hv. split; congruence.
Qed.

(** X2: in visit-instances mode the restart flag is never set, so
    [operator()] of the rule applicator is one pass of [visit], whatever
    its outcome is. *)
Theorem dsimplify_fn_single_pass pf n e s :
  m_visit_instances s = true ->
  operator_call (dsimplify_fn lemmas pf) (S n) e s =
  visit (dsimplify_fn lemmas pf) n e (set_need_restart false s).
Proof.
  intros Hvi. simpl. unfold bind.
  set (J := fun (_ : nat) (s0 : dsimplify_core_fn) =>
              m_visit_instances s0 = true /\ m_need_restart s0 = false).
  assert (HJ : forall k s0 c m, J k s0 -> J k (set_ctx c (set_num_steps m s0)))
    by (intros k s0 c m H0; exact H0).
  pose proof (keeps_visit (dsimplify_fn lemmas pf) J no_restart_frame
                (proj1 (dsimplify_fn_keeps J pf HJ))
                (proj2 (dsimplify_fn_keeps J pf HJ))
                n 0%nat e (set_need_restart false s) (conj Hvi eq_refl))
    as Hv.
  unfold J in Hv. clear HJ J.
  destruct (visit (dsimplify_fn lemmas pf) n e (set_need_restart false s))
    as [e' s1| |]; try reflexivity.
  destruct Hv as [_ Hr]. now rewrite Hr.
Qed.

End AboutConfigurations.

Lemma dsimplify_fn_single_pass_witness :
  @operator_call (Tree.kernel Examples.st_restart)
     (@dsimplify_fn (Tree.kernel Examples.st_restart)
        (Tree.simp_lemmas Examples.st_restart) Examples.rules 10)
     6 Examples.app3 (Examples.fresh Examples.st_restart 100 true)
  = @visit (Tree.kernel Examples.st_restart)
     (@dsimplify_fn (Tree.kernel Examples.st_restart)
        (Tree.simp_lemmas Examples.st_restart) Examples.rules 10)
     5 Examples.app3
     (set_need_restart false (Examples.fresh Examples.st_restart 100 true)).
Proof.
  apply (@dsimplify_fn_single_pass (Tree.kernel Examples.st_restart)
           (Tree.simp_lemmas Examples.st_restart)).
  reflexivity.
Defined.

Lemma dsimplify_fn_keeps_configuration_witness :
  m_max_steps (Examples.fresh Tree.quiet 100 false) = 100 /\
  m_visit_instances (Examples.fresh Tree.quiet 100 false) = false.
Proof.
  destruct (@dsimplify_fn_keeps_configuration (Tree.kernel Tree.quiet)
              (Tree.simp_lemmas Tree.quiet) Examples.rules 10
              10%nat (Tree.tApp Examples.f Examples.a)
              (Examples.fresh Tree.quiet 100 false) _ _ eq_refl) as [H1 H2].
  split; reflexivity.
Defined.

(** ** The local-variable frame is released *)

Section Depth.
Context `{K : Kernel}.
Variable h : hooks.
Variable depth : type_context -> nat.
Hypothesis scoped : scoped_context depth.

Lemma depth_frame d0 :
  frame_invariant (fun k s => depth (m_ctx s) = (d0 + k)%nat).
Proof.
  constructor; simpl; intros.
  - assumption.
  - assumption.
  - rewrite (depth_push_local depth scoped). lia.
  - rewrite (depth_push_let depth scoped). lia.
  - rewrite (depth_pop_local depth scoped). lia.
  - now rewrite (depth_mk_pi depth scoped).
  - now rewrite (depth_mk_lambda depth scoped).
  - now rewrite (depth_get_fun_info depth scoped).
  - right. intros k s a Hs. simpl.
    now rewrite (depth_canonize depth scoped).
Qed.

(** X3: when the hooks leave the number of locals in scope as they
    found it, so does a returned [visit]: every local that the binder
    loops of [visit_binding] and [visit_let] pushed, at any depth of the
    recursion, has been popped again. *)
Theorem visit_releases_locals :
  (forall e s p s', pre h e s = Ret p s' -> depth (m_ctx s') = depth (m_ctx s)) ->
  (forall e s p s', post h e s = Ret p s' -> depth (m_ctx s') = depth (m_ctx s)) ->
  forall n e s r s',
    visit h n e s = Ret r s' -> depth (m_ctx s') = depth (m_ctx s).
Proof.
  intros Hpre Hpost n e s r s' H.
  assert (Hk : forall hk : expr -> M (option (expr * bool)),
            (forall e s p s', hk e s = Ret p s' ->
                              depth (m_ctx s') = depth (m_ctx s)) ->
            hook_keeps (fun k s0 => depth (m_ctx s0) = (depth (m_ctx s) + k)%nat) hk).
  { intros hk Hhk k e0 s0 Hs0. specialize (Hhk e0 s0).
    destruct (hk e0 s0) as [p s1| |]; auto.
    now rewrite (Hhk p s1 eq_refl). }
  pose proof (keeps_visit h _ (depth_frame (depth (m_ctx s)))
                (Hk _ Hpre) (Hk _ Hpost) n 0%nat e s) as Hv.
  simpl in Hv. rewrite H in Hv. rewrite Hv; lia.
Qed.

End Depth.

Lemma tree_scoped (st : Tree.stubs) :
  @scoped_context (Tree.kernel st) tree_depth.
Proof.
  constructor; unfold tree_depth; simpl; intros; try reflexivity.
  - destruct (Tree.scope c); reflexivity.
  - unfold Tree.t_defeq_canonize.
    destruct (Tree.canon_stub st (Tree.canon_calls c) a). reflexivity.
Qed.

Lemma table_hook_pure (st : Tree.stubs) t e s :
  exists p, Examples.table_hook st t e s = Ret p s.
Proof.
  induction t as [|[k r] t IH]; simpl.
  - eexists; reflexivity.
  - destruct (Tree.tm_eqb k e); [eexists; reflexivity|exact IH].
Qed.

Lemma visit_releases_locals_witness :
  exists r s',
    @visit (Tree.kernel Tree.quiet) Examples.h_dom 5 Examples.pi_a
       (Examples.fresh Tree.quiet 100 false) = Ret r s' /\
    tree_depth (m_ctx s') = 0%nat.
Proof.
  eexists. eexists. split; [reflexivity|].
  apply (@visit_releases_locals (Tree.kernel Tree.quiet) Examples.h_dom
           tree_depth (tree_scoped Tree.quiet)) with
    (n := 5%nat) (e := Examples.pi_a)
    (s := Examples.fresh Tree.quiet 100 false) (r := Examples.pi_a).
  - intros e s p s' H.
    destruct (table_hook_pure Tree.quiet [] e s) as [p' E].
    simpl in H, E. rewrite H in E. now inversion E.
  - intros e s p s' H.
    destruct (table_hook_pure Tree.quiet [(Examples.a, (Examples.b, false))] e s)
      as [p' E].
    change (post Examples.h_dom e s) with
      (Examples.table_hook Tree.quiet [(Examples.a, (Examples.b, false))] e s)
      in H.
    rewrite H in E. now inversion E.
  - reflexivity.
Defined.

(** ** The cache *)

Section Cache.
Context `{K : Kernel}.

Lemma cache_find_none c e :
  cache_find c e = None -> forall k v, In (k, v) c -> expr_eq k e = false.
Proof.
  induction c as [|[k0 v0] c IH]; simpl; intros H k v Hin; [contradiction|].
  destruct (expr_eq k0 e) eqn:E; [discriminate|].
  destruct Hin as [Heq|Hin]; [inversion Heq; subst; exact E|eauto].
Qed.

Lemma cache_find_some c e v :
  cache_find c e = Some v -> exists k, In (k, v) c /\ expr_eq k e = true.
Proof.
  induction c as [|[k0 v0] c IH]; simpl; [discriminate|].
  destruct (expr_eq k0 e) eqn:E.
  - intros H; inversion H; subst. exists k0. auto.
  - intros H. destruct (IH H) as (k & Hin & Hk). exists k. auto.
Qed.

Lemma cache_find_insert_same c e v :
  expr_eq e e = true -> cache_find (cache_insert c e v) e <> None.
Proof.
  intros Hr. unfold cache_insert.
  destruct (cache_find c e) eqn:E; [now rewrite E|].
  simpl. now rewrite Hr.
Qed.

Hypothesis expr_eq_sym : forall a b : expr, expr_eq a b = true -> expr_eq b a = true.
Hypothesis expr_eq_trans : forall a b c : expr,
  expr_eq a b = true -> expr_eq b c = true -> expr_eq a c = true.

Lemma cache_extends_insert c0 s e v :
  cache_extends c0 s ->
  cache_extends c0 (set_cache (cache_insert (m_cache s) e v) s).
Proof.
  intros H key w Hk. specialize (H key w Hk). simpl.
  unfold cache_insert.
  destruct (cache_find (m_cache s) e) eqn:E; [exact H|].
  simpl. destruct (expr_eq e key) eqn:Ee; [|exact H].
  exfalso. destruct (cache_find_some _ _ _ H) as (k & Hin & Hkk).
  pose proof (cache_find_none _ _ E k w Hin) as Hne.
  rewrite (expr_eq_trans k key e Hkk (expr_eq_sym e key Ee)) in Hne.
  discriminate.
Qed.

Lemma cache_extends_frame c0 : frame_invariant (fun _ s => cache_extends c0 s).
Proof.
  constructor; intros; try assumption.
  - now apply cache_extends_insert.
  - right. intros k s a Hs.
    destruct (defeq_canonize (m_ctx s) a (m_need_restart s)) as [[r fl] c].
    exact Hs.
Qed.

(** X4: [operator==] being symmetric and transitive, a returned [visit]
    with hooks that leave the cache alone has lost or replaced no cached
    result: whatever the cache answered before the visit, it answers
    after it. *)
Theorem visit_preserves_cached_results (h : hooks) :
  (forall e s p s', pre h e s = Ret p s' -> m_cache s' = m_cache s) ->
  (forall e s p s', post h e s = Ret p s' -> m_cache s' = m_cache s) ->
  forall n e s r s',
    visit h n e s = Ret r s' ->
    forall key v, cache_find (m_cache s) key = Some v ->
                  cache_find (m_cache s') key = Some v.
Proof.
  intros Hpre Hpost n e s r s' H.
  assert (Hk : forall hk : expr -> M (option (expr * bool)),
            (forall e s p s', hk e s = Ret p s' -> m_cache s' = m_cache s) ->
            hook_keeps (fun _ s0 => cache_extends (m_cache s) s0) hk).
  { intros hk Hhk k e0 s0 Hs0. specialize (Hhk e0 s0).
    destruct (hk e0 s0) as [p s1| |]; auto.
    unfold cache_extends. now rewrite (Hhk p s1 eq_refl). }
  pose proof (keeps_visit h _ (cache_extends_frame (m_cache s))
                (Hk _ Hpre) (Hk _ Hpost) n 0%nat e s) as Hv.
  simpl in Hv. rewrite H in Hv. apply Hv. intros key v Hkv. exact Hkv.
Qed.

End Cache.

Section Memo.
Context `{K : Kernel}.
Variable h : hooks.
Hypothesis expr_eq_refl : forall e : expr, expr_eq e e = true.

Lemma insert_then_ret e v s0 r s' :
  (insert_cache e v ;;; ret v) s0 = Ret r s' ->
  cache_find (m_cache s') e <> None.
Proof.
  unfold bind, insert_cache, ret. intros H. inversion H; subst. simpl.
  apply cache_find_insert_same. apply expr_eq_refl.
Qed.

Lemma visit_leaves_entry n e s r s' :
  visit h n e s = Ret r s' -> cache_find (m_cache s') e <> None.
Proof.
  destruct n as [|n]; [discriminate|]. simpl.
  unfold bind at 1, check_system_m.
  destruct (check_system (m_ctx s)); [discriminate|].
  unfold bind at 1.
  destruct (inc_num_steps s) as [[] s1| |] eqn:E; try discriminate.
  destruct (cache_find (m_cache s1) e) as [r0|] eqn:Ef.
  - intros H; inversion H; subst. now rewrite Ef.
  - unfold bind at 1.
    destruct (pre h e s1) as [p s2| |]; try discriminate.
    assert (Hloop : (curr_e <- visit_loop h (visit h n) n n e ;;
                     insert_cache e curr_e ;;; ret curr_e) s2 = Ret r s' ->
                    cache_find (m_cache s') e <> None).
    { unfold bind at 1.
      destruct (visit_loop h (visit h n) n n e s2) as [curr s3| |];
        try discriminate.
      apply insert_then_ret. }
    destruct p as [[r0 [|]]|]; auto. apply insert_then_ret.
Qed.

(** X5: [operator==] being reflexive, a returned [visit] leaves a
    result cached for its input, and an immediate second visit of the
    same input - with no interruption and below the ceiling - returns
    that result after one accounted step, with no other change of state:
    no hook is called and nothing is visited. *)
Theorem visit_memoizes n e s r s' :
  visit h n e s = Ret r s' ->
  exists r',
    cache_find (m_cache s') e = Some r' /\
    forall m,
      check_system (m_ctx s') = None ->
      0 <= m_num_steps s' < m_max_steps s' ->
      m_max_steps s' <= UINT_MAX ->
      visit h (S m) e s' = Ret r' (set_num_steps (m_num_steps s' + 1) s').
Proof.
  intros H. apply visit_leaves_entry in H.
  destruct (cache_find (m_cache s') e) as [r'|] eqn:E; [|contradiction].
  exists r'. split; [reflexivity|].
  intros m Hc Hn Hm. now apply visit_cache_hit.
Qed.

End Memo.

(** Structural equality on the reference kernel is equality. *)
Lemma tm_eqb_eq : forall a b : Tree.tm, Tree.tm_eqb a b = true -> a = b.
Proof.
  induction a as [i|u|c0|m t IHt|i x t IHt|f a IHf IHa|x d b IHd IHb
                 |x d b IHd IHb|x t v b IHt IHv IHb|m l IHl]
    using TreeFacts.tm_induction; intros [] H; simpl in H; try discriminate;
    repeat match goal with
           | H : _ && _ = true |- _ => apply andb_true_iff in H; destruct H
           | H : Nat.eqb _ _ = true |- _ => apply Nat.eqb_eq in H; subst
           | H : String.eqb _ _ = true |- _ => apply String.eqb_eq in H; subst
           end;
    try reflexivity;
    try (f_equal; auto).
  match goal with H : _ = true |- l = ?x => rename H into Hl; revert x Hl end.
  induction IHl as [|y l Hy _ IHa]; intros [|z args] Hl;
    try discriminate; try reflexivity.
  apply andb_true_iff in Hl. destruct Hl as [H1 H2].
  f_equal; [now apply Hy|now apply IHa].
Qed.

Lemma visit_preserves_cached_results_witness :
  exists r s',
    @visit (Tree.kernel Tree.quiet) Examples.h_dom 5 Examples.pi_a
      (@mk_core (Tree.kernel Tree.quiet) Tree.empty_tctx
         [(Examples.b, Examples.c)] 0 false 100 false) = Ret r s' /\
    @cache_find (Tree.kernel Tree.quiet) (m_cache s') Examples.b
      = Some Examples.c.
Proof.
  eexists. eexists. split; [reflexivity|].
  apply (@visit_preserves_cached_results (Tree.kernel Tree.quiet))
    with (h := Examples.h_dom) (n := 5%nat) (e := Examples.pi_a)
         (s := @mk_core (Tree.kernel Tree.quiet) Tree.empty_tctx
                 [(Examples.b, Examples.c)] 0 false 100 false)
         (r := Examples.pi_a).
  - intros a b H. simpl in *. apply tm_eqb_eq in H. subst. apply tm_eqb_refl.
  - intros a b c H1 H2. simpl in *. apply tm_eqb_eq in H1. now subst.
  - intros e s p s' H.
    destruct (table_hook_pure Tree.quiet [] e s) as [p' E].
    simpl in H, E. rewrite H in E. now inversion E.
  - intros e s p s' H.
    destruct (table_hook_pure Tree.quiet [(Examples.a, (Examples.b, false))] e s)
      as [p' E].
    change (post Examples.h_dom e s) with
      (Examples.table_hook Tree.quiet [(Examples.a, (Examples.b, false))] e s)
      in H.
    rewrite H in E. now inversion E.
  - reflexivity.
  - reflexivity.
Defined.

Lemma visit_memoizes_witness :
  exists r',
    @cache_find (Tree.kernel Tree.quiet)
      [(Examples.a, Examples.d); (Examples.b, Examples.c)] Examples.a
    = Some r'.
Proof.
  destruct (@visit_memoizes (Tree.kernel Tree.quiet) Examples.h_post
              tm_eqb_refl 4%nat Examples.a
              (Examples.fresh Tree.quiet 100 false) Examples.d
              (@mk_core (Tree.kernel Tree.quiet) Tree.empty_tctx
                 [(Examples.a, Examples.d); (Examples.b, Examples.c)]
                 2 false 100 false) eq_refl) as [r' [E _]].
  exists r'. exact E.
Defined.

(** ** The rule applicator runs to an end below the ceiling *)

Section Paced.
Context `{K : Kernel}.
Variable N : Z.
Hypothesis N_small : N < UINT_MAX.
Variable h : hooks.
Variable B : nat.
Hypothesis h_paced : paced N h B.

Lemma advances_visit_loop_paced (v : expr -> M expr) (n : nat) :
  (n <= B)%nat ->
  (forall c e, N - c < Z.of_nat n -> advances N c (c + 1) (v e)) ->
  forall m e c, N - c < Z.of_nat n -> N - c < Z.of_nat m ->
    advances N c c (visit_loop h v n m e).
Proof.
  intros HnB Hv. induction m as [|m IH]; intros e c Hc Hm.
  - apply advances_vacuous. simpl in Hm. lia.
  - intros s Hs. simpl. unfold bind at 1.
    pose proof (advances_visit_children N v n Hv e c Hc s Hs) as Hch.
    destruct (visit_children v n e s) as [new_e s1| |]; auto.
    unfold bind at 1.
    pose proof (proj2 (h_paced c new_e ltac:(lia)) s1 Hch) as Hp.
    destruct (post h new_e s1) as [p s2| |]; auto.
    destruct p as [[r [|]]|]; try exact Hp.
    assert (Hm' : N - (c + 1) < Z.of_nat m) by lia.
    pose proof (IH r (c + 1) ltac:(lia) Hm' s2 Hp) as Hr.
    destruct (visit_loop h v n m r s2); auto.
    unfold counted in *. lia.
Qed.

Lemma advances_visit_paced : forall n, (n <= B)%nat -> forall c e,
  N - c < Z.of_nat n -> advances N c (c + 1) (visit h n e).
Proof.
  induction n as [|n IH]; intros HnB c e Hc.
  - apply advances_vacuous. simpl in Hc. lia.
  - simpl.
    eapply advances_bind; [apply advances_check_system|]. intros ?.
    eapply advances_bind; [now apply advances_inc|]. intros ?.
    intros s Hs. destruct (cache_find (m_cache s) e); [exact Hs|].
    revert s Hs.
    fold (advances N (c + 1) (c + 1)
            (p1 <- pre h e ;;
             match p1 with
             | Some (r, false) => insert_cache e r ;;; ret r
             | _ => curr_e <- visit_loop h (visit h n) n n e ;;
                    insert_cache e curr_e ;;; ret curr_e
             end)).
    destruct (Z_lt_ge_dec N (c + 1)) as [Hover|Hin];
      [now apply advances_vacuous|].
    eapply advances_bind; [apply (h_paced (c + 1) e); lia|].
    assert (Hloop : advances N (c + 1) (c + 1)
              (curr_e <- visit_loop h (visit h n) n n e ;;
               insert_cache e curr_e ;;; ret curr_e)).
    { eapply advances_bind.
      - apply advances_visit_loop_paced; try lia.
        intros c0 e0 Hc0. apply IH; lia.
      - intros curr_e. eapply advances_bind; [apply advances_insert_cache|].
        intros; apply advances_ret. }
    intros [[r [|]]|]; auto.
    eapply advances_bind; [apply advances_insert_cache|].
    intros; apply advances_ret.
Qed.

Lemma operator_call_paced : forall n, (n <= S B)%nat -> forall c e s,
  N - c + 1 < Z.of_nat n -> counted N c s ->
  match operator_call h n e s with
  | Ret _ s' => counted N (c + 1) s'
  | Throw _ => True
  | Timeout => False
  end.
Proof.
  induction n as [|n IH]; intros HnB c e s Hc Hs.
  - destruct Hs as (_ & _ & Hs). simpl in Hc. lia.
  - simpl. unfold bind.
    assert (Hs0 : counted N c (set_need_restart false s)) by exact Hs.
    pose proof (advances_visit_paced n ltac:(lia) c e ltac:(lia) _ Hs0) as Hv.
    destruct (visit h n e (set_need_restart false s)) as [e' s1| |]; auto.
    destruct (negb (m_need_restart s1)); [exact Hv|].
    assert (Hs1 : counted N (c + 1) (set_cache [] s1)) by exact Hv.
    pose proof (IH ltac:(lia) (c + 1) e' _ ltac:(lia) Hs1) as Hr.
    destruct (operator_call h n e' (set_cache [] s1)); auto.
    unfold counted in *. lia.
Qed.

End Paced.

Section ApplicatorTerminates.
Context `{K : Kernel} {L : SimpLemmas}.
Variable lemmas : simp_lemmas_for.
Variable N : Z.
Hypothesis N_small : N < UINT_MAX.

Lemma advances_rewrite_first_refl ls e c :
  advances N c c (rewrite_first_refl ls e).
Proof.
  induction ls as [|sl ls IH]; simpl; [apply advances_ret|].
  destruct (is_refl sl); [apply advances_with_ctx|exact IH].
Qed.

Lemma advances_post_loop : forall pf curr c,
  N - c < Z.of_nat pf -> advances N c (c + 1) (post_loop lemmas pf curr).
Proof.
  induction pf as [|pf IH]; intros curr c Hc.
  - apply advances_vacuous. simpl in Hc. lia.
  - simpl.
    eapply advances_bind; [apply advances_check_system|]. intros ?.
    eapply advances_bind; [now apply advances_inc|]. intros ?.
    destruct (find lemmas curr) as [ls|]; [|apply advances_ret].
    eapply advances_bind; [apply advances_rewrite_first_refl|].
    intros new_e. destruct (expr_eq new_e curr); [apply advances_ret|].
    apply advances_weaken with (c1 := c + 1 + 1); [lia|].
    apply IH. lia.
Qed.

Lemma dsimplify_fn_paced pf : paced N (dsimplify_fn lemmas pf) pf.
Proof.
  intros c e Hc. split; [apply advances_ret|].
  intros s Hs. simpl. unfold dsimplify_fn_post, bind.
  pose proof (advances_post_loop pf e c Hc s Hs) as Hp.
  destruct (post_loop lemmas pf e s) as [curr s1| |]; auto.
  destruct (expr_eq curr e); [|exact Hp].
  unfold ret, counted in *. lia.
Qed.

(** X6: for a ceiling [N] below the largest [unsigned], [operator()] of
    the rule applicator on a fresh object runs to an end, whatever the
    rules, the kernel and the root are: with fuel [N + 2] it throws or it
    returns, and when it returns the counter shows at least one and at
    most [N] accounted steps under the unchanged ceiling.  (With [N = 0]
    it can only throw.) *)
Theorem dsimplify_fn_runs_to_an_end (ctx : type_context)
    (visit_instances : bool) (e : expr) (fuel pf : nat) :
  0 <= N ->
  (Z.to_nat N + 2 <= fuel)%nat -> (fuel <= S pf)%nat ->
  match operator_call (dsimplify_fn lemmas pf) fuel e
          (new_dsimplify_core_fn ctx N visit_instances) with
  | Ret _ s' => 1 <= m_num_steps s' <= N /\ m_max_steps s' = N
  | Throw _ => True
  | Timeout => False
  end.
Proof.
  intros HN Hf Hpf.
  pose proof (operator_call_paced N N_small (dsimplify_fn lemmas pf) pf
                (dsimplify_fn_paced pf) fuel Hpf 0 e
                (new_dsimplify_core_fn ctx N visit_instances)) as H.
  assert (Hc : counted N 0 (new_dsimplify_core_fn ctx N visit_instances))
    by (unfold counted; simpl; lia).
  specialize (H ltac:(lia) Hc).
  destruct (operator_call (dsimplify_fn lemmas pf) fuel e
              (new_dsimplify_core_fn ctx N visit_instances)); auto.
  unfold counted in H. lia.
Qed.

End ApplicatorTerminates.

Lemma dsimplify_fn_runs_to_an_end_witness :
  match @operator_call (Tree.kernel Tree.quiet)
          (@dsimplify_fn (Tree.kernel Tree.quiet) (Tree.simp_lemmas Tree.quiet)
             Examples.rules 12) 12 (Tree.tApp Examples.f Examples.a)
          (Examples.fresh Tree.quiet 10 false) with
  | Ret _ s' => 1 <= m_num_steps s' <= 10 /\ m_max_steps s' = 10
  | Throw _ => True
  | Timeout => False
  end.
Proof.
  apply (@dsimplify_fn_runs_to_an_end (Tree.kernel Tree.quiet)
           (Tree.simp_lemmas Tree.quiet) Examples.rules 10).
  - unfold UINT_MAX. lia.
  - lia.
  - simpl. lia.
  - lia.
Defined.

(** ** The restart flag after [operator()] *)

(** X7: [operator()] returns only with the restart flag unset, whatever
    the hooks and the canonicalizer did to it on the way. *)
Theorem operator_call_returns_flag_unset `{K : Kernel} (h : hooks) :
  forall n e s r s',
    operator_call h n e s = Ret r s' -> m_need_restart s' = false.
Proof.
  induction n as [|n IH]; intros e s r s' H; [discriminate|].
  simpl in H. unfold bind in H.
  destruct (visit h n e (set_need_restart false s)) as [e' s1| |];
    try discriminate.
  destruct (m_need_restart s1) eqn:F; simpl in H.
  - eapply IH; eauto.
  - inversion H; subst. exact F.
Qed.

Lemma operator_call_returns_flag_unset_witness :
  exists s',
    @operator_call (Tree.kernel Examples.st_restart) Examples.h_restart 5
       (Tree.tApp Examples.f Examples.a)
       (@mk_core (Tree.kernel Examples.st_restart) Tree.empty_tctx [] 0 true
          100 false) = Ret Examples.c s' /\
    m_need_restart s' = false.
Proof.
  eexists. split; [reflexivity|].
  apply (@operator_call_returns_flag_unset (Tree.kernel Examples.st_restart)
           Examples.h_restart 5%nat (Tree.tApp Examples.f Examples.a)
           (@mk_core (Tree.kernel Examples.st_restart) Tree.empty_tctx [] 0 true
              100 false) Examples.c).
  reflexivity.
Defined.

(** ** Macros *)

Section Macros.
Context `{K : Kernel}.
Variable v : expr -> M expr.

Lemma visit_macro_args_each e : forall n i acc s,
  visit_macro_args v e i n acc s =
  (xs <- visit_each v (map (macro_arg e) (seq i n)) ;; ret (acc ++ xs)) s.
Proof.
  induction n as [|n IH]; intros i acc s; simpl.
  - unfold bind, ret. now rewrite app_nil_r.
  - rewrite bind_assoc_at. apply bind_cong_at. intros a s1.
    rewrite IH, bind_assoc_at. apply bind_cong_at. intros xs s2.
    unfold bind, ret. now rewrite <- app_assoc.
Qed.

Lemma visit_each_length : forall l s xs s',
  visit_each v l s = Ret xs s' -> length xs = length l.
Proof.
  induction l as [|a l IH]; intros s xs s' H; simpl in H.
  - inversion H. reflexivity.
  - unfold bind in H. destruct (v a s) as [x s1| |]; try discriminate.
    destruct (visit_each v l s1) as [ys s2| |] eqn:E; try discriminate.
    inversion H; subst. simpl. f_equal. eapply IH; eauto.
Qed.

(** X8: [visit_macro] visits the children [macro_arg e 0], ...,
    [macro_arg e (n - 1)] in this order, each once, and hands
    [update_macro] the results in the same order; so when it returns, the
    node was updated with exactly [macro_num_args e] arguments (none, and
    no visit at all, for a macro without children). *)
Theorem visit_macro_in_order (e : expr) (s : dsimplify_core_fn) :
  visit_macro v e s =
    (new_args <- visit_each v (map (macro_arg e) (seq 0 (macro_num_args e))) ;;
     ret (update_macro e new_args)) s /\
  match visit_macro v e s with
  | Ret r _ => exists new_args,
      r = update_macro e new_args /\ length new_args = macro_num_args e
  | _ => True
  end.
Proof.
  assert (E : visit_macro v e s =
    (new_args <- visit_each v (map (macro_arg e) (seq 0 (macro_num_args e))) ;;
     ret (update_macro e new_args)) s).
  { unfold visit_macro, bind. rewrite visit_macro_args_each. unfold bind.
    destruct (visit_each v (map (macro_arg e) (seq 0 (macro_num_args e))) s);
      reflexivity. }
  split; [exact E|]. rewrite E. unfold bind.
  destruct (visit_each v (map (macro_arg e) (seq 0 (macro_num_args e))) s)
    as [xs s1| |] eqn:Ee; auto.
  exists xs. split; [reflexivity|].
  apply visit_each_length in Ee. now rewrite Ee, length_map, length_seq.
Qed.

End Macros.

(** ** Applications, in both modes *)

Section ApplicationsAgain.
Context `{K : Kernel}.
Variable v : expr -> M expr.

Lemma visit_app_all_visited e s :
  m_visit_instances s = true ->
  visit_app v e s =
  ('(new_args, changed) <- visit_args_positional v [] (snd (get_app_args e)) ;;
   if changed then ret (mk_app (fst (get_app_args e)) new_args) else ret e) s.
Proof.
  intros Hvi. unfold visit_app. destruct (get_app_args e) as [f args]. simpl.
  unfold bind at 1. rewrite Hvi. simpl negb. cbv iota. unfold ret at 1.
  rewrite Nat.sub_0_r.
  pose proof (visit_app_rest_positional v args [] false s) as E. simpl in E.
  unfold bind in E |- *. rewrite E.
  destruct (visit_args_positional v [] args s) as [[new_args ch] s1| |];
    reflexivity.
Qed.

Lemma visit_app_classified e s :
  m_visit_instances s = false ->
  (length (fst (get_fun_info (m_ctx s) (fst (get_app_args e))
                  (length (snd (get_app_args e)))))
   <= length (snd (get_app_args e)))%nat ->
  visit_app v e s =
  ('(new_args, changed) <-
      visit_args_positional v
        (fst (get_fun_info (m_ctx s) (fst (get_app_args e))
                (length (snd (get_app_args e)))))
        (snd (get_app_args e)) ;;
   if changed then ret (mk_app (fst (get_app_args e)) new_args) else ret e)
    (set_ctx (snd (get_fun_info (m_ctx s) (fst (get_app_args e))
                     (length (snd (get_app_args e))))) s).
Proof.
  intros Hvi Hlen. unfold visit_app.
  destruct (get_app_args e) as [f args]. simpl in *.
  unfold bind at 1. rewrite Hvi. simpl negb. cbv iota.
  unfold bind at 1, with_ctx.
  destruct (get_fun_info (m_ctx s) f (length args)) as [info c]. simpl in *.
  pose proof (visit_app_loops_positional v info args [] false (set_ctx c s) Hlen)
    as E.
  simpl in E. unfold bind in E |- *.
  destruct (visit_app_params v info 0 args false (set_ctx c s))
    as [[[i args1] m1] s1| |].
  - rewrite E.
    destruct (visit_args_positional v info args (set_ctx c s))
      as [[new_todo ch] s2| |]; reflexivity.
  - destruct (visit_args_positional v info args (set_ctx c s))
      as [[new_todo ch] s2| |]; try discriminate; now inversion E.
  - destruct (visit_args_positional v info args (set_ctx c s))
      as [[new_todo ch] s2| |]; try discriminate; reflexivity.
Qed.

Lemma visit_args_positional_result : forall args pinfos s new_args changed s',
  visit_args_positional v pinfos args s = Ret (new_args, changed) s' ->
  length new_args = length args /\ changed = negb (all_eq new_args args).
Proof.
  induction args as [|a args IH]; intros pinfos s new_args changed s' H;
    simpl in H.
  - inversion H. split; reflexivity.
  - unfold bind at 1 in H.
    destruct ((match pinfos with
               | [] => v a
               | p :: _ => if is_inst_implicit p then defeq_canonize_m a else v a
               end) s) as [new_a s1| |]; try discriminate.
    unfold bind in H.
    destruct (visit_args_positional v (tl pinfos) args s1)
      as [[new_rest ch] s2| |] eqn:E; try discriminate.
    inversion H; subst. destruct (IH _ _ _ _ _ E) as [Hl Hc]. subst ch.
    simpl. split; [now rewrite Hl|].
    now rewrite negb_andb.
Qed.

(** X9: in visit-instances mode [visit_app] asks neither the classifier
    nor the canonicalizer: every argument is visited, first to last, and
    the node is rebuilt if some result differs from its argument. *)
Theorem visit_app_visits_every_argument (e : expr) (s : dsimplify_core_fn) :
  m_visit_instances s = true ->
  visit_app v e s =
  ('(new_args, changed) <- visit_args_positional v [] (snd (get_app_args e)) ;;
   if changed then ret (mk_app (fst (get_app_args e)) new_args) else ret e) s.
Proof. apply visit_app_all_visited. Qed.

(** X10: in either mode (the classifier reporting no more parameters
    than there are arguments when it is asked), a returned [visit_app]
    has produced one new argument per argument; it returns the original
    node itself when every new argument is [==] to the one it replaces,
    and [mk_app] of the head and the new arguments otherwise. *)
Theorem visit_app_shares_unchanged (e : expr) (s : dsimplify_core_fn)
    (r : expr) (s' : dsimplify_core_fn) :
  (m_visit_instances s = false ->
   (length (fst (get_fun_info (m_ctx s) (fst (get_app_args e))
                   (length (snd (get_app_args e)))))
    <= length (snd (get_app_args e)))%nat) ->
  visit_app v e s = Ret r s' ->
  exists new_args,
    length new_args = length (snd (get_app_args e)) /\
    r = if all_eq new_args (snd (get_app_args e)) then e
        else mk_app (fst (get_app_args e)) new_args.
Proof.
  intros Hlen H.
  assert (Hpos : exists pinfos s0,
            ('(new_args, changed) <-
                visit_args_positional v pinfos (snd (get_app_args e)) ;;
             if changed then ret (mk_app (fst (get_app_args e)) new_args)
             else ret e) s0 = Ret r s').
  { destruct (m_visit_instances s) eqn:Evi.
    - rewrite visit_app_all_visited in H by assumption. eauto.
    - rewrite visit_app_classified in H by auto. eauto. }
  destruct Hpos as (pinfos & s0 & Hp). unfold bind in Hp.
  destruct (visit_args_positional v pinfos (snd (get_app_args e)) s0)
    as [[new_args ch] s1| |] eqn:E; try discriminate.
  destruct (visit_args_positional_result _ _ _ _ _ _ E) as [Hl Hc].
  exists new_args. split; [exact Hl|]. subst ch.
  destruct (all_eq new_args (snd (get_app_args e))); simpl in Hp;
    now inversion Hp.
Qed.

End ApplicationsAgain.

Lemma visit_app_visits_every_argument_witness :
  returned (@visit_app (Tree.kernel Examples.st_inst)
              (@visit (Tree.kernel Examples.st_inst) Examples.h_inst 4)
              Examples.app3 (Examples.fresh Examples.st_inst 100 true))
  = Some (Tree.tApp (Tree.tApp (Tree.tApp Examples.f Examples.a) Examples.c)
            Examples.c).
Proof.
  rewrite (@visit_app_visits_every_argument (Tree.kernel Examples.st_inst))
    by reflexivity.
  reflexivity.
Defined.

Lemma visit_app_shares_unchanged_witness :
  exists new_args,
    length new_args = 3%nat /\
    Examples.app3 =
    if @all_eq (Tree.kernel Tree.quiet) new_args
         [Examples.a; Examples.b; Examples.b]
    then Examples.app3 else Tree.t_mk_app Examples.f new_args.
Proof.
  apply (@visit_app_shares_unchanged (Tree.kernel Tree.quiet)
           (@visit (Tree.kernel Tree.quiet) core_hooks 4) Examples.app3
           (Examples.fresh Tree.quiet 100 false) Examples.app3
           (@mk_core (Tree.kernel Tree.quiet) Tree.empty_tctx
              [(Examples.b, Examples.b); (Examples.a, Examples.a)]
              3 false 100 false)).
  - intros _. simpl. lia.
  - reflexivity.
Defined.

(** ** Let chains *)

Section Lets.
Context `{K : Kernel}.

(** X11: at each step of a let chain [visit_let] visits the instantiated
    type and the instantiated value, in this order, and pushes a local
    that carries the instantiated type and value themselves, not the
    visited ones; the flag records whether a visited type or value is
    another node.  When the chain is over, the node is rebuilt by
    [mk_lambda] over the frame if the flag is set or the visited body is
    another node than the instantiated body, and the original node is
    returned otherwise. *)
Theorem visit_let_frame_and_rebuild (v : expr -> M expr) (fuel : nat) :
  (forall n b locals modified s new_t s1 new_v s2 l c,
     is_let b = true ->
     v (instantiate_rev (let_type b) locals) s = Ret new_t s1 ->
     v (instantiate_rev (let_value b) locals) s1 = Ret new_v s2 ->
     push_let (m_ctx s2) (let_name b)
       (instantiate_rev (let_type b) locals)
       (instantiate_rev (let_value b) locals) = (l, c) ->
     visit_let_loop v (S n) b locals modified s =
     visit_let_loop v n (let_body b) (locals ++ [l])
       (if negb (is_eqp (instantiate_rev (let_type b) locals) new_t)
           || negb (is_eqp (instantiate_rev (let_value b) locals) new_v)
        then true else modified)
       (set_ctx c s2))
  /\
  (forall e s b locals modified s1 new_b s2,
     visit_let_loop v fuel e [] false s = Ret (b, locals, modified) s1 ->
     v (instantiate_rev b locals) s1 = Ret new_b s2 ->
     exists s3,
       visit_let v fuel e s =
       Ret (if modified || negb (is_eqp (instantiate_rev b locals) new_b)
            then fst (mk_lambda (m_ctx s2) locals new_b)
            else e) s3).
Proof.
  split.
  - intros n b locals modified s new_t s1 new_v s2 l c Hk Ht Hv Hp.
    simpl. rewrite Hk. unfold bind at 1. rewrite Ht.
    unfold bind at 1. rewrite Hv.
    unfold bind at 1, with_ctx at 1. rewrite Hp. reflexivity.
  - intros e s b locals modified s1 new_b s2 Hl Hv.
    unfold visit_let. unfold bind at 1. rewrite Hl.
    unfold bind at 1. rewrite Hv.
    rewrite (flag_or modified
               (negb (is_eqp (instantiate_rev b locals) new_b))).
    destruct (modified || negb (is_eqp (instantiate_rev b locals) new_b)).
    + unfold bind at 1, with_ctx.
      destruct (mk_lambda (m_ctx s2) locals new_b) as [r c]. simpl.
      unfold bind.
      destruct (pop_locals_returns (length locals) (set_ctx c s2)) as [s3 E].
      rewrite E. eexists; reflexivity.
    + unfold bind, ret.
      destruct (pop_locals_returns (length locals) s2) as [s3 E].
      rewrite E. eexists; reflexivity.
Qed.

End Lets.

Lemma visit_let_frame_and_rebuild_witness :
  returned (@visit_let_loop (Tree.kernel Tree.quiet)
              (@visit (Tree.kernel Tree.quiet) Examples.h_dom 3) 1
              (Tree.tLet "x" Examples.a Examples.a (Tree.tVar 0)) [] false
              (Examples.fresh Tree.quiet 100 false))
    = Some (Tree.tVar 0, [Tree.tLocal 0 "x" Examples.a], true).
Proof.
  rewrite (proj1 (@visit_let_frame_and_rebuild (Tree.kernel Tree.quiet)
                    (@visit (Tree.kernel Tree.quiet) Examples.h_dom 3) 3)
             0%nat (Tree.tLet "x" Examples.a Examples.a (Tree.tVar 0))
             [] false (Examples.fresh Tree.quiet 100 false)
             Examples.b _ Examples.b _ _ _
             eq_refl eq_refl eq_refl eq_refl).
  reflexivity.
Defined.

(** With a post-hook that simplifies [a] to [b], the let
    [let x : a := a in x] is flagged as modified and rebuilt, and the
    rebuilt node still has the type and the value [a]. *)
Example visit_let_rebuilds_with_original_type_and_value :
  returned (@visit_let (Tree.kernel Tree.quiet)
              (@visit (Tree.kernel Tree.quiet) Examples.h_dom 3) 3
              (Tree.tLet "x" Examples.a Examples.a (Tree.tVar 0))
              (Examples.fresh Tree.quiet 100 false))
  = Some (Tree.tLet "x" Examples.a Examples.a (Tree.tVar 0)).
Proof. reflexivity. Qed.

(** ** The answer of the rule applicator is a fixed point *)

Section FixedPoint.
Context `{K : Kernel} {L : SimpLemmas}.
Variable lemmas : simp_lemmas_for.
Hypothesis expr_eq_refl : forall e : expr, expr_eq e e = true.
Hypothesis rewrite_stable : forall c c' e sl,
  fst (refl_lemma_rewrite c e sl) = fst (refl_lemma_rewrite c' e sl).

Lemma stuck_no_step curr c c' c0 e1 c1 :
  rewrite_stuck lemmas curr c c' ->
  rewrite_step lemmas curr c0 e1 c1 -> False.
Proof.
  intros Hs Hstep. inversion Hstep as [? ? ls sl new_e ? Hf Hr Hw Hne]; subst.
  inversion Hs as [? ? Hf'|? ? ls' Hf' Hr'|? ? ls' sl' new' ? Hf' Hr' Hw' He'];
    subst; rewrite Hf in Hf'; try discriminate.
  - inversion Hf'; subst. rewrite Hr in Hr'. discriminate.
  - inversion Hf'; subst. rewrite Hr in Hr'. inversion Hr'; subst.
    pose proof (rewrite_stable c c0 curr sl') as E.
    rewrite Hw, Hw' in E. simpl in E. subst. rewrite He' in Hne.
    discriminate.
Qed.

(** X12: [operator==] being reflexive and the result of a rewrite not
    depending on the type context, whenever [dsimplify_fn::post] answers
    [(curr, true)], a further call on [curr] that returns answers
    nothing, after exactly one accounted step. *)
Theorem dsimplify_fn_post_answer_is_stuck fuel e s curr s' :
  dsimplify_fn_post lemmas fuel e s = Ret (Some (curr, true)) s' ->
  forall fuel2 res2 s2,
    dsimplify_fn_post lemmas fuel2 curr s' = Ret res2 s2 ->
    res2 = None /\ m_num_steps s2 = wrap (m_num_steps s' + 1).
Proof.
  intros H fuel2 res2 s2 H2.
  unfold dsimplify_fn_post, bind in H, H2.
  destruct (post_loop lemmas fuel e s) as [curr0 s0| |] eqn:E1;
    try discriminate.
  assert (curr0 = curr /\ s0 = s') as [-> ->].
  { destruct (expr_eq curr0 e); inversion H; auto. }
  apply (post_loop_sound lemmas expr_eq_refl) in E1.
  destruct E1 as (k & c & _ & Hstuck & _).
  destruct (post_loop lemmas fuel2 curr s') as [r2 s3| |] eqn:E2;
    try discriminate.
  apply (post_loop_sound lemmas expr_eq_refl) in E2.
  destruct E2 as (k2 & c2 & Hchain & _ & _ & Hn & _).
  inversion Hchain as [|? ? ? e1 c1 ? ? Hstep _]; subst.
  - rewrite expr_eq_refl in H2. inversion H2; subst. split; [reflexivity|].
    exact Hn.
  - exfalso. eapply stuck_no_step; eauto.
Qed.

End FixedPoint.

Lemma dsimplify_fn_post_answer_is_stuck_witness :
  exists s2,
    @dsimplify_fn_post (Tree.kernel Tree.quiet) (Tree.simp_lemmas Tree.quiet)
      Examples.rules 10 (Tree.tApp (Tree.tConst "h") Examples.a)
      (@mk_core (Tree.kernel Tree.quiet) Tree.empty_tctx [] 3 false 100 false)
    = Ret None s2 /\ m_num_steps s2 = 4.
Proof.
  eexists. split; [reflexivity|].
  apply (@dsimplify_fn_post_answer_is_stuck (Tree.kernel Tree.quiet)
           (Tree.simp_lemmas Tree.quiet) Examples.rules tm_eqb_refl
           (fun _ _ _ _ => eq_refl)
           10%nat (Tree.tApp Examples.f Examples.a)
           (Examples.fresh Tree.quiet 100 false)
           (Tree.tApp (Tree.tConst "h") Examples.a)
           (@mk_core (Tree.kernel Tree.quiet) Tree.empty_tctx [] 3 false 100 false)
           eq_refl 10%nat None).
  reflexivity.
Defined.

(** ** What [visit] returns when the post-hook is silent *)

(** X13: when the post-hook answers nothing on the node rebuilt in the
    first round of the loop, [visit] leaves the loop with [curr_e] still
    the node it was given: it returns and caches [e] itself, whatever the
    visits of the children made of the rebuilt node. *)
Theorem visit_returns_original_when_post_is_silent `{K : Kernel} (h : hooks)
    n e s s1 p s2 new_e s3 s4 :
  check_system (m_ctx s) = None ->
  inc_num_steps s = Ret tt s1 ->
  cache_find (m_cache s1) e = None ->
  pre h e s1 = Ret p s2 ->
  (forall r, p <> Some (r, false)) ->
  visit_children (visit h (S n)) (S n) e s2 = Ret new_e s3 ->
  post h new_e s3 = Ret None s4 ->
  visit h (S (S n)) e s =
  Ret e (set_cache (cache_insert (m_cache s4) e e) s4).
Proof.
  intros Hc Hi Hf Hp Hnp Hch Hpost.
  change (visit h (S (S n)) e s) with
    ((check_system_m ;;; inc_num_steps ;;;
      fun s0 =>
        match cache_find (m_cache s0) e with
        | Some r => Ret r s0
        | None =>
            (p1 <- pre h e ;;
             match p1 with
             | Some (r, false) => insert_cache e r ;;; ret r
             | _ => curr_e <- visit_loop h (visit h (S n)) (S n) (S n) e ;;
                    insert_cache e curr_e ;;; ret curr_e
             end) s0
        end) s).
  unfold bind at 1, check_system_m. rewrite Hc.
  unfold bind at 1. rewrite Hi, Hf. unfold bind at 1. rewrite Hp.
  assert (Hloop : (curr_e <- visit_loop h (visit h (S n)) (S n) (S n) e ;;
                   insert_cache e curr_e ;;; ret curr_e) s2 =
                  Ret e (set_cache (cache_insert (m_cache s4) e e) s4)).
  { assert (Hl : forall (v : expr -> M expr) f m,
              visit_children v f e s2 = Ret new_e s3 ->
              visit_loop h v f (S m) e s2 = Ret e s4).
    { intros v f m Hv. simpl. unfold bind. now rewrite Hv, Hpost. }
    unfold bind at 1. rewrite (Hl _ _ _ Hch). reflexivity. }
  destruct p as [[r [|]]|]; auto. exfalso. now apply (Hnp r).
Qed.

(** With the single rule [a -> b], the visit of [f a] rewrites the
    argument (the cache shows [a -> b]) and still returns [f a]. *)
Lemma visit_returns_original_when_post_is_silent_witness :
  @visit (Tree.kernel Tree.quiet)
     (@dsimplify_fn (Tree.kernel Tree.quiet) (Tree.simp_lemmas Tree.quiet)
        [(Examples.a, Examples.b, true)] 10)
     5 (Tree.tApp Examples.f Examples.a) (Examples.fresh Tree.quiet 100 false)
  = Ret (Tree.tApp Examples.f Examples.a)
      (@mk_core (Tree.kernel Tree.quiet) Tree.empty_tctx
         [(Tree.tApp Examples.f Examples.a, Tree.tApp Examples.f Examples.a);
          (Examples.a, Examples.b)] 6 false 100 false).
Proof.
  apply (@visit_returns_original_when_post_is_silent
           (Tree.kernel Tree.quiet)
           (@dsimplify_fn (Tree.kernel Tree.quiet) (Tree.simp_lemmas Tree.quiet)
              [(Examples.a, Examples.b, true)] 10)
           3%nat (Tree.tApp Examples.f Examples.a)
           (Examples.fresh Tree.quiet 100 false)
           (@mk_core (Tree.kernel Tree.quiet) Tree.empty_tctx [] 1 false 100 false)
           None
           (@mk_core (Tree.kernel Tree.quiet) Tree.empty_tctx [] 1 false 100 false)
           (Tree.tApp Examples.f Examples.b)
           (@mk_core (Tree.kernel Tree.quiet) Tree.empty_tctx
              [(Examples.a, Examples.b)] 5 false 100 false)
           (@mk_core (Tree.kernel Tree.quiet) Tree.empty_tctx
              [(Examples.a, Examples.b)] 6 false 100 false));
    try reflexivity.
  intros r. discriminate.
Defined.

(** ** The binder loops consume the whole chain *)

Section Chains.
Context `{K : Kernel}.
Variable v : expr -> M expr.

Section Runs.
Variable is_binder : expr -> bool.
Variable body : expr -> expr.
Variable round : expr -> list expr -> dsimplify_core_fn -> expr -> bool ->
                 dsimplify_core_fn -> Prop.
Hypothesis round_flag : forall b locals s l changed s1 changed' ,
  round b locals s l changed s1 -> round b locals s l changed' s1 ->
  changed = changed'.

Lemma chain_run_done : forall b locals modified s,
  is_binder b = false ->
  chain_run is_binder body round b locals modified s b locals modified s.
Proof.
  intros b locals modified s E. exists [], []. simpl.
  split; [reflexivity|]. split; [now rewrite app_nil_r|].
  split; [reflexivity|]. split; [reflexivity|]. split; [exact E|].
  split; [intros j Hj; lia|].
  split; [intros [|j] l Hl; discriminate|].
  split; [now left|].
  intros [H|(j & l & Hl & _)]; [exact H|destruct j; discriminate].
Qed.

Lemma chain_run_round : forall b locals modified s l changed s1
                               b' locals' modified' s',
  is_binder b = true ->
  round b locals s l changed s1 ->
  chain_run is_binder body round (body b) (locals ++ [l])
    (if changed then true else modified) s1 b' locals' modified' s' ->
  chain_run is_binder body round b locals modified s b' locals' modified' s'.
Proof.
  intros b locals modified s l changed s1 b' locals' modified' s' E R
         (pushed & sts & Hlen & Hloc & Hb & Hs & Hk & Hall & Hrounds & Hflag).
  exists (l :: pushed), (s1 :: sts). cbv zeta.
  split; [simpl; now f_equal|].
  split; [now rewrite Hloc, <- app_assoc|].
  split; [exact Hb|]. split; [exact Hs|]. split; [exact Hk|].
  split.
  { intros [|j] Hj; simpl; [exact E|]. apply Hall. simpl in Hj. lia. }
  split.
  { intros [|j] l0 Hl0; simpl in Hl0.
    - inversion Hl0; subst l0. exists changed, s, s1.
      split; [reflexivity|]. split; [reflexivity|].
      simpl. now rewrite app_nil_r.
    - destruct (Hrounds j l0 Hl0) as (ch & sj & sj' & H1 & H2 & H3).
      exists ch, sj, sj'. split; [exact H1|]. split; [exact H2|].
      simpl. now rewrite <- app_assoc in H3. }
  rewrite Hflag. split.
  - intros [H|(j & l0 & Hl0 & sj & sj' & H1 & H2 & H3)].
    + destruct changed; [|now left].
      right. exists O, l. split; [reflexivity|]. exists s, s1.
      split; [reflexivity|]. split; [reflexivity|].
      simpl. now rewrite app_nil_r.
    + right. exists (S j), l0. split; [exact Hl0|]. exists sj, sj'.
      split; [exact H1|]. split; [exact H2|].
      simpl. now rewrite <- app_assoc in H3.
  - intros [H|(j & l0 & Hl0 & sj & sj' & H1 & H2 & H3)].
    + left. now destruct changed.
    + destruct j as [|j].
      * simpl in Hl0, H1, H2, H3. inversion Hl0; subst l0.
        inversion H1; subst sj. inversion H2; subst sj'.
        rewrite app_nil_r in H3. left.
        assert (changed = true) as ->; [|reflexivity].
        exact (round_flag _ _ _ _ _ _ _ R H3).
      * right. exists j, l0. split; [exact Hl0|]. exists sj, sj'.
        split; [exact H1|]. split; [exact H2|].
        simpl in H3. now rewrite <- app_assoc.
Qed.

End Runs.

Lemma binding_round_flag : forall b locals s l changed s1 changed',
  binding_round v b locals s l changed s1 ->
  binding_round v b locals s l changed' s1 -> changed = changed'.
Proof.
  intros b locals s l changed s1 changed'
         (nd & t1 & c & Hv & _ & Hc & _) (nd' & t1' & c' & Hv' & _ & Hc' & _).
  rewrite Hv in Hv'. inversion Hv'; subst. reflexivity.
Qed.

Lemma let_round_flag : forall b locals s l changed s1 changed',
  let_round v b locals s l changed s1 ->
  let_round v b locals s l changed' s1 -> changed = changed'.
Proof.
  intros b locals s l changed s1 changed'
         (nt & t1 & nv & t2 & c & Ht & Hv & _ & Hc & _)
         (nt' & t1' & nv' & t2' & c' & Ht' & Hv' & _ & Hc' & _).
  rewrite Ht in Ht'. inversion Ht'; subst.
  rewrite Hv in Hv'. inversion Hv'; subst. reflexivity.
Qed.

(** X14: a run of the loop of [visit_binding] that returns has consumed
    exactly the binders of the kind of the chain that lead the node it
    started at: the node left as the body is the one below them and is
    no binder of that kind, and the frame is the frame the loop started
    with followed by one local per binder, outermost first, each pushed
    with the name and info of its binder and the visited instance of its
    domain under the locals pushed before it; the state returned is the
    one the last round left, and the flag is raised exactly when it was
    raised at the start or the visit of some domain returned another
    object.  The same holds of the loop of [visit_let], which visits the
    instantiated type and value of every let of the chain and pushes the
    local with the instantiated type and value. *)
Theorem binder_loops_consume_the_chain :
  (forall f k b locals modified s b' locals' modified' s',
     visit_binding_loop v f k b locals modified s
       = Ret (b', locals', modified') s' ->
     chain_run (fun x => expr_kind_eqb (kind x) k) binding_body
       (binding_round v) b locals modified s b' locals' modified' s') /\
  (forall f b locals modified s b' locals' modified' s',
     visit_let_loop v f b locals modified s
       = Ret (b', locals', modified') s' ->
     chain_run is_let let_body (let_round v)
       b locals modified s b' locals' modified' s').
Proof.
  split.
  - induction f as [|f IH];
      intros k b locals modified s b' locals' modified' s' H; simpl in H.
    + destruct (expr_kind_eqb (kind b) k) eqn:E; [discriminate|].
      inversion H; subst. now apply chain_run_done.
    + destruct (expr_kind_eqb (kind b) k) eqn:E.
      * unfold bind at 1 in H.
        destruct (v (instantiate_rev (binding_domain b) locals) s)
          as [new_d s1| |] eqn:Hv; try discriminate.
        unfold bind at 1, with_ctx at 1 in H.
        destruct (push_local (m_ctx s1) (binding_name b) new_d (binding_info b))
          as [l c] eqn:Hp.
        apply IH in H.
        apply (chain_run_round _ binding_body (binding_round v)
                 binding_round_flag b locals modified s l
                 (negb (is_eqp (instantiate_rev (binding_domain b) locals)
                          new_d))
                 (set_ctx c s1)); [exact E| |exact H].
        exists new_d, s1, c. repeat split; assumption.
      * inversion H; subst. now apply chain_run_done.
  - induction f as [|f IH];
      intros b locals modified s b' locals' modified' s' H; simpl in H.
    + destruct (is_let b) eqn:E; [discriminate|].
      inversion H; subst. now apply chain_run_done.
    + destruct (is_let b) eqn:E.
      * unfold bind at 1 in H.
        destruct (v (instantiate_rev (let_type b) locals) s)
          as [new_t s1| |] eqn:Ht; try discriminate.
        unfold bind at 1 in H.
        destruct (v (instantiate_rev (let_value b) locals) s1)
          as [new_v s2| |] eqn:Hv; try discriminate.
        unfold bind at 1, with_ctx at 1 in H.
        destruct (push_let (m_ctx s2) (let_name b)
                    (instantiate_rev (let_type b) locals)
                    (instantiate_rev (let_value b) locals)) as [l c] eqn:Hp.
        apply IH in H.
        apply (chain_run_round is_let let_body (let_round v)
                 let_round_flag b locals modified s l
                 (negb (is_eqp (instantiate_rev (let_type b) locals) new_t)
                  || negb (is_eqp (instantiate_rev (let_value b) locals)
                             new_v))
                 (set_ctx c s2)); [exact E| |exact H].
        exists new_t, s1, new_v, s2, c. repeat split; assumption.
      * inversion H; subst. now apply chain_run_done.
Qed.

End Chains.

Lemma binder_loops_consume_the_chain_witness :
  @chain_run (Tree.kernel Tree.quiet)
    (fun x => @expr_kind_eqb (@kind (Tree.kernel Tree.quiet) x) Lambda)
    (@binding_body (Tree.kernel Tree.quiet))
    (@binding_round (Tree.kernel Tree.quiet)
       (@visit (Tree.kernel Tree.quiet) core_hooks 3))
    (Tree.tLam "x" Examples.a (Tree.tLam "y" (Tree.tVar 0) (Tree.tVar 1)))
    [] false (Examples.fresh Tree.quiet 100 false)
    (Tree.tVar 1)
    [Tree.tLocal 0 "x" Examples.a;
     Tree.tLocal 1 "y" (Tree.tLocal 0 "x" Examples.a)]
    false
    (@mk_core (Tree.kernel Tree.quiet)
       (Tree.mk_tctx 2 [1%nat; 0%nat] [] 0)
       [(Tree.tLocal 0 "x" Examples.a, Tree.tLocal 0 "x" Examples.a);
        (Examples.a, Examples.a)] 2 false 100 false).
Proof.
  apply (proj1 (@binder_loops_consume_the_chain (Tree.kernel Tree.quiet)
                  (@visit (Tree.kernel Tree.quiet) core_hooks 3))
           4%nat Lambda).
  reflexivity.
Defined.
